(** * carbon_go: the schema-tolerant query and admin CRUD layer of [main.go]

    A shallow embedding of the request-handling core of the service
    (cascading query fallback, the table registry, payload validation,
    value coercion, statement construction, identifier parsing and the
    response projection helpers) and of what surrounds it (reading and
    deleting records, the administrator token, storage paths and object
    addresses, listing options, consultation requests), followed by the
    properties established about it.

    Conventions.
    - A Go [string] is a sequence of bytes: Rocq's [string] (a list of
      [ascii], one per byte).
    - A Go [map[string]T] is a [gmap string T]; a [map[string]struct{}] is a
      [gset string]; a nil map is the empty one (lookups and [range] agree).
    - The order in which [range] walks a map is unspecified in Go.  Every
      loop over a map takes the walk as an explicit list of keys, and the
      statements quantify over every walk of the map. *)

From Stdlib Require Import ZArith List Ascii String Lia Bool.
From Stdlib Require Import Floats.SpecFloat.
From stdpp Require Import base tactics option list sorting gmap strings pretty.

Local Open Scope Z_scope.
#[local] Set Warnings "-clear-no-such-hyp".

(** ** Package [strings] *)

Definition byte_of (n : N) : ascii := ascii_of_N n.

(** [bytes_of [194; 133]] is the two-byte string C2 85. *)
Definition bytes_of (l : list N) : string :=
  string_of_list_ascii (byte_of <$> l).

(** The table [asciiSpace] of package [strings]: tab, line feed, vertical
    tab, form feed, carriage return and space. *)
Definition asciiSpace (a : ascii) : bool :=
  let n := N_of_ascii a in
  (((9 <=? n) && (n <=? 13)) || (n =? 32))%N.

(** [unicode.IsSpace] on the two-byte UTF-8 sequences: U+0085 (C2 85) and
    U+00A0 (C2 A0). *)
Definition space2 (a b : ascii) : bool :=
  let x := N_of_ascii a in
  let y := N_of_ascii b in
  ((x =? 194) && ((y =? 133) || (y =? 160)))%N.

(** [unicode.IsSpace] on the three-byte UTF-8 sequences: U+1680 (E1 9A 80),
    U+2000..U+200A (E2 80 80..8A), U+2028, U+2029 (E2 80 A8, A9), U+202F
    (E2 80 AF), U+205F (E2 81 9F) and U+3000 (E3 80 80). *)
Definition space3 (a b c : ascii) : bool :=
  let x := N_of_ascii a in
  let y := N_of_ascii b in
  let z := N_of_ascii c in
  (((x =? 225) && (y =? 154) && (z =? 128))
   || ((x =? 226) && (y =? 128)
       && (((128 <=? z) && (z <=? 138)) || (z =? 168) || (z =? 169) || (z =? 175)))
   || ((x =? 226) && (y =? 129) && (z =? 159))
   || ((x =? 227) && (y =? 128) && (z =? 128)))%N.

(** [strings.TrimLeftFunc(s, unicode.IsSpace)] on the bytes of [s]: the
    leading rune is decoded and dropped while it is white space.  A white
    space rune is one of the byte sequences above; any other leading bytes
    (also an invalid encoding, which decodes to U+FFFD) stop the loop. *)
Fixpoint trimLeftSpace (s : list ascii) : list ascii :=
  match s with
  | a :: r1 =>
      if asciiSpace a then trimLeftSpace r1 else
      match r1 with
      | b :: r2 =>
          if space2 a b then trimLeftSpace r2 else
          match r2 with
          | c :: r3 => if space3 a b c then trimLeftSpace r3 else s
          | [] => s
          end
      | [] => s
      end
  | [] => s
  end.

(** The same walk from the end of the string ([utf8.DecodeLastRuneInString]
    steps back to the start byte of the last rune): the argument is the
    reversed string. *)
Fixpoint trimLeftSpaceRev (s : list ascii) : list ascii :=
  match s with
  | a :: r1 =>
      if asciiSpace a then trimLeftSpaceRev r1 else
      match r1 with
      | b :: r2 =>
          if space2 b a then trimLeftSpaceRev r2 else
          match r2 with
          | c :: r3 => if space3 c b a then trimLeftSpaceRev r3 else s
          | [] => s
          end
      | [] => s
      end
  | [] => s
  end.

Definition trimRightSpace (s : list ascii) : list ascii :=
  rev (trimLeftSpaceRev (rev s)).

(** [strings.TrimSpace]. *)
Definition TrimSpace (s : string) : string :=
  string_of_list_ascii (trimRightSpace (trimLeftSpace (list_ascii_of_string s))).

(** [strings.HasPrefix]. *)
Fixpoint HasPrefix (s p : string) : bool :=
  match p, s with
  | EmptyString, _ => true
  | String b p', String a s' => if Ascii.eqb a b then HasPrefix s' p' else false
  | String _ _, EmptyString => false
  end.

(** [strings.TrimPrefix]: [s] without the leading [p], or [s] itself. *)
Fixpoint cutPrefix (s p : string) : option string :=
  match p, s with
  | EmptyString, _ => Some s
  | String b p', String a s' => if Ascii.eqb a b then cutPrefix s' p' else None
  | String _ _, EmptyString => None
  end.

Definition TrimPrefix (s p : string) : string :=
  match cutPrefix s p with Some r => r | None => s end.

(** [strings.TrimSuffix]. *)
Definition TrimSuffix (s p : string) : string :=
  match cutPrefix (String.rev s) (String.rev p) with
  | Some r => String.rev r
  | None => s
  end.

(** [strings.Contains(s, sub)] for a one-byte [sub]. *)
Fixpoint ContainsByte (s : string) (c : ascii) : bool :=
  match s with
  | EmptyString => false
  | String a s' => Ascii.eqb a c || ContainsByte s' c
  end.

(** [strings.Join]. *)
Fixpoint Join (elems : list string) (sep : string) : string :=
  match elems with
  | [] => ""
  | [e] => e
  | e :: rest => e +:+ sep +:+ Join rest sep
  end.

(** [strings.ReplaceAll(s, old, new)] for a one-byte [old]. *)
Fixpoint ReplaceAllByte (s : string) (old : ascii) (new : string) : string :=
  match s with
  | EmptyString => ""
  | String a s' =>
      (if Ascii.eqb a old then new else String a "") +:+ ReplaceAllByte s' old new
  end.

(** [strings.Split(s, sep)] for a one-byte [sep]: the pieces between the
    separators, at least one piece. *)
Fixpoint splitByteGo (cur : string) (s : string) (sep : ascii) : list string :=
  match s with
  | EmptyString => [String.rev cur]
  | String a s' =>
      if Ascii.eqb a sep then String.rev cur :: splitByteGo "" s' sep
      else splitByteGo (String a cur) s' sep
  end.

Definition SplitByte (s : string) (sep : ascii) : list string :=
  splitByteGo "" s sep.

Definition dquote : ascii := byte_of 34.
Definition slash : ascii := "/"%char.
Definition dot : ascii := "."%char.


(** ** Values of type [any]

    What [encoding/json] stores in an interface value (nil, bool, float64,
    string, []any, map[string]any), and the [int64] that value coercion
    produces.  A [float64] is a [spec_float]: a zero, an infinity, NaN, or
    [S754_finite s m e] for (-1)^s * m * 2^e; it is an IEEE binary64 when
    [bounded 53 1024 m e] holds. *)

#[warnings="-register-all"]
Inductive any : Type :=
| ANil
| ABool (b : bool)
| AFloat64 (x : spec_float)
| AInt64 (n : Z)
| AString (s : string)
| ASlice (l : list any)
| AMap (m : gmap string any).

Definition float64_valid (x : spec_float) : bool :=
  match x with
  | S754_finite _ m e => bounded 53 1024 m e
  | _ => true
  end.

Definition minInt64 : Z := - 2 ^ 63.
Definition maxInt64 : Z := 2 ^ 63 - 1.

Definition inInt64 (n : Z) : bool := (minInt64 <=? n) && (n <=? maxInt64).

(** The integer part of a finite float (rounding toward zero). *)
Definition float64_trunc (x : spec_float) : option Z :=
  match x with
  | S754_zero _ => Some 0
  | S754_finite s m e =>
      let a := if 0 <=? e then Z.pos m * 2 ^ e else Z.pos m / 2 ^ (- e) in
      Some (if s then - a else a)
  | _ => None
  end.

(** The conversion [int64(x)] of a float64.  The fraction is discarded; when
    the result does not fit ("the conversion succeeds but the result value is
    implementation-dependent", Go specification) the value is the one the
    target machine gives, [overflow x]. *)
Definition int64_of_float64 (overflow : spec_float → Z) (x : spec_float) : Z :=
  match float64_trunc x with
  | Some t => if inInt64 t then t else overflow x
  | None => overflow x
  end.

(** amd64: CVTTSD2SQ yields the "integer indefinite" value 0x8000000000000000. *)
Definition overflow_amd64 (x : spec_float) : Z := minInt64.

(** arm64: FCVTZS saturates, and NaN converts to 0. *)
Definition overflow_arm64 (x : spec_float) : Z :=
  match x with
  | S754_nan => 0
  | S754_infinity s | S754_finite s _ _ | S754_zero s => if s then minInt64 else maxInt64
  end.

(** The integer nearest to [n] that has at most 53 significant bits, ties to
    the even mantissa: the value of [float64(n)]. *)
Definition round53 (n : Z) : Z :=
  let a := Z.abs n in
  let k := Z.log2 a + 1 - 53 in
  if k <=? 0 then n
  else
    let q := a / 2 ^ k in
    let r := a mod 2 ^ k in
    let half := 2 ^ (k - 1) in
    let q' := if (half <? r) || ((r =? half) && Z.odd q) then q + 1 else q in
    Z.sgn n * (q' * 2 ^ k).

(** The float with integer value [v], written with exponent 0. *)
Definition float64_of_Z (v : Z) : spec_float :=
  match v with
  | Z0 => S754_zero false
  | Zpos p => S754_finite false p 0
  | Zneg p => S754_finite true p 0
  end.

(** The conversion [float64(n)] of an int64. *)
Definition float64_of_int64 (n : Z) : spec_float := float64_of_Z (round53 n).

(** The comparison [x == y] of two float64: NaN equals nothing, the two
    zeros are equal, finite values are compared as numbers. *)
Definition float64_eqb (x y : spec_float) : bool :=
  match x, y with
  | S754_zero _, S754_zero _ => true
  | S754_infinity s1, S754_infinity s2 => Bool.eqb s1 s2
  | S754_finite s1 m1 e1, S754_finite s2 m2 e2 =>
      let e := Z.min e1 e2 in
      Bool.eqb s1 s2 && (Z.pos m1 * 2 ^ (e1 - e) =? Z.pos m2 * 2 ^ (e2 - e))
  | _, _ => false
  end.

(** [json.Marshal] rejects the floats that JSON cannot write (NaN and the
    infinities) wherever they occur in the value. *)
Fixpoint marshalSupported (v : any) : bool :=
  match v with
  | AFloat64 (S754_nan) | AFloat64 (S754_infinity _) => false
  | ASlice l => forallb marshalSupported l
  | AMap m => map_fold (λ _ v' ok, marshalSupported v' && ok) true m
  | _ => true
  end.

(** The functions of [encoding/json] the handlers call.  [json_decode raw] is
    [json.Unmarshal(raw, &v)] for [v] of type [any]: [None] when it reports
    an error.  [json_text v] is the text [json.Marshal] writes for a value it
    supports. *)
Class JSONCodec := {
  json_decode : string → option any;
  json_text : any → string;
}.

(** [json.Marshal(v)]. *)
Definition json_Marshal `{JSONCodec} (v : any) : option string :=
  if marshalSupported v then Some (json_text v) else None.

(** ** A reference decoder for JSON text

    The grammar of RFC 8259 as [encoding/json] reads it into an [any]:
    strings are unquoted (invalid UTF-8 becomes U+FFFD), numbers become the
    nearest float64 and are an error when they overflow, a repeated object
    key keeps its last value, nesting deeper than 10000 is an error. *)

Definition codeb (c : ascii) (n : N) : bool := (N_of_ascii c =? n)%N.

Definition is_json_ws (c : ascii) : bool :=
  codeb c 32 || codeb c 9 || codeb c 13 || codeb c 10.

Fixpoint skip_ws (s : string) : string :=
  match s with
  | String c r => if is_json_ws c then skip_ws r else s
  | EmptyString => s
  end.

Definition utf8_cont (c : ascii) : bool :=
  let n := N_of_ascii c in ((128 <=? n) && (n <=? 191))%N.

Definition between (lo hi : N) (c : ascii) : bool :=
  let n := N_of_ascii c in ((lo <=? n) && (n <=? hi))%N.

(** [utf8.DecodeRune] as far as validity goes: the number of bytes of the
    well-formed rune at the head of [s], or [None] for an invalid encoding. *)
Definition utf8_width (s : string) : option nat :=
  match s with
  | EmptyString => None
  | String a r =>
      let n := N_of_ascii a in
      if (n <? 128)%N then Some 1%nat
      else if between 194 223 a then
        match r with
        | String b _ => if utf8_cont b then Some 2%nat else None
        | _ => None
        end
      else if between 224 239 a then
        match r with
        | String b (String c _) =>
            let ok2 :=
              if codeb a 224 then between 160 191 b
              else if codeb a 237 then between 128 159 b
              else utf8_cont b in
            if ok2 && utf8_cont c then Some 3%nat else None
        | _ => None
        end
      else if between 240 244 a then
        match r with
        | String b (String c (String d _)) =>
            let ok2 :=
              if codeb a 240 then between 144 191 b
              else if codeb a 244 then between 128 143 b
              else utf8_cont b in
            if ok2 && utf8_cont c && utf8_cont d then Some 4%nat else None
        | _ => None
        end
      else None
  end.

(** [utf8.AppendRune]. *)
Definition utf8_encode (r : N) : list ascii :=
  (if r <? 128 then [byte_of r]
   else if r <? 2048 then [byte_of (192 + r / 64); byte_of (128 + r mod 64)]
   else if r <? 65536 then
     [byte_of (224 + r / 4096); byte_of (128 + (r / 64) mod 64); byte_of (128 + r mod 64)]
   else
     [byte_of (240 + r / 262144); byte_of (128 + (r / 4096) mod 64);
      byte_of (128 + (r / 64) mod 64); byte_of (128 + r mod 64)])%N.

Definition replacementChar : N := 65533.

Definition hexval (c : ascii) : option N :=
  let n := N_of_ascii c in
  (if (48 <=? n) && (n <=? 57) then Some (n - 48)
   else if (97 <=? n) && (n <=? 102) then Some (n - 87)
   else if (65 <=? n) && (n <=? 70) then Some (n - 55)
   else None)%N.

(** [getu4]: the rune of a leading backslash-u escape and the text after it. *)
Definition getu4 (s : string) : option (N * string) :=
  match s with
  | String bs (String u (String h1 (String h2 (String h3 (String h4 r))))) =>
      if codeb bs 92 && codeb u 117 then
        match hexval h1, hexval h2, hexval h3, hexval h4 with
        | Some a, Some b, Some c, Some d => Some (a * 4096 + b * 256 + c * 16 + d, r)%N
        | _, _, _, _ => None
        end
      else None
  | _ => None
  end.

Definition isSurrogate (r : N) : bool := ((55296 <=? r) && (r <? 57344))%N.

(** [utf16.DecodeRune]. *)
Definition utf16_DecodeRune (r1 r2 : N) : N :=
  (if (55296 <=? r1) && (r1 <? 56320) && (56320 <=? r2) && (r2 <? 57344)
   then (r1 - 55296) * 1024 + (r2 - 56320) + 65536
   else replacementChar)%N.

Definition simple_escape (c : ascii) : option ascii :=
  if codeb c 34 || codeb c 92 || codeb c 47 then Some c
  else if codeb c 98 then Some (byte_of 8)
  else if codeb c 102 then Some (byte_of 12)
  else if codeb c 110 then Some (byte_of 10)
  else if codeb c 114 then Some (byte_of 13)
  else if codeb c 116 then Some (byte_of 9)
  else None.

Fixpoint drop_bytes (n : nat) (s : string) : string :=
  match n, s with
  | S n', String _ r => drop_bytes n' r
  | _, _ => s
  end.

Fixpoint take_bytes (n : nat) (s : string) : list ascii :=
  match n, s with
  | S n', String a r => a :: take_bytes n' r
  | _, _ => []
  end.

(** The text of a string literal after its opening quote: the unquoted
    bytes (in reverse in [acc]) and the text after the closing quote. *)
Fixpoint parse_string (fuel : nat) (s : string) (acc : list ascii)
    : option (string * string) :=
  match fuel with
  | O => None
  | S fuel =>
      match s with
      | EmptyString => None
      | String c r =>
          if codeb c 34 then Some (string_of_list_ascii (rev acc), r)
          else if codeb c 92 then
            match r with
            | EmptyString => None
            | String e r' =>
                if codeb e 117 then
                  match getu4 s with
                  | None => None
                  | Some (rr, rest) =>
                      if isSurrogate rr then
                        match getu4 rest with
                        | Some (rr1, rest1) =>
                            let dec := utf16_DecodeRune rr rr1 in
                            if (dec =? replacementChar)%N
                            then parse_string fuel rest (rev (utf8_encode replacementChar) ++ acc)
                            else parse_string fuel rest1 (rev (utf8_encode dec) ++ acc)
                        | None =>
                            parse_string fuel rest (rev (utf8_encode replacementChar) ++ acc)
                        end
                      else parse_string fuel rest (rev (utf8_encode rr) ++ acc)
                  end
                else
                  match simple_escape e with
                  | Some b => parse_string fuel r' (b :: acc)
                  | None => None
                  end
            end
          else if (N_of_ascii c <? 32)%N then None
          else
            match utf8_width s with
            | Some w => parse_string fuel (drop_bytes w s) (rev (take_bytes w s) ++ acc)
            | None => parse_string fuel r (rev (utf8_encode replacementChar) ++ acc)
            end
      end
  end.

Definition digitval (c : ascii) : option Z :=
  let n := N_of_ascii c in
  if ((48 <=? n) && (n <=? 57))%N then Some (Z.of_N n - 48) else None.

(** The digits at the head of [s]: their value appended to [acc], how many
    there are, and the text after them. *)
Fixpoint scan_digits (s : string) (acc : Z) (count : Z) : Z * Z * string :=
  match s with
  | String c r =>
      match digitval c with
      | Some d => scan_digits r (10 * acc + d) (count + 1)
      | None => (acc, count, s)
      end
  | EmptyString => (acc, count, s)
  end.

(** [strconv.ParseFloat] on the decimal [d * 10^k] (with [0 <= d]): the
    nearest binary64, ties to even; [None] when it overflows. *)
Definition float64_of_decimal (neg : bool) (d k : Z) : option spec_float :=
  if d =? 0 then Some (S754_zero neg)
  else
    let num := if 0 <=? k then d * 10 ^ k else d in
    let den := if 0 <=? k then 1 else 10 ^ (- k) in
    let l0 := Z.log2 num - Z.log2 den in
    (* l = floor (log2 (num / den)) *)
    let l := if num * 2 ^ Z.max 0 (- l0) <? den * 2 ^ Z.max 0 l0 then l0 - 1 else l0 in
    let e := Z.max (l - 52) (-1074) in
    let n' := num * 2 ^ Z.max 0 (- e) in
    let d' := den * 2 ^ Z.max 0 e in
    let q := n' / d' in
    let r := n' mod d' in
    let q' := if (d' <? 2 * r) || ((2 * r =? d') && Z.odd q) then q + 1 else q in
    let '(m, e') := if q' =? 2 ^ 53 then (2 ^ 52, e + 1) else (q', e) in
    if 971 <? e' then None
    else if m =? 0 then Some (S754_zero neg)
    else Some (S754_finite neg (Z.to_pos m) e').

(** A number literal: an optional minus sign, the integer part (a single 0,
    or digits that do not start with 0), an optional fraction (a dot and at
    least one digit), an optional exponent (e or E, an optional sign, at
    least one digit). *)
Definition parse_number (s : string) : option (any * string) :=
  let '(neg, s1) :=
    match s with
    | String c r => if codeb c 45 then (true, r) else (false, s)
    | EmptyString => (false, s)
    end in
  let int_part :=
    match s1 with
    | String c r =>
        if codeb c 48 then Some (0, r)
        else match digitval c with
             | Some _ => let '(v, _, r') := scan_digits s1 0 0 in Some (v, r')
             | None => None
             end
    | EmptyString => None
    end in
  match int_part with
  | None => None
  | Some (ip, s2) =>
      let frac :=
        match s2 with
        | String c r =>
            if codeb c 46 then
              let '(v, n, r') := scan_digits r ip 0 in
              if n =? 0 then None else Some (v, n, r')
            else Some (ip, 0, s2)
        | EmptyString => Some (ip, 0, s2)
        end in
      match frac with
      | None => None
      | Some (d, nfrac, s3) =>
          let expo :=
            match s3 with
            | String c r =>
                if codeb c 101 || codeb c 69 then
                  let '(eneg, r1) :=
                    match r with
                    | String g r' =>
                        if codeb g 45 then (true, r')
                        else if codeb g 43 then (false, r') else (false, r)
                    | EmptyString => (false, r)
                    end in
                  let '(v, n, r2) := scan_digits r1 0 0 in
                  if n =? 0 then None else Some (if eneg then - v else v, r2)
                else Some (0, s3)
            | EmptyString => Some (0, s3)
            end in
          match expo with
          | None => None
          | Some (ex, s4) =>
              match float64_of_decimal neg d (ex - nfrac) with
              | Some x => Some (AFloat64 x, s4)
              | None => None
              end
          end
      end
  end.

Definition maxNestingDepth : N := 10000.

Fixpoint parse_value (fuel : nat) (depth : N) (s : string) {struct fuel}
    : option (any * string) :=
  match fuel with
  | O => None
  | S fuel =>
      match skip_ws s with
      | EmptyString => None
      | String c r as s' =>
          if codeb c 91 then
            if (maxNestingDepth <? depth + 1)%N then None
            else match skip_ws r with
                 | String c' r' =>
                     if codeb c' 93 then Some (ASlice [], r')
                     else parse_elements fuel (depth + 1)%N r []
                 | EmptyString => None
                 end
          else if codeb c 123 then
            if (maxNestingDepth <? depth + 1)%N then None
            else match skip_ws r with
                 | String c' r' =>
                     if codeb c' 125 then Some (AMap ∅, r')
                     else parse_members fuel (depth + 1)%N r ∅
                 | EmptyString => None
                 end
          else if codeb c 34 then
            match parse_string (S (String.length r)) r [] with
            | Some (str, rest) => Some (AString str, rest)
            | None => None
            end
          else if codeb c 116 then
            match cutPrefix s' "true" with Some rest => Some (ABool true, rest) | None => None end
          else if codeb c 102 then
            match cutPrefix s' "false" with Some rest => Some (ABool false, rest) | None => None end
          else if codeb c 110 then
            match cutPrefix s' "null" with Some rest => Some (ANil, rest) | None => None end
          else parse_number s'
      end
  end
with parse_elements (fuel : nat) (depth : N) (s : string) (acc : list any) {struct fuel}
    : option (any * string) :=
  match fuel with
  | O => None
  | S fuel =>
      match parse_value fuel depth s with
      | Some (v, r) =>
          match skip_ws r with
          | String c r' =>
              if codeb c 44 then parse_elements fuel depth r' (v :: acc)
              else if codeb c 93 then Some (ASlice (rev (v :: acc)), r')
              else None
          | EmptyString => None
          end
      | None => None
      end
  end
with parse_members (fuel : nat) (depth : N) (s : string) (acc : gmap string any) {struct fuel}
    : option (any * string) :=
  match fuel with
  | O => None
  | S fuel =>
      match skip_ws s with
      | String c r =>
          if codeb c 34 then
            match parse_string (S (String.length r)) r [] with
            | Some (key, r1) =>
                match skip_ws r1 with
                | String c1 r2 =>
                    if codeb c1 58 then
                      match parse_value fuel depth r2 with
                      | Some (v, r3) =>
                          match skip_ws r3 with
                          | String c3 r4 =>
                              if codeb c3 44 then parse_members fuel depth r4 (<[key := v]> acc)
                              else if codeb c3 125 then Some (AMap (<[key := v]> acc), r4)
                              else None
                          | EmptyString => None
                          end
                      | None => None
                      end
                    else None
                | EmptyString => None
                end
            | None => None
            end
          else None
      | EmptyString => None
      end
  end.

(** [json.Unmarshal(raw, &v)] for [v] of type [any]: one value, with nothing
    but white space around it. *)
Definition decode_reference (raw : string) : option any :=
  match parse_value (S (String.length raw)) 0 raw with
  | Some (v, rest) => match skip_ws rest with EmptyString => Some v | _ => None end
  | None => None
  end.

(** JSON text with apostrophes standing for its double quotes. *)
Definition jsonText (s : string) : string :=
  ReplaceAllByte s "'"%char (String dquote EmptyString).

(** The reference decoder paired with an encoder [text]. *)
Definition reference_codec (text : any → string) : JSONCodec :=
  {| json_decode := decode_reference; json_text := text |}.

(** The machine the service runs on decides [int64(x)] for a float that
    int64 cannot represent; the result is some int64. *)
Class Machine := {
  int64_overflow : spec_float → Z;
  int64_overflow_range : ∀ x, inInt64 (int64_overflow x) = true;
}.

(** ** Response projection helpers (main.go, lines 2434-2549) *)

(** [sql.NullString]. *)
Record NullString := { NS_String : string; NS_Valid : bool }.

Definition isBlank (s : string) : bool := bool_decide (TrimSpace s = "").

Fixpoint firstNonEmpty (values : list string) : string :=
  match values with
  | [] => ""
  | v :: rest => if isBlank v then firstNonEmpty rest else v
  end.

Definition nullStringValue (v : NullString) : string :=
  if NS_Valid v then TrimSpace (NS_String v) else "".

(** One turn of the loop of [uniqueNonEmpty]: the state is [result] and the
    set [seen]. *)
Definition uniqueNonEmpty_step (st : list string * gset string) (value : string)
    : list string * gset string :=
  let '(result, seen) := st in
  let clean := TrimSpace value in
  if bool_decide (clean = "") then st
  else if bool_decide (clean ∈ seen) then st
  else (result ++ [clean], {[clean]} ∪ seen).

Definition uniqueNonEmpty (values : list string) : list string :=
  fst (foldl uniqueNonEmpty_step ([], ∅) values).

(** The loop that [parseStringArray] runs over the decoded items. *)
Definition cleanItems (items : list string) : list string :=
  foldl (λ result item,
           let clean := TrimSpace item in
           if bool_decide (clean = "") then result else result ++ [clean])
        [] items.

Section Projection.
Context `{JSONCodec}.

(** [json.Unmarshal(raw, &items)] for [items] of type [[]string]: JSON null
    gives the nil slice; an array gives its elements when each is a string
    or null (null leaves the element empty); anything else is an error. *)
Definition stringElement (v : any) : option string :=
  match v with
  | AString s => Some s
  | ANil => Some ""
  | _ => None
  end.

Definition UnmarshalStrings (raw : string) : option (list string) :=
  match json_decode raw with
  | Some ANil => Some []
  | Some (ASlice l) => mapM stringElement l
  | _ => None
  end.

(** [json.Unmarshal(raw, &asAny)] for [asAny] of type [[]any]. *)
Definition UnmarshalSlice (raw : string) : option (list any) :=
  match json_decode raw with
  | Some ANil => Some []
  | Some (ASlice l) => Some l
  | _ => None
  end.

(** [json.Unmarshal(raw, &encoded)] for [encoded] of type [string]. *)
Definition UnmarshalString (raw : string) : option string :=
  match json_decode raw with
  | Some v => stringElement v
  | None => None
  end.

(** The inner loop of [parsePerformedWorks] over the key names: what the
    object [v] appends to [works]. *)
Fixpoint workOfObject (v : gmap string any) (keys : list string) : list string :=
  match keys with
  | [] => []
  | key :: rest =>
      match v !! key with
      | None => workOfObject v rest
      | Some (AString text) =>
          if bool_decide (TrimSpace text ≠ "") then [text] else workOfObject v rest
      | Some _ => workOfObject v rest
      end
  end.

Definition workKeys : list string := ["step"; "title"; "name"; "text"; "description"].

(** The type switch of [parsePerformedWorks] on one array element. *)
Definition workOfItem (item : any) : list string :=
  match item with
  | AString v => [v]
  | AMap v => workOfObject v workKeys
  | _ => []
  end.

Definition parsePerformedWorks (raw : string) : list string :=
  if (String.length raw =? 0)%nat then []
  else
    match UnmarshalStrings raw with
    | Some asStrings => uniqueNonEmpty asStrings
    | None =>
        match UnmarshalSlice raw with
        | None => []
        | Some asAny =>
            uniqueNonEmpty (foldl (λ works item, works ++ workOfItem item) [] asAny)
        end
    end.

Definition parseStringArray (raw : string) : list string :=
  if (String.length raw =? 0)%nat then []
  else
    match UnmarshalStrings raw with
    | Some items => cleanItems items
    | None =>
        match UnmarshalString raw with
        | Some encoded =>
            match UnmarshalStrings encoded with
            | Some nested => cleanItems nested
            | None => []
            end
        | None => []
        end
    end.

(** The columns [workPostHandler] scans from one row, and the post it
    builds from them (main.go, lines 742-786). *)
Record workPostRow := {
  row_id : Z;
  titleModel : string;
  cardImageURL : NullString;
  fullImageURL : NullString;
  cardDescription : NullString;
  workList : string;
  fullDescription : NullString;
  videoImageURL : NullString;
  videoLink : NullString;
  galleryImagesRaw : string;
}.

Record workPost := {
  ID : Z;
  Title : string;
  Description : string;
  FullDescription : string;
  ImageURL : string;
  VideoURL : string;
  PerformedWorks : list string;
  GalleryImages : list string;
}.

Definition projectWorkPost (row : workPostRow) : workPost :=
  let cardURL := nullStringValue (cardImageURL row) in
  let fullURL := nullStringValue (fullImageURL row) in
  let videoImage := nullStringValue (videoImageURL row) in
  let gallery := parseStringArray (galleryImagesRaw row) in
  {| ID := row_id row;
     Title := titleModel row;
     Description := nullStringValue (cardDescription row);
     FullDescription := nullStringValue (fullDescription row);
     ImageURL := firstNonEmpty [cardURL; fullURL; videoImage];
     VideoURL := nullStringValue (videoLink row);
     PerformedWorks := parsePerformedWorks (workList row);
     GalleryImages :=
       if (length gallery =? 0)%nat
       then uniqueNonEmpty [cardURL; fullURL; videoImage]
       else gallery |}.
End Projection.

(** ** The database handle and the responses

    [a.DB] answers a query with a result set or an error.  A single-row
    query scanned into [raw] gives the bytes of the row, or [sql.ErrNoRows],
    or another error. *)

Inductive rowResult : Type :=
| RowBytes (raw : string)
| ErrNoRows
| RowError (msg : string).

Record App (Rows : Type) := {
  QueryContext : string → Rows + string;
  QueryRowScan : string → list any → rowResult;
}.
Arguments QueryContext {Rows} _ _.
Arguments QueryRowScan {Rows} _ _ _.

(** What a handler writes: [http.Error(w, msg, code)], or
    [writeJSON(w, code, payload)]. *)
Inductive response : Type :=
| TextError (msg : string) (code : Z)
| JSONResponse (code : Z) (payload : gmap string any).

Definition StatusOK : Z := 200.
Definition StatusCreated : Z := 201.
Definition StatusBadRequest : Z := 400.
Definition StatusNotFound : Z := 404.
Definition StatusUnprocessableEntity : Z := 422.
Definition StatusInternalServerError : Z := 500.

Definition errorBody (message : string) : gmap string any :=
  {[ "status" := AString "error"; "message" := AString message ]}.

Definition successBody (data : any) : gmap string any :=
  {[ "status" := AString "success"; "data" := data ]}.

(** ** Cascading query fallback (main.go, lines 148-160 and 516-527) *)

Section Cascade.
Context {Rows : Type}.

(** The variables [rows] and [err] of the handler, and the queries sent to
    the database so far. *)
Record cascadeState := {
  cs_rows : option Rows;
  cs_err : option string;
  cs_sent : list string;
}.

Definition cascadeInit : cascadeState :=
  {| cs_rows := None; cs_err := None; cs_sent := [] |}.

(** [rows, err = a.DB.QueryContext(ctx, query)]. *)
Definition assignQuery (a : App Rows) (st : cascadeState) (query : string)
    : cascadeState :=
  match QueryContext a query with
  | inl rows => {| cs_rows := Some rows; cs_err := None; cs_sent := cs_sent st ++ [query] |}
  | inr err => {| cs_rows := None; cs_err := Some err; cs_sent := cs_sent st ++ [query] |}
  end.

(** [for _, query := range queries { rows, err = ...; if err == nil { break } }]. *)
Fixpoint cascadeLoop (a : App Rows) (queries : list string) (st : cascadeState)
    : cascadeState :=
  match queries with
  | [] => st
  | query :: rest =>
      let st' := assignQuery a st query in
      match cs_err st' with
      | None => st'
      | Some _ => cascadeLoop a rest st'
      end
  end.

Definition cascade (a : App Rows) (queries : list string) : cascadeState :=
  cascadeLoop a queries cascadeInit.

(** A handler after its loop: the error check answers the client, or the
    handler goes on to read [rows]. *)
Inductive fetchOutcome : Type :=
| Answered (resp : response)
| ReadRows (rows : option Rows).

Definition afterCascade (failure : string) (st : cascadeState) : fetchOutcome :=
  match cs_err st with
  | Some _ => Answered (TextError failure StatusInternalServerError)
  | None => ReadRows (cs_rows st)
  end.

Definition bannersQueries : list string :=
  [ "SELECT id, section, title, COALESCE(to_jsonb(b)->>'image_url', to_jsonb(b)->>'image') AS image_url, priority
		FROM public.banners b
		ORDER BY priority ASC, id ASC";
    "SELECT id, section, title, COALESCE(to_jsonb(b)->>'image_url', to_jsonb(b)->>'image') AS image_url, priority
		FROM banners b
		ORDER BY priority ASC, id ASC" ].

Definition bannersHandler_fetch (a : App Rows) : fetchOutcome :=
  afterCascade "failed to fetch banners" (cascade a bannersQueries).

Definition tuningQueries : list string :=
  [ "SELECT id, to_jsonb(t)->>'brand' AS brand, to_jsonb(t)->>'model' AS model, NULL::text AS title, card_image_url, full_image_url, description, card_description, full_description, video_image_url, video_link, to_jsonb(t)->>'price' AS price, created_at, updated_at
		FROM public.tuning t
		ORDER BY created_at DESC, id DESC";
    "SELECT id, to_jsonb(t)->>'brand' AS brand, to_jsonb(t)->>'model' AS model, title, card_image_url, full_image_url, title AS description, card_description, full_description, video_image_url, video_link, to_jsonb(t)->>'price' AS price, created_at, updated_at
		FROM public.tuning t
		ORDER BY created_at DESC, id DESC";
    "SELECT id, to_jsonb(t)->>'brand' AS brand, to_jsonb(t)->>'model' AS model, NULL::text AS title, card_image_url, NULL::jsonb AS full_image_url, description, card_description, full_description, video_image_url, video_link, to_jsonb(t)->>'price' AS price, created_at, updated_at
		FROM public.tuning t
		ORDER BY created_at DESC, id DESC";
    "SELECT id, to_jsonb(t)->>'brand' AS brand, to_jsonb(t)->>'model' AS model, title, card_image_url, NULL::jsonb AS full_image_url, title AS description, card_description, full_description, video_image_url, video_link, to_jsonb(t)->>'price' AS price, created_at, updated_at
		FROM public.tuning t
		ORDER BY created_at DESC, id DESC";
    "SELECT row_number() OVER () AS id, to_jsonb(t)->>'brand' AS brand, to_jsonb(t)->>'model' AS model, NULL::text AS title, card_image_url, NULL::jsonb AS full_image_url, description, card_description, full_description, video_image_url, video_link, to_jsonb(t)->>'price' AS price, NOW() AS created_at, NOW() AS updated_at
		FROM public.tuning t";
    "SELECT row_number() OVER () AS id, to_jsonb(t)->>'brand' AS brand, to_jsonb(t)->>'model' AS model, title, card_image_url, NULL::jsonb AS full_image_url, title AS description, card_description, full_description, video_image_url, video_link, to_jsonb(t)->>'price' AS price, NOW() AS created_at, NOW() AS updated_at
		FROM public.tuning t";
    "SELECT id, to_jsonb(t)->>'brand' AS brand, to_jsonb(t)->>'model' AS model, NULL::text AS title, card_image_url, full_image_url, description, card_description, full_description, video_image_url, video_link, to_jsonb(t)->>'price' AS price, created_at, updated_at
		FROM public.tunning t
		ORDER BY created_at DESC, id DESC";
    "SELECT id, to_jsonb(t)->>'brand' AS brand, to_jsonb(t)->>'model' AS model, title, card_image_url, full_image_url, title AS description, card_description, full_description, video_image_url, video_link, to_jsonb(t)->>'price' AS price, created_at, updated_at
		FROM public.tunning t
		ORDER BY created_at DESC, id DESC" ].

Definition tuningHandler_fetch (a : App Rows) : fetchOutcome :=
  afterCascade "failed to fetch tuning" (cascade a tuningQueries).
End Cascade.
Arguments cascadeState : clear implicits.
Arguments fetchOutcome : clear implicits.

(** ** The table registry (main.go, lines 1163-1297) *)

Record tableCRUDConfig := {
  Path : string;
  Table : string;
  OrderBy : string;
  MutableColumns : gset string;
  RequiredOnCreate : gset string;
  JSONColumns : gset string;
  TouchUpdatedAt : bool;
}.

Definition columnSet (values : list string) : gset string :=
  foldl (λ set value, {[value]} ∪ set) ∅ values.

(** The slice [configs] of [registerAdminCRUDRoutes]; an omitted field is the
    zero value (nil map, false). *)
Definition configs : list tableCRUDConfig :=
  [ {| Path := "/admin/banners"; Table := "public.banners";
       OrderBy := "t.priority ASC, t.id ASC";
       MutableColumns := columnSet ["section"; "title"; "image_url"; "priority"];
       RequiredOnCreate := columnSet ["section"; "title"; "image_url"];
       JSONColumns := ∅; TouchUpdatedAt := false |};
    {| Path := "/admin/contact"; Table := "public.contact";
       OrderBy := "t.id ASC";
       MutableColumns := columnSet ["phone_number"; "address"; "description"; "email"; "work_schedule"];
       RequiredOnCreate := columnSet [];
       JSONColumns := ∅; TouchUpdatedAt := false |};
    {| Path := "/admin/contact_page"; Table := "public.contact_page";
       OrderBy := "t.id ASC";
       MutableColumns := columnSet ["id"; "phone_number"; "address"; "description"; "image_url"];
       RequiredOnCreate := columnSet [];
       JSONColumns := ∅; TouchUpdatedAt := false |};
    {| Path := "/admin/about_page"; Table := "public.about_page";
       OrderBy := "t.id ASC";
       MutableColumns := columnSet ["id"; "banner_image_url"; "banner_title"; "history_description"; "video_url"; "mission_description"; "mission_image_url"];
       RequiredOnCreate := columnSet [];
       JSONColumns := ∅; TouchUpdatedAt := false |};
    {| Path := "/admin/about_metrics"; Table := "public.about_metrics";
       OrderBy := "t.position ASC, t.id ASC";
       MutableColumns := columnSet ["about_id"; "metric_key"; "metric_value"; "metric_label"; "position"];
       RequiredOnCreate := columnSet ["metric_key"; "metric_value"; "metric_label"];
       JSONColumns := ∅; TouchUpdatedAt := false |};
    {| Path := "/admin/about_sections"; Table := "public.about_sections";
       OrderBy := "t.position ASC, t.id ASC";
       MutableColumns := columnSet ["about_id"; "section_key"; "title"; "description"; "position"];
       RequiredOnCreate := columnSet ["section_key"; "title"; "description"];
       JSONColumns := ∅; TouchUpdatedAt := false |};
    {| Path := "/admin/partners"; Table := "public.partners";
       OrderBy := "t.position ASC, t.id ASC";
       MutableColumns := columnSet ["name"; "logo_url"; "position"];
       RequiredOnCreate := columnSet ["logo_url"];
       JSONColumns := ∅; TouchUpdatedAt := false |};
    {| Path := "/admin/tuning"; Table := "public.tuning";
       OrderBy := "t.created_at DESC, t.id DESC";
       MutableColumns := columnSet ["brand"; "model"; "card_image_url"; "full_image_url"; "price"; "description"; "card_description"; "full_description"; "video_image_url"; "video_link"];
       RequiredOnCreate := columnSet [];
       JSONColumns := columnSet ["full_image_url"]; TouchUpdatedAt := true |};
    {| Path := "/admin/service_offerings"; Table := "public.service_offerings";
       OrderBy := "t.position ASC, t.id ASC";
       MutableColumns := columnSet ["service_type"; "title"; "detailed_description"; "gallery_images"; "price_text"; "position"];
       RequiredOnCreate := columnSet ["service_type"; "title"];
       JSONColumns := columnSet ["gallery_images"]; TouchUpdatedAt := true |};
    {| Path := "/admin/privacy_sections"; Table := "public.privacy_sections";
       OrderBy := "t.position ASC, t.id ASC";
       MutableColumns := columnSet ["title"; "description"; "position"];
       RequiredOnCreate := columnSet ["title"; "description"];
       JSONColumns := ∅; TouchUpdatedAt := false |};
    {| Path := "/admin/portfolio_items"; Table := "public.portfolio_items";
       OrderBy := "t.created_at DESC, t.id DESC";
       MutableColumns := columnSet ["brand"; "title"; "image_url"; "description"; "youtube_link"];
       RequiredOnCreate := columnSet ["title"; "image_url"];
       JSONColumns := ∅; TouchUpdatedAt := false |};
    {| Path := "/admin/work_post"; Table := "public.work_post";
       OrderBy := "t.created_at DESC, t.id DESC";
       MutableColumns := columnSet ["title_model"; "card_image_url"; "full_image_url"; "card_description"; "work_list"; "gallery_images"; "full_description"; "video_image_url"; "video_link"];
       RequiredOnCreate := columnSet ["title_model"];
       JSONColumns := columnSet ["work_list"; "gallery_images"]; TouchUpdatedAt := true |};
    {| Path := "/admin/blog_posts"; Table := "public.blog_posts";
       OrderBy := "t.created_at DESC, t.id DESC";
       MutableColumns := columnSet ["title_model"; "card_image_url"; "full_image_url"; "card_description"; "work_list"; "gallery_images"; "full_description"; "video_image_url"; "video_link"];
       RequiredOnCreate := columnSet ["title_model"];
       JSONColumns := columnSet ["work_list"; "gallery_images"]; TouchUpdatedAt := true |};
    {| Path := "/admin/consultations"; Table := "public.consultations";
       OrderBy := "t.created_at DESC, t.id DESC";
       MutableColumns := columnSet ["first_name"; "last_name"; "phone"; "service_type"; "car_model"; "preferred_call_time"; "comments"; "status"];
       RequiredOnCreate := columnSet ["first_name"; "last_name"; "phone"; "service_type"];
       JSONColumns := ∅; TouchUpdatedAt := false |} ].

(** ** Payload validation (main.go, lines 1712-1739) *)

(** A walk of a map by [range]: its keys, each once, in some order. *)
Definition walkOf {V : Type} (m : gmap string V) (walk : list string) : Prop :=
  walk ≡ₚ (map_to_list m).*1.

Definition walkOfSet (s : gset string) (walk : list string) : Prop :=
  walk ≡ₚ elements s.

Definition isEmptyJSONValue (value : any) : bool :=
  match value with
  | ANil => true
  | AString text => bool_decide (TrimSpace text = "")
  | _ => false
  end.

(** [validateCRUDPayload]; [payloadWalk] and [requiredWalk] are the orders in
    which the two loops visit [payload] and [requiredColumns]. *)
Definition validateCRUDPayload (payloadWalk requiredWalk : list string)
    (payload : gmap string any) (allowedColumns : gset string)
    : gmap string string :=
  let validationErrors :=
    foldl (λ (errs : gmap string string) key,
             if bool_decide (key ∈ allowedColumns) then errs
             else <[key := "field is not editable"]> errs)
          ∅ payloadWalk in
  foldl (λ (errs : gmap string string) key,
           match payload !! key with
           | Some value =>
               if isEmptyJSONValue value then <[key := "field is required"]> errs
               else errs
           | None => <[key := "field is required"]> errs
           end)
        validationErrors requiredWalk.

(** ** Statement construction (main.go, lines 1741-1778) *)

(** [sortedMapKeys]: the keys in the order [range] gave them, then
    [sort.Strings] (increasing, bytewise). *)
Definition sortedMapKeys (walk : list string) : list string :=
  merge_sort String.le walk.

Section Coercion.
Context `{JSONCodec} `{Machine}.

(** [normalizeCRUDValue]: the bound value, or the message of the error. *)
Definition normalizeCRUDValue (column : string) (value : any) (cfg : tableCRUDConfig)
    : any + string :=
  if bool_decide (column ∈ JSONColumns cfg) then
    match json_Marshal value with
    | None => inr ("invalid JSON value for " +:+ column)
    | Some raw => inl (AString raw)
    end
  else
    match value with
    | AFloat64 number =>
        let n := int64_of_float64 int64_overflow number in
        if float64_eqb number (float64_of_int64 n) then inl (AInt64 n)
        else inl value
    | _ => inl value
    end.
End Coercion.

Definition quoteIdentifier (value : string) : string :=
  String dquote (ReplaceAllByte value dquote (String dquote (String dquote "")))
  +:+ String dquote "".

Definition quoteTableName (value : string) : string :=
  Join ((λ part, quoteIdentifier (TrimSpace part)) <$> SplitByte value dot) ".".

(** A statement and its arguments, as handed to [QueryRowContext]. *)
Record statement := { stmt_query : string; stmt_args : list any }.

(** The value of [payload[key]]: nil for a missing key. *)
Definition payloadAt (payload : gmap string any) (key : string) : any :=
  default ANil (payload !! key).

Section Statements.
Context `{JSONCodec} `{Machine}.

(** The loop of [adminCreateOne] over [keys], from index [idx]: columns,
    placeholders and arguments, or the message of the first coercion
    error. *)
Fixpoint createColumns (cfg : tableCRUDConfig) (payload : gmap string any)
    (keys : list string) (idx : nat)
    (columns placeholders : list string) (args : list any)
    : (list string * list string * list any) + string :=
  match keys with
  | [] => inl (columns, placeholders, args)
  | key :: rest =>
      let columns := columns ++ [quoteIdentifier key] in
      let placeholders := placeholders ++ ["$" +:+ pretty (idx + 1)%nat] in
      match normalizeCRUDValue key (payloadAt payload key) cfg with
      | inr msg => inr msg
      | inl value => createColumns cfg payload rest (S idx) columns placeholders (args ++ [value])
      end
  end.

(** Lines 1461-1495 of [adminCreateOne]. *)
Definition createStatement (cfg : tableCRUDConfig) (payload : gmap string any)
    (walk : list string) : statement + string :=
  let keys := sortedMapKeys walk in
  let quotedTable := quoteTableName (Table cfg) in
  if (length keys =? 0)%nat then
    inl {| stmt_query :=
             "WITH ins AS (INSERT INTO " +:+ quotedTable
             +:+ " DEFAULT VALUES RETURNING *) SELECT to_jsonb(ins) FROM ins";
           stmt_args := [] |}
  else
    match createColumns cfg payload keys 0 [] [] [] with
    | inr msg => inr msg
    | inl (columns, placeholders, args) =>
        inl {| stmt_query :=
                 "WITH ins AS (INSERT INTO " +:+ quotedTable +:+ " ("
                 +:+ Join columns ", " +:+ ") VALUES (" +:+ Join placeholders ", "
                 +:+ ") RETURNING *) SELECT to_jsonb(ins) FROM ins";
               stmt_args := args |}
    end.

(** The loop of [adminUpdateOne] over [keys]. *)
Fixpoint updateClauses (cfg : tableCRUDConfig) (payload : gmap string any)
    (keys : list string) (idx : nat)
    (setClauses : list string) (args : list any)
    : (list string * list any) + string :=
  match keys with
  | [] => inl (setClauses, args)
  | key :: rest =>
      match normalizeCRUDValue key (payloadAt payload key) cfg with
      | inr msg => inr msg
      | inl value =>
          updateClauses cfg payload rest (S idx)
            (setClauses ++ [quoteIdentifier key +:+ " = $" +:+ pretty (idx + 1)%nat])
            (args ++ [value])
      end
  end.

(** What lines 1541-1574 of [adminUpdateOne] come to. *)
Inductive updatePlan : Type :=
| UpdateEmptyPayload
| UpdateInvalidValue (msg : string)
| UpdateRun (setClauses : list string) (stmt : statement).

Definition updateStatement (cfg : tableCRUDConfig) (id : Z)
    (payload : gmap string any) (walk : list string) : updatePlan :=
  let keys := sortedMapKeys walk in
  if (length keys =? 0)%nat && negb (TouchUpdatedAt cfg) then UpdateEmptyPayload
  else
    match updateClauses cfg payload keys 0 [] [] with
    | inr msg => UpdateInvalidValue msg
    | inl (setClauses, args) =>
        let setClauses :=
          if TouchUpdatedAt cfg then setClauses ++ ["updated_at = NOW()"]
          else setClauses in
        UpdateRun setClauses
          {| stmt_query :=
               "WITH upd AS (UPDATE " +:+ quoteTableName (Table cfg) +:+ " SET "
               +:+ Join setClauses ", " +:+ " WHERE id = $"
               +:+ pretty (length args + 1)%nat
               +:+ " RETURNING *) SELECT to_jsonb(upd) FROM upd";
             stmt_args := args ++ [AInt64 id] |}
    end.
End Statements.

(** ** The create and update handlers (main.go, lines 1443-1607)

    The handlers are taken from the point where [decodeJSONMap] has returned
    the payload of the request. *)

(** The walks of the maps that one request ranges over: [payload] and
    [requiredColumns] in [validateCRUDPayload], [payload] again in
    [sortedMapKeys]. *)
Record walks := {
  validateWalk : list string;
  requiredWalk : list string;
  sortWalk : list string;
}.

Definition validationBody (validationErrors : gmap string string) : gmap string any :=
  {[ "status" := AString "error";
     "message" := AString "validation error";
     "errors" := AMap (AString <$> validationErrors) ]}.

Section Handlers.
Context `{JSONCodec} `{Machine} {Rows : Type}.

Definition adminCreateOne (a : App Rows) (cfg : tableCRUDConfig)
    (payload : gmap string any) (w : walks) : response :=
  let validationErrors :=
    validateCRUDPayload (validateWalk w) (requiredWalk w) payload (MutableColumns cfg) in
  if (0 <? size validationErrors)%nat then
    JSONResponse StatusUnprocessableEntity (validationBody validationErrors)
  else
    match createStatement cfg payload (sortWalk w) with
    | inr msg => JSONResponse StatusBadRequest (errorBody msg)
    | inl stmt =>
        match QueryRowScan a (stmt_query stmt) (stmt_args stmt) with
        | RowBytes raw =>
            match json_decode raw with
            | Some data => JSONResponse StatusCreated (successBody data)
            | None =>
                JSONResponse StatusInternalServerError
                  (errorBody "failed to parse created record")
            end
        | ErrNoRows | RowError _ =>
            JSONResponse StatusInternalServerError (errorBody "failed to create record")
        end
    end.

(** [adminUpdateOne] passes nil for [requiredColumns]: the second loop of
    the validation has nothing to visit. *)
Definition adminUpdateOne (a : App Rows) (cfg : tableCRUDConfig) (id : Z)
    (payload : gmap string any) (w : walks) : response :=
  let validationErrors :=
    validateCRUDPayload (validateWalk w) [] payload (MutableColumns cfg) in
  if (0 <? size validationErrors)%nat then
    JSONResponse StatusUnprocessableEntity (validationBody validationErrors)
  else
    match updateStatement cfg id payload (sortWalk w) with
    | UpdateEmptyPayload => JSONResponse StatusBadRequest (errorBody "empty payload")
    | UpdateInvalidValue msg => JSONResponse StatusBadRequest (errorBody msg)
    | UpdateRun _ stmt =>
        match QueryRowScan a (stmt_query stmt) (stmt_args stmt) with
        | RowBytes raw =>
            match json_decode raw with
            | Some data => JSONResponse StatusOK (successBody data)
            | None =>
                JSONResponse StatusInternalServerError
                  (errorBody "failed to parse updated record")
            end
        | ErrNoRows => JSONResponse StatusNotFound (errorBody "record not found")
        | RowError _ =>
            JSONResponse StatusInternalServerError (errorBody "failed to update record")
        end
    end.
End Handlers.

(** ** Resource identifiers (main.go, lines 1299-1344 and 1651-1682) *)

Inductive numError := ErrSyntax | ErrRange.

(** The digit loop of [strconv.ParseUint(s, 10, 64)]. *)
Fixpoint parseDigits (s : string) (n : Z) : Z + numError :=
  match s with
  | EmptyString => inl n
  | String c r =>
      match digitval c with
      | None => inr ErrSyntax
      | Some d =>
          if 2 ^ 64 - 1 <? 10 * n + d then inr ErrRange
          else parseDigits r (10 * n + d)
      end
  end.

Definition ParseUint (s : string) : Z + numError :=
  match s with
  | EmptyString => inr ErrSyntax
  | _ => parseDigits s 0
  end.

(** [strconv.ParseInt(s, 10, 64)]. *)
Definition ParseInt (s : string) : Z + numError :=
  match s with
  | EmptyString => inr ErrSyntax
  | String c r =>
      let '(neg, digits) :=
        if codeb c 43 then (false, r)
        else if codeb c 45 then (true, r)
        else (false, s) in
      match ParseUint digits with
      | inr e => inr e
      | inl un =>
          if negb neg && (2 ^ 63 <=? un) then inr ErrRange
          else if neg && (2 ^ 63 <? un) then inr ErrRange
          else inl (if neg then - un else un)
      end
  end.

(** What the handler reads of the request: the method, [r.URL.Path], and
    the pairs of [r.URL.Query()] in the order of the query string. *)
Record request := {
  Method : string;
  URL_Path : string;
  URL_Query : list (string * string);
}.

(** [url.Values.Get]: the first value of [key], or the empty string. *)
Fixpoint QueryGet (query : list (string * string)) (key : string) : string :=
  match query with
  | [] => ""
  | (k, v) :: rest => if bool_decide (k = key) then v else QueryGet rest key
  end.

Inductive idError :=
| ErrParseInt (e : numError)
| ErrInvalidIDPath.

(** [parseResourceID]: [inl (Some id)] is [(id, true, nil)], [inl None] is
    [(0, false, nil)], [inr err] is [(0, false, err)]. *)
Definition parseResourceID (r : request) (basePath : string) : option Z + idError :=
  let idParam := TrimSpace (QueryGet (URL_Query r) "id") in
  if negb (bool_decide (idParam = "")) then
    match ParseInt idParam with
    | inr e => inr (ErrParseInt e)
    | inl id => inl (Some id)
    end
  else
    let base := TrimSuffix basePath "/" in
    let path := TrimSuffix (TrimSpace (URL_Path r)) "/" in
    if bool_decide (path = base) then inl None
    else if negb (HasPrefix path (base +:+ "/")) then inl None
    else
      let idPart := TrimPrefix path (base +:+ "/") in
      if bool_decide (idPart = "") then inl None
      else if ContainsByte idPart slash then inr ErrInvalidIDPath
      else
        match ParseInt idPart with
        | inr e => inr (ErrParseInt e)
        | inl id => inl (Some id)
        end.

(** The five operations a table handler dispatches to. *)
Record tableOperations := {
  adminFetchMany : response;
  adminFetchOne : Z → response;
  adminCreate : response;
  adminUpdate : Z → response;
  adminDelete : Z → response;
}.

Definition makeAdminTableCRUDHandler (ops : tableOperations) (cfg : tableCRUDConfig)
    (r : request) : response :=
  match parseResourceID r (Path cfg) with
  | inr _ => JSONResponse StatusBadRequest (errorBody "invalid id")
  | inl id =>
      let idRequired := JSONResponse StatusBadRequest (errorBody "id is required") in
      if bool_decide (Method r = "GET") then
        match id with Some id => adminFetchOne ops id | None => adminFetchMany ops end
      else if bool_decide (Method r = "POST") then adminCreate ops
      else if bool_decide (Method r = "PUT") || bool_decide (Method r = "PATCH") then
        match id with Some id => adminUpdate ops id | None => idRequired end
      else if bool_decide (Method r = "DELETE") then
        match id with Some id => adminDelete ops id | None => idRequired end
      else JSONResponse 405 (errorBody "method not allowed")
  end.

(** ** Vocabulary of the specification *)

(** A string is blank when nothing is left of it after trimming. *)
Definition notBlank (s : string) : Prop := TrimSpace s ≠ "".

(** Deduplication that preserves order, first occurrence wins. *)
Fixpoint firstOccurrences (l : list string) : list string :=
  match l with
  | [] => []
  | x :: rest => x :: filter (λ y, y ≠ x) (firstOccurrences rest)
  end.

(** The non-blank entries of a list, trimmed, in order. *)
Definition trimmedNonBlank (l : list string) : list string :=
  filter (λ s, s ≠ "") (TrimSpace <$> l).

(** The head of the byte sequence is a white-space rune. *)
Definition startsSpace (s : list ascii) : bool :=
  match s with
  | a :: r1 =>
      asciiSpace a ||
      match r1 with
      | b :: r2 =>
          space2 a b || match r2 with c :: _ => space3 a b c | [] => false end
      | [] => false
      end
  | [] => false
  end.

(** The reversed byte sequence ends (that is, starts, read backwards) with a
    white-space rune. *)
Definition startsSpaceRev (s : list ascii) : bool :=
  match s with
  | a :: r1 =>
      asciiSpace a ||
      match r1 with
      | b :: r2 =>
          space2 b a || match r2 with c :: _ => space3 c b a | [] => false end
      | [] => false
      end
  | [] => false
  end.

(** The value of a float that has no fractional part. *)
Definition float64_integral (x : spec_float) : option Z :=
  match x with
  | S754_zero _ => Some 0
  | S754_finite s m e =>
      if 0 <=? e then Some ((if s then -1 else 1) * (Z.pos m * 2 ^ e))
      else if Z.pos m mod 2 ^ (- e) =? 0
           then Some ((if s then -1 else 1) * (Z.pos m / 2 ^ (- e)))
           else None
  | _ => None
  end.

(** A decimal integer: an optional sign and at least one digit. *)
Definition allDigits (s : string) : bool :=
  forallb (λ c, bool_decide (is_Some (digitval c))) (list_ascii_of_string s).

Definition isDecimalInteger (s : string) : bool :=
  match s with
  | EmptyString => false
  | String c r =>
      if codeb c 43 || codeb c 45
      then negb (bool_decide (r = "")) && allDigits r
      else allDigits s
  end.

(** The empty value of the specification: missing, null, or a blank string. *)
Definition missingOrEmpty (payload : gmap string any) (key : string) : Prop :=
  payload !! key = None
  ∨ payload !! key = Some ANil
  ∨ ∃ text, payload !! key = Some (AString text) ∧ TrimSpace text = "".

(** The object [v] holds a non-blank string under [key]. *)
Definition nonBlankStringAt (v : gmap string any) (key : string) (text : string) : Prop :=
  v !! key = Some (AString text) ∧ notBlank text.

(** ** Sample inputs *)

Definition amd64 : Machine :=
  {| int64_overflow := overflow_amd64; int64_overflow_range := λ _, eq_refl |}.

Definition overflow_arm64_range (x : spec_float) : inInt64 (overflow_arm64 x) = true :=
  match x as x0 return inInt64 (overflow_arm64 x0) = true with
  | S754_nan => eq_refl
  | S754_zero s | S754_infinity s | S754_finite s _ _ =>
      match s with true => eq_refl | false => eq_refl end
  end.

Definition arm64 : Machine :=
  {| int64_overflow := overflow_arm64; int64_overflow_range := overflow_arm64_range |}.

(** The reference decoder, with an encoder that only names its argument's
    kind: the statements below hold for every encoder. *)
Definition kindText (v : any) : string :=
  match v with
  | ANil => "null"
  | ABool true => "true"
  | ABool false => "false"
  | AFloat64 _ | AInt64 _ => "<number>"
  | AString _ => "<string>"
  | ASlice _ => "<array>"
  | AMap _ => "<object>"
  end.

Definition sampleCodec : JSONCodec := reference_codec kindText.

(** A database where the first banners query fails and the second answers
    with the rows [7]; every other query fails. *)
Definition sampleApp : App (list Z) :=
  {| QueryContext := λ query,
       if bool_decide (Some query = bannersQueries !! 1%nat) then inl [7]
       else inr ("relation does not exist: " +:+ query);
     QueryRowScan := λ query args,
       match args with
       | [AInt64 1] => RowBytes (jsonText "{'id':1,'brand':'x'}")
       | _ => ErrNoRows
       end |}.

Definition cfgBanners : tableCRUDConfig :=
  {| Path := "/admin/banners"; Table := "public.banners";
     OrderBy := "t.priority ASC, t.id ASC";
     MutableColumns := columnSet ["section"; "title"; "image_url"; "priority"];
     RequiredOnCreate := columnSet ["section"; "title"; "image_url"];
     JSONColumns := ∅; TouchUpdatedAt := false |}.

Definition cfgTuning : tableCRUDConfig :=
  {| Path := "/admin/tuning"; Table := "public.tuning";
     OrderBy := "t.created_at DESC, t.id DESC";
     MutableColumns := columnSet ["brand"; "model"; "card_image_url"; "full_image_url"; "price"; "description"; "card_description"; "full_description"; "video_image_url"; "video_link"];
     RequiredOnCreate := columnSet [];
     JSONColumns := columnSet ["full_image_url"]; TouchUpdatedAt := true |}.

(** The float64 values 1, 1.5 and 1e19 (the last is 5^19 * 2^19 = 4882812500000000 * 2^11). *)
Definition f64_one : spec_float := S754_finite false 4503599627370496 (-52).
Definition f64_three_halves : spec_float := S754_finite false 6755399441055744 (-52).
Definition f64_1e19 : spec_float := S754_finite false 4882812500000000 11.
Definition nullStr : NullString := {| NS_String := ""; NS_Valid := false |}.
Definition validStr (s : string) : NullString := {| NS_String := s; NS_Valid := true |}.

(** A row whose gallery column names the same image twice. *)
Definition rowGallery : workPostRow :=
  {| row_id := 1; titleModel := "BMW M3";
     cardImageURL := validStr "card.jpg"; fullImageURL := nullStr;
     cardDescription := nullStr;
     workList := jsonText "[{'step':'Diagnostics'},{'title':'Calibration'}]";
     fullDescription := nullStr; videoImageURL := nullStr; videoLink := nullStr;
     galleryImagesRaw := jsonText "[' a.jpg','a.jpg']" |}.

(** A row without a gallery column value: the gallery falls back to the
    image columns. *)
Definition rowFallback : workPostRow :=
  {| row_id := 2; titleModel := "Audi RS6";
     cardImageURL := validStr " x.jpg"; fullImageURL := validStr "x.jpg";
     cardDescription := nullStr;
     workList := "";
     fullDescription := nullStr; videoImageURL := validStr "  "; videoLink := nullStr;
     galleryImagesRaw := "" |}.

(** A database on which Q2 and Q3 succeed and every other query fails with
    an error that names the query. *)
Definition cascadeApp : App (list Z) :=
  {| QueryContext := λ query,
       if bool_decide (query = "Q2") then inl [2]
       else if bool_decide (query = "Q3") then inl [3]
       else inr ("no such column in " +:+ query);
     QueryRowScan := λ _ _, ErrNoRows |}.

(** The database answers [query] with an error. *)
Definition queryFails {Rows} (a : App Rows) (query : string) : Prop :=
  ∃ err, QueryContext a query = inr err.

Definition cfgPortfolio : tableCRUDConfig :=
  {| Path := "/admin/portfolio_items"; Table := "public.portfolio_items";
     OrderBy := "t.created_at DESC, t.id DESC";
     MutableColumns := columnSet ["brand"; "title"; "image_url"; "description"; "youtube_link"];
     RequiredOnCreate := columnSet ["title"; "image_url"];
     JSONColumns := ∅; TouchUpdatedAt := false |}.

(** The test the second loop of [validateCRUDPayload] makes on a required
    key. *)
Definition emptyAt (payload : gmap string any) (key : string) : bool :=
  match payload !! key with
  | Some value => isEmptyJSONValue value
  | None => true
  end.

(** The walks of one request are walks of the maps the request ranges
    over. *)
Definition walksOf (required : gset string) (payload : gmap string any) (w : walks) : Prop :=
  walkOf payload (validateWalk w)
  ∧ walkOfSet required (requiredWalk w)
  ∧ walkOf payload (sortWalk w).

(** The placeholder of the argument at index [idx]. *)
Definition placeholder (idx : nat) : string := "$" +:+ pretty (idx + 1)%nat.

(** The bound value of [key]: what [normalizeCRUDValue] returns for it. *)
Definition boundAs `{JSONCodec} `{Machine} (cfg : tableCRUDConfig)
    (payload : gmap string any) (key : string) (value : any) : Prop :=
  normalizeCRUDValue key (payloadAt payload key) cfg = inl value.

Definition samplePayload : gmap string any :=
  {[ "title" := AString "x"; "brand" := AString "y" ]}.

(** The walks of a request with an empty payload, for a descriptor without
    required columns. *)
Definition noWalks : walks := {| validateWalk := []; requiredWalk := []; sortWalk := [] |}.

(** The result of [parseResourceID] when the identifier is the text [s]. *)
Definition identifierFrom (s : string) : option Z + idError :=
  match ParseInt s with
  | inl id => inl (Some id)
  | inr e => inr (ErrParseInt e)
  end.

(** A handler whose operations answer with fixed status codes. *)
Definition sampleOps : tableOperations :=
  {| adminFetchMany := JSONResponse StatusOK ∅;
     adminFetchOne := λ _, JSONResponse StatusOK ∅;
     adminCreate := JSONResponse StatusCreated ∅;
     adminUpdate := λ _, JSONResponse StatusOK ∅;
     adminDelete := λ _, JSONResponse StatusOK ∅ |}.

Definition getRequest (path : string) (query : list (string * string)) : request :=
  {| Method := "GET"; URL_Path := path; URL_Query := query |}.

(** The float64 value 2^63. *)
Definition f64_two63 : spec_float := S754_finite false 4503599627370496 11.

(** A row with an image only in [full_image_url]. *)
Definition rowFullImage : workPostRow :=
  {| row_id := 3; titleModel := "Porsche 911";
     cardImageURL := validStr ""; fullImageURL := validStr "https://x/full.jpg";
     cardDescription := nullStr;
     workList := "";
     fullDescription := nullStr; videoImageURL := validStr ""; videoLink := nullStr;
     galleryImagesRaw := "" |}.

(** ** Reading quoted identifiers back

    A quoted identifier of SQL: an opening double quote, the characters of
    the name with every double quote written twice, a closing double quote. *)

(** The text after the opening quote: the name and what follows the closing
    quote. *)
Fixpoint unquoteBody (s : string) : option (string * string) :=
  match s with
  | EmptyString => None
  | String c r =>
      if Ascii.eqb c dquote then
        match r with
        | String c' r' =>
            if Ascii.eqb c' dquote then
              match unquoteBody r' with
              | Some (name, rest) => Some (String dquote name, rest)
              | None => None
              end
            else Some (EmptyString, r)
        | EmptyString => Some (EmptyString, EmptyString)
        end
      else
        match unquoteBody r with
        | Some (name, rest) => Some (String c name, rest)
        | None => None
        end
  end.

Definition unquoteIdentifier (s : string) : option (string * string) :=
  match s with
  | String c r => if Ascii.eqb c dquote then unquoteBody r else None
  | EmptyString => None
  end.

(** A qualified name: quoted identifiers separated by dots, and nothing
    else. *)
Fixpoint unquoteQualified (fuel : nat) (s : string) : option (list string) :=
  match fuel with
  | O => None
  | S fuel =>
      match unquoteIdentifier s with
      | Some (name, EmptyString) => Some [name]
      | Some (name, String c rest) =>
          if Ascii.eqb c dot then
            match unquoteQualified fuel rest with
            | Some names => Some (name :: names)
            | None => None
            end
          else None
      | None => None
      end
  end.

Definition samplePayload' : gmap string any :=
  {[ "title" := AString "'); DROP TABLE x; --"; "brand" := ANil ]}.



(** ** Storage paths (main.go, lines 2292-2349) *)

Definition backslash : ascii := byte_of 92.

(** [strings.Trim(s, cutset)] for a one-byte [cutset]:
    [trimLeftByte(trimRightByte(s, c), c)]. *)
Fixpoint trimLeftByte (s : string) (c : ascii) : string :=
  match s with
  | String a s' => if Ascii.eqb a c then trimLeftByte s' c else s
  | EmptyString => s
  end.

Definition trimRightByte (s : string) (c : ascii) : string :=
  String.rev (trimLeftByte (String.rev s) c).

Definition TrimByte (s : string) (c : ascii) : string :=
  trimLeftByte (trimRightByte s c) c.

(** [strings.Contains]. *)
Fixpoint Contains (s substr : string) : bool :=
  HasPrefix s substr
  || match s with
     | String _ s' => Contains s' substr
     | EmptyString => false
     end.

Definition cleanStorageBucket (value : string) : string + string :=
  let bucket := TrimSpace value in
  if bool_decide (bucket = "") then inr "bucket is required"
  else if ContainsByte bucket slash || ContainsByte bucket backslash
          || Contains bucket ".."
  then inr "invalid bucket"
  else inl bucket.

(** The loop of [cleanStoragePath] over [parts]. *)
Fixpoint cleanStorageParts (parts result : list string) : list string + string :=
  match parts with
  | [] => inl result
  | part :: rest =>
      let clean := TrimSpace part in
      if bool_decide (clean = "") then cleanStorageParts rest result
      else if bool_decide (clean = ".") || bool_decide (clean = "..")
      then inr "invalid path"
      else cleanStorageParts rest (result ++ [clean])
  end.

Definition cleanStoragePath (value : string) : string + string :=
  let candidate := TrimSpace (ReplaceAllByte value backslash "/") in
  let candidate := TrimByte candidate slash in
  if bool_decide (candidate = "") then inr "path is required"
  else
    let parts := SplitByte candidate slash in
    match cleanStorageParts parts [] with
    | inr err => inr err
    | inl result =>
        if (length result =? 0)%nat then inr "path is required"
        else inl (Join result "/")
    end.

Definition cleanOptionalStoragePath (value : string) : string + string :=
  let trimmed := TrimSpace value in
  if bool_decide (trimmed = "") then inl ""
  else cleanStoragePath trimmed.

Definition sanitizeFilename (value : string) : string :=
  let name := TrimSpace (ReplaceAllByte value backslash "/") in
  if bool_decide (name = "") then ""
  else
    let parts := SplitByte name slash in
    let base := TrimSpace (List.last parts "") in
    let base := TrimByte base dot in
    if bool_decide (base = "") || bool_decide (base = ".") || bool_decide (base = "..")
    then ""
    else base.


(** A path segment that names an object or a folder: not empty, not a dot
    segment, free of separators. *)
Definition safeSegment (segment : string) : Prop :=
  segment ≠ "" ∧ segment ≠ "." ∧ segment ≠ ".."
  ∧ ContainsByte segment slash = false ∧ ContainsByte segment backslash = false.

(** The bytes of a string, as a list. *)
Abbreviation bytes := list_ascii_of_string (only parsing).

Definition firstByte (s : string) : option ascii := head (bytes s).
Definition lastByte (s : string) : option ascii := head (rev (bytes s)).

(** ** Object addresses (main.go, lines 2351-2375) *)

(** [shouldEscape(c, encodePathSegment)] of package [net/url]: letters,
    digits and [-_.~] are kept; of the reserved [$&+,/:;=?@] the four
    [/ ; , ?] are escaped; every other byte is escaped. *)
Definition shouldEscape (c : ascii) : bool :=
  let n := N_of_ascii c in
  if (((97 <=? n) && (n <=? 122)) || ((65 <=? n) && (n <=? 90))
      || ((48 <=? n) && (n <=? 57)))%N
  then false
  else if ((n =? 45) || (n =? 95) || (n =? 46) || (n =? 126))%N then false
  else if ((n =? 36) || (n =? 38) || (n =? 43) || (n =? 44) || (n =? 47)
           || (n =? 58) || (n =? 59) || (n =? 61) || (n =? 63) || (n =? 64))%N
  then ((n =? 47) || (n =? 59) || (n =? 44) || (n =? 63))%N
  else true.

(** [upperhex[i]]. *)
Definition upperhex (i : N) : ascii :=
  match String.get (N.to_nat i) "0123456789ABCDEF" with
  | Some c => c
  | None => "0"%char
  end.

(** [url.PathEscape]: a byte to escape becomes [%] and the two hexadecimal
    digits [upperhex[c>>4]], [upperhex[c&15]]. *)
Fixpoint PathEscape (s : string) : string :=
  match s with
  | EmptyString => ""
  | String c s' =>
      if shouldEscape c then
        String "%" (String (upperhex (N.shiftr (N_of_ascii c) 4))
                      (String (upperhex (N.land (N_of_ascii c) 15)) (PathEscape s')))
      else String c (PathEscape s')
  end.

Definition encodeStoragePath (path : string) : string :=
  Join (PathEscape <$> SplitByte path slash) "/".

(** [strings.TrimRight(baseURL, "/")] is [trimRightByte]. *)
Definition buildSupabaseObjectURL (baseURL bucket objectPath : string) : string :=
  trimRightByte baseURL slash +:+ "/storage/v1/object/" +:+ PathEscape bucket
  +:+ "/" +:+ encodeStoragePath objectPath.

Definition buildSupabasePublicURL (baseURL bucket objectPath : string) : string :=
  trimRightByte baseURL slash +:+ "/storage/v1/object/public/" +:+ PathEscape bucket
  +:+ "/" +:+ encodeStoragePath objectPath.

(** The bytes of an encoded object path: unreserved characters, the
    reserved ones a segment may hold, the percent sign and the separator. *)
Definition pathBytes : string :=
  "ABCDEFGHIJKLMNOPQRSTUVWXYZabcdefghijklmnopqrstuvwxyz0123456789-_.~$&+:=@%/".

(** ** The administrator token (main.go, lines 2245-2268) *)

(** The lower-case form of an ASCII letter. *)
Definition lowerByte (c : ascii) : ascii :=
  let n := N_of_ascii c in
  if ((65 <=? n) && (n <=? 90))%N then ascii_of_N (n + 32) else c.

(** [strings.EqualFold(s, t)] for [t] = [Bearer ]: none of the letters of
    [t] folds to a rune outside ASCII, so that the comparison is the one of
    the bytes, ASCII letters taken without case. *)
Fixpoint EqualFold (s t : string) : bool :=
  match s, t with
  | EmptyString, EmptyString => true
  | String a s', String b t' => Ascii.eqb (lowerByte a) (lowerByte b) && EqualFold s' t'
  | _, _ => false
  end.

(** The headers [requireAdminToken] reads with [r.Header.Get]: an absent
    header is the empty string. *)
Record adminHeaders := {
  X_Admin_Token : string;
  Authorization : string;
}.

Definition StatusUnauthorized : Z := 401.

(** [requireAdminToken]: [None] when it returns true; when it returns false,
    the response it has written.  [adminToken] is
    [os.Getenv("ADMIN_TOKEN")]. *)
Definition requireAdminToken (adminToken : string) (h : adminHeaders) : option response :=
  let expected := TrimSpace adminToken in
  if bool_decide (expected = "") then None
  else
    let provided := TrimSpace (X_Admin_Token h) in
    let provided :=
      if bool_decide (provided = "") then
        let auth := TrimSpace (Authorization h) in
        if (7 <=? String.length auth)%nat && EqualFold (substring 0 7 auth) "Bearer "
        then TrimSpace (substring 7 (String.length auth - 7) auth)
        else provided
      else provided in
    if negb (bool_decide (provided = expected)) then
      Some (JSONResponse StatusUnauthorized (errorBody "unauthorized"))
    else None.

(** ** Reading and deleting records (main.go, lines 1346-1441 and 1609-1649) *)

Module Admin.
Section Operations.
Context `{JSONCodec} {Rows : Type}.

(** [queryAdminList]: the row scanned into [out], or the error. *)
Definition queryAdminList (a : App Rows) (tableName orderBy : string) : rowResult :=
  QueryRowScan a
    ("SELECT COALESCE(json_agg(to_jsonb(t) ORDER BY " +:+ orderBy
     +:+ "), '[]'::json) FROM " +:+ quoteTableName tableName +:+ " t") [].

(** The end of [adminFetchMany], once [raw] is read. *)
Definition listResponse (raw : string) : response :=
  if (String.length raw =? 0)%nat then JSONResponse StatusOK (successBody (ASlice []))
  else
    match json_decode raw with
    | Some data => JSONResponse StatusOK (successBody data)
    | None => JSONResponse StatusInternalServerError (errorBody "failed to parse data")
    end.

Definition adminFetchMany (a : App Rows) (cfg : tableCRUDConfig) : response :=
  let orderBy := TrimSpace (OrderBy cfg) in
  let orderBy := if bool_decide (orderBy = "") then "t.id ASC" else orderBy in
  let failed :=
    JSONResponse StatusInternalServerError (errorBody "failed to fetch data") in
  match queryAdminList a (Table cfg) orderBy with
  | RowBytes raw => listResponse raw
  | ErrNoRows | RowError _ =>
      if negb (bool_decide (orderBy = "t.id ASC")) then
        match queryAdminList a (Table cfg) "t.id ASC" with
        | RowBytes raw => listResponse raw
        | ErrNoRows | RowError _ => failed
        end
      else failed
  end.

Definition adminFetchOne (a : App Rows) (cfg : tableCRUDConfig) (id : Z) : response :=
  let query :=
    "SELECT to_jsonb(t) FROM " +:+ quoteTableName (Table cfg) +:+ " t WHERE t.id = $1" in
  match QueryRowScan a query [AInt64 id] with
  | ErrNoRows => JSONResponse StatusNotFound (errorBody "record not found")
  | RowError _ => JSONResponse StatusInternalServerError (errorBody "failed to fetch data")
  | RowBytes raw =>
      match json_decode raw with
      | Some data => JSONResponse StatusOK (successBody data)
      | None => JSONResponse StatusInternalServerError (errorBody "failed to parse data")
      end
  end.

Definition adminDeleteOne (a : App Rows) (cfg : tableCRUDConfig) (id : Z) : response :=
  let query :=
    "WITH del AS (DELETE FROM " +:+ quoteTableName (Table cfg)
    +:+ " WHERE id = $1 RETURNING *) SELECT to_jsonb(del) FROM del" in
  match QueryRowScan a query [AInt64 id] with
  | ErrNoRows => JSONResponse StatusNotFound (errorBody "record not found")
  | RowError _ => JSONResponse StatusInternalServerError (errorBody "failed to delete record")
  | RowBytes raw =>
      match json_decode raw with
      | Some data => JSONResponse StatusOK (successBody data)
      | None =>
          JSONResponse StatusInternalServerError (errorBody "failed to parse deleted record")
      end
  end.

End Operations.
End Admin.

(** The order [adminFetchMany] asks for first. *)
Definition configuredOrder (cfg : tableCRUDConfig) : string :=
  if bool_decide (TrimSpace (OrderBy cfg) = "") then "t.id ASC"
  else TrimSpace (OrderBy cfg).

Definition isRow (r : rowResult) : bool :=
  match r with RowBytes _ => true | _ => false end.

(** A database without the column [priority]: the list ordered by it fails,
    the list ordered by [id] is empty. *)
Definition listApp : App (list Z) :=
  {| QueryContext := λ query, inr "unused";
     QueryRowScan := λ query args,
       if bool_decide
            (query = "SELECT COALESCE(json_agg(to_jsonb(t) ORDER BY t.id ASC), '[]'::json) FROM "
                     +:+ quoteTableName "public.banners" +:+ " t")
       then RowBytes "[]"
       else RowError "column t.priority does not exist" |}.

(** The operations of [makeAdminTableCRUDHandler] on the database [a], for
    a request whose body decodes to [payload]. *)
Definition tableOps `{JSONCodec} `{Machine} {Rows : Type} (a : App Rows)
    (cfg : tableCRUDConfig) (payload : gmap string any) (w : walks) : tableOperations :=
  {| adminFetchMany := Admin.adminFetchMany a cfg;
     adminFetchOne := Admin.adminFetchOne a cfg;
     adminCreate := adminCreateOne a cfg payload w;
     adminUpdate := λ id, adminUpdateOne a cfg id payload w;
     adminDelete := Admin.adminDeleteOne a cfg |}.

(** How the statements of a method begin. *)
Definition methodStatement (method : string) : string :=
  if bool_decide (method = "GET") then "SELECT "
  else if bool_decide (method = "POST") then "WITH ins AS (INSERT INTO "
  else if bool_decide (method = "PUT") || bool_decide (method = "PATCH")
  then "WITH upd AS (UPDATE "
  else "WITH del AS (DELETE FROM ".

(** Two databases answer alike every statement that begins with [start]. *)
Definition agreeOn {Rows : Type} (start : string) (a a' : App Rows) : Prop :=
  ∀ query args, HasPrefix query start = true →
                QueryRowScan a query args = QueryRowScan a' query args.

(** A database that answers reads and fails every other statement. *)
Definition readOnlyApp : App (list Z) :=
  {| QueryContext := λ query, inr "unused";
     QueryRowScan := λ query args,
       if HasPrefix query "SELECT " then QueryRowScan sampleApp query args
       else RowError "read-only transaction" |}.

(** ** Listing stored objects (main.go, lines 1943-1989, 2096-2107 and 2377-2387) *)

Definition defaultStorageLimit : Z := 50.
Definition maxStorageLimit : Z := 500.

(** [strings.ToLower], which maps runes by the tables of package
    [unicode]. *)
Class Unicode := { ToLower : string → string }.

(** [parseIntOrDefault]; [strconv.Atoi] is [ParseInt(s, 10, 0)], and [int]
    has 64 bits on the machines of [Machine]. *)
Definition parseIntOrDefault (raw : string) (fallback : Z) : Z + numError :=
  let value := TrimSpace raw in
  if bool_decide (value = "") then inl fallback
  else
    match ParseInt value with
    | inr err => inr err
    | inl number => inl number
    end.

Record storageListOptions := {
  Prefix : string;
  Limit : Z;
  Offset : Z;
  SortColumn : string;
  SortOrder : string;
  Search : string;
}.

(** Lines 1943-1989 of [adminStorageListHandler]: the options read from the
    query, or the message of the 400 response. *)
Definition listOptions `{Unicode} (query : list (string * string))
    : storageListOptions + string :=
  match cleanOptionalStoragePath (QueryGet query "prefix") with
  | inr err => inr err
  | inl prefix =>
      match parseIntOrDefault (QueryGet query "limit") defaultStorageLimit with
      | inr _ => inr "limit must be an integer"
      | inl limit =>
          let limit := if limit <? 1 then 1 else limit in
          let limit := if maxStorageLimit <? limit then maxStorageLimit else limit in
          match parseIntOrDefault (QueryGet query "offset") 0 with
          | inr _ => inr "offset must be a non-negative integer"
          | inl offset =>
              if offset <? 0 then inr "offset must be a non-negative integer"
              else
                let sortColumn :=
                  firstNonEmpty [TrimSpace (QueryGet query "sort_column"); "name"] in
                let sortOrder := ToLower (TrimSpace (QueryGet query "sort_order")) in
                let sortOrder :=
                  if negb (bool_decide (sortOrder = "desc")) then "asc" else sortOrder in
                inl {| Prefix := prefix; Limit := limit; Offset := offset;
                       SortColumn := sortColumn; SortOrder := sortOrder;
                       Search := TrimSpace (QueryGet query "search") |}
          end
      end
  end.

(** The loop of [supabaseListBuckets] over the decoded [payload], and
    [sort.Strings]. *)
Definition bucketNames (payload : list (gmap string any)) : list string :=
  let buckets :=
    foldl (λ (buckets : list string) (bucket : gmap string any),
             let name := match bucket !! "name" with
                         | Some (AString name) => name
                         | _ => ""
                         end in
             let name := TrimSpace name in
             if bool_decide (name = "") then buckets else buckets ++ [name])
          [] payload in
  merge_sort String.le buckets.

(** ASCII letters to lower case, other bytes kept: [strings.ToLower] on
    ASCII text. *)
Definition asciiLower : Unicode :=
  {| ToLower := λ s, string_of_list_ascii (lowerByte <$> list_ascii_of_string s) |}.

(** ** Consultation requests (main.go, lines 33, 2559-2565 and 2599-2645) *)

(** [len([]rune(s))]: one rune for each well-formed encoding and one for
    each byte that starts none; [skip] counts the bytes left of the rune
    at hand. *)
Fixpoint runeCountGo (skip : nat) (s : string) : nat :=
  match s with
  | EmptyString => 0
  | String _ r =>
      match skip with
      | S k => runeCountGo k r
      | O =>
          match utf8_width s with
          | Some width => S (runeCountGo (width - 1) r)
          | None => S (runeCountGo 0 r)
          end
      end
  end.

Definition runeCount (s : string) : nat := runeCountGo 0 s.

(** [phonePattern.MatchString]: an optional plus sign, then 7 to 15 decimal
    digits, to the end of the text. *)
Definition phonePattern_MatchString (s : string) : bool :=
  let digits :=
    match s with
    | String c r => if codeb c 43 then r else s
    | EmptyString => s
    end in
  allDigits digits && (7 <=? String.length digits)%nat
  && (String.length digits <=? 15)%nat.

Definition validateConsultationRequest
    (firstName lastName phone serviceType carModel preferredCallTime comments : string)
    : gmap string string :=
  let errs : gmap string string := ∅ in
  let firstName := TrimSpace firstName in
  let lastName := TrimSpace lastName in
  let phone := TrimSpace phone in
  let serviceType := TrimSpace serviceType in
  let carModel := TrimSpace carModel in
  let preferredCallTime := TrimSpace preferredCallTime in
  let comments := TrimSpace comments in
  let errs :=
    if bool_decide (firstName = "") then
      <["first_name" := "???????? ??????????????????????"]> errs
    else if (100 <? runeCount firstName)%nat then
      <["first_name" := "???????????????? 100 ????????????????"]> errs
    else errs in
  let errs :=
    if bool_decide (lastName = "") then
      <["last_name" := "???????? ??????????????????????"]> errs
    else if (100 <? runeCount lastName)%nat then
      <["last_name" := "???????????????? 100 ????????????????"]> errs
    else errs in
  let errs :=
    if bool_decide (phone = "") then
      <["phone" := "???????? ??????????????????????"]> errs
    else if negb (phonePattern_MatchString phone) then
      <["phone" := "???????????????????????? ???????????? ????????????"]> errs
    else errs in
  let errs :=
    if bool_decide (serviceType = "") then
      <["service_type" := "???????? ??????????????????????"]> errs
    else if (80 <? runeCount serviceType)%nat then
      <["service_type" := "???????????????? 80 ????????????????"]> errs
    else errs in
  let errs :=
    if (120 <? runeCount carModel)%nat then
      <["car_model" := "???????????????? 120 ????????????????"]> errs
    else errs in
  let errs :=
    if (120 <? runeCount preferredCallTime)%nat then
      <["preferred_call_time" := "???????????????? 120 ????????????????"]> errs
    else errs in
  let errs :=
    if (2000 <? runeCount comments)%nat then
      <["comments" := "???????????????? 2000 ????????????????"]> errs
    else errs in
  errs.

(** [optionalStringDBValue]. *)
Definition optionalStringDBValue (input : string) : any :=
  let trimmed := TrimSpace input in
  if bool_decide (trimmed = "") then ANil else AString trimmed.

(** The arguments [createConsultationHandler] binds to its INSERT
    (lines 1017-1038), or the validation errors of its 422 response. *)
Definition consultationArguments
    (firstName lastName phone serviceType carModel preferredCallTime comments : string)
    : list any + gmap string string :=
  let errorsMap :=
    validateConsultationRequest firstName lastName phone serviceType carModel
      preferredCallTime comments in
  if (0 <? size errorsMap)%nat then inr errorsMap
  else
    inl [AString (TrimSpace firstName); AString (TrimSpace lastName);
         AString (TrimSpace phone); AString (TrimSpace serviceType);
         optionalStringDBValue carModel; optionalStringDBValue preferredCallTime;
         optionalStringDBValue comments].

(** A text field as the table takes it: trimmed, not blank, of at most
    [limit] runes. *)
Definition textWithin (limit : nat) (value : any) : Prop :=
  ∃ text, value = AString text ∧ TrimSpace text = text ∧ text ≠ ""
          ∧ (runeCount text ≤ limit)%nat.

(** A telephone number: an optional plus sign and 7 to 15 digits. *)
Definition phoneNumber (value : any) : Prop :=
  ∃ sign digits, value = AString (sign +:+ digits)
    ∧ (sign = "" ∨ sign = "+") ∧ allDigits digits = true
    ∧ (7 ≤ String.length digits ≤ 15)%nat.

(** ** The address of a stored object (main.go, lines 2182-2201 and 2270-2290) *)

Record supabaseStorageConfig := {
  BaseURL : string;
  ServiceRole : string;
  DefaultBucket : string;
}.

(** [loadSupabaseStorageConfig], from the values of [SUPABASE_URL],
    [SUPABASE_SERVICE_ROLE_KEY] and [STORAGE_BUCKET]. *)
Definition loadSupabaseStorageConfig (supabaseURL serviceRoleKey storageBucket : string)
    : supabaseStorageConfig + string :=
  let baseURL := trimRightByte (TrimSpace supabaseURL) slash in
  let serviceRole := TrimSpace serviceRoleKey in
  let defaultBucket := TrimSpace storageBucket in
  let defaultBucket :=
    if bool_decide (defaultBucket = "") then "cars" else defaultBucket in
  if bool_decide (baseURL = "") then inr "SUPABASE_URL is not set"
  else if bool_decide (serviceRole = "") then inr "SUPABASE_SERVICE_ROLE_KEY is not set"
  else inl {| BaseURL := baseURL; ServiceRole := serviceRole;
              DefaultBucket := defaultBucket |}.

(** Lines 2182-2201 of [adminStorageDeleteHandler]: the bucket, the object
    path and the address of the DELETE request, or the message of the 400
    response. *)
Definition storageDeleteTarget (cfg : supabaseStorageConfig)
    (query : list (string * string)) : (string * string * string) + string :=
  let bucketValue := firstNonEmpty [QueryGet query "bucket"; DefaultBucket cfg] in
  match cleanStorageBucket bucketValue with
  | inr err => inr err
  | inl bucket =>
      match cleanStoragePath (QueryGet query "path") with
      | inr _ => inr "query param path is required"
      | inl objectPath =>
          inl (bucket, objectPath, buildSupabaseObjectURL (BaseURL cfg) bucket objectPath)
      end
  end.

(** * Properties *)

(** ** Trimming *)

Lemma trimLeftSpace_fixed (s : list ascii) :
  startsSpace s = false → trimLeftSpace s = s.
Proof.
  destruct s as [|a [|b [|c r]]]; simpl; try done.
  - by intros ->%orb_false_iff%proj1.
  - intros [-> [-> _]%orb_false_iff]%orb_false_iff. done.
  - intros [-> [-> ->]%orb_false_iff]%orb_false_iff. done.
Qed.

Lemma trimLeftSpace_stops (s : list ascii) : startsSpace (trimLeftSpace s) = false.
Proof.
  remember (length s) as n eqn:Hn. revert s Hn.
  induction n as [n IH] using lt_wf_ind. intros s Hn.
  destruct s as [|a r1]; [done|]. simpl in Hn.
  cbn [trimLeftSpace].
  destruct (asciiSpace a) eqn:Ha; [apply (IH (length r1)); lia|].
  destruct r1 as [|b r2]; [by simpl; rewrite Ha|]. simpl in Hn.
  destruct (space2 a b) eqn:Hb; [apply (IH (length r2)); lia|].
  destruct r2 as [|c r3]; [by simpl; rewrite Ha, Hb|]. simpl in Hn.
  destruct (space3 a b c) eqn:Hc; [apply (IH (length r3)); lia|].
  by simpl; rewrite Ha, Hb, Hc.
Qed.

Lemma trimLeftSpace_suffix (s : list ascii) : trimLeftSpace s `suffix_of` s.
Proof.
  remember (length s) as n eqn:Hn. revert s Hn.
  induction n as [n IH] using lt_wf_ind. intros s Hn.
  destruct s as [|a r1]; [done|]. simpl in Hn.
  cbn [trimLeftSpace].
  destruct (asciiSpace a); [apply suffix_cons_r, (IH (length r1)); lia|].
  destruct r1 as [|b r2]; [done|]. simpl in Hn.
  destruct (space2 a b); [do 2 apply suffix_cons_r; apply (IH (length r2)); lia|].
  destruct r2 as [|c r3]; [done|]. simpl in Hn.
  destruct (space3 a b c); [do 3 apply suffix_cons_r; apply (IH (length r3)); lia|].
  done.
Qed.

Lemma trimLeftSpaceRev_fixed (s : list ascii) :
  startsSpaceRev s = false → trimLeftSpaceRev s = s.
Proof.
  destruct s as [|a [|b [|c r]]]; simpl; try done.
  - by intros ->%orb_false_iff%proj1.
  - intros [-> [-> _]%orb_false_iff]%orb_false_iff. done.
  - intros [-> [-> ->]%orb_false_iff]%orb_false_iff. done.
Qed.

Lemma trimLeftSpaceRev_stops (s : list ascii) :
  startsSpaceRev (trimLeftSpaceRev s) = false.
Proof.
  remember (length s) as n eqn:Hn. revert s Hn.
  induction n as [n IH] using lt_wf_ind. intros s Hn.
  destruct s as [|a r1]; [done|]. simpl in Hn.
  cbn [trimLeftSpaceRev].
  destruct (asciiSpace a) eqn:Ha; [apply (IH (length r1)); lia|].
  destruct r1 as [|b r2]; [by simpl; rewrite Ha|]. simpl in Hn.
  destruct (space2 b a) eqn:Hb; [apply (IH (length r2)); lia|].
  destruct r2 as [|c r3]; [by simpl; rewrite Ha, Hb|]. simpl in Hn.
  destruct (space3 c b a) eqn:Hc; [apply (IH (length r3)); lia|].
  by simpl; rewrite Ha, Hb, Hc.
Qed.

Lemma trimLeftSpaceRev_suffix (s : list ascii) : trimLeftSpaceRev s `suffix_of` s.
Proof.
  remember (length s) as n eqn:Hn. revert s Hn.
  induction n as [n IH] using lt_wf_ind. intros s Hn.
  destruct s as [|a r1]; [done|]. simpl in Hn.
  cbn [trimLeftSpaceRev].
  destruct (asciiSpace a); [apply suffix_cons_r, (IH (length r1)); lia|].
  destruct r1 as [|b r2]; [done|]. simpl in Hn.
  destruct (space2 b a); [do 2 apply suffix_cons_r; apply (IH (length r2)); lia|].
  destruct r2 as [|c r3]; [done|]. simpl in Hn.
  destruct (space3 c b a); [do 3 apply suffix_cons_r; apply (IH (length r3)); lia|].
  done.
Qed.

Lemma trimRightSpace_prefix (s : list ascii) : trimRightSpace s `prefix_of` s.
Proof.
  unfold trimRightSpace.
  destruct (trimLeftSpaceRev_suffix (rev s)) as [k Hk].
  apply (f_equal (@rev ascii)) in Hk.
  rewrite rev_involutive, rev_app_distr in Hk.
  by exists (rev k).
Qed.

Lemma startsSpace_prefix (p s : list ascii) :
  p `prefix_of` s → startsSpace p = true → startsSpace s = true.
Proof.
  intros [w ->].
  destruct p as [|a [|b [|c r]]]; simpl; try done.
  - rewrite orb_false_r. by intros ->.
  - rewrite orb_false_r. intros [->| ->]%orb_true_iff; [done|].
    by rewrite orb_true_r.
Qed.

Lemma trimSpace_bytes_fixed (s : list ascii) :
  let u := trimRightSpace (trimLeftSpace s) in
  trimRightSpace (trimLeftSpace u) = u.
Proof.
  intros u.
  assert (trimLeftSpace u = u) as ->.
  { apply trimLeftSpace_fixed.
    destruct (startsSpace u) eqn:Hu; [|done].
    pose proof (startsSpace_prefix _ _ (trimRightSpace_prefix (trimLeftSpace s)) Hu) as E.
    by rewrite trimLeftSpace_stops in E. }
  assert (rev u = trimLeftSpaceRev (rev (trimLeftSpace s))) as Hu.
  { unfold u, trimRightSpace. by rewrite rev_involutive. }
  unfold trimRightSpace at 1. rewrite Hu.
  rewrite trimLeftSpaceRev_fixed by apply trimLeftSpaceRev_stops.
  by rewrite <- Hu, rev_involutive.
Qed.

Lemma TrimSpace_idemp (s : string) : TrimSpace (TrimSpace s) = TrimSpace s.
Proof.
  unfold TrimSpace. rewrite list_ascii_of_string_of_list_ascii.
  by rewrite trimSpace_bytes_fixed.
Qed.

Lemma TrimSpace_empty : TrimSpace "" = "".
Proof. reflexivity. Qed.

(** ** Deduplication *)

Lemma filter_all {A} (P : A → Prop) `{∀ x, Decision (P x)} (l : list A) :
  (∀ x, x ∈ l → P x) → filter P l = l.
Proof.
  induction l as [|x l IH]; intros HP; [done|].
  rewrite filter_cons_True by (apply HP; left).
  f_equal. apply IH. intros y Hy. apply HP. by right.
Qed.

Lemma firstOccurrences_elem_of (l : list string) (x : string) :
  x ∈ firstOccurrences l ↔ x ∈ l.
Proof.
  induction l as [|y l IH]; simpl; [done|].
  rewrite !elem_of_cons, list_elem_of_filter, IH.
  destruct (decide (x = y)); naive_solver.
Qed.

Lemma firstOccurrences_NoDup (l : list string) : NoDup (firstOccurrences l).
Proof.
  induction l as [|y l IH]; simpl; [constructor|].
  constructor; [|by apply NoDup_filter].
  rewrite list_elem_of_filter. naive_solver.
Qed.

Lemma firstOccurrences_sublist (l : list string) : firstOccurrences l `sublist_of` l.
Proof.
  induction l as [|y l IH]; simpl; [done|].
  apply sublist_skip. etrans; [apply sublist_filter|done].
Qed.

Lemma trimmedNonBlank_notBlank (l : list string) (e : string) :
  e ∈ trimmedNonBlank l → notBlank e ∧ TrimSpace e = e.
Proof.
  unfold trimmedNonBlank, notBlank.
  rewrite list_elem_of_filter, list_elem_of_fmap.
  intros [Hne (v & -> & _)]. by rewrite TrimSpace_idemp.
Qed.

Lemma trimmedNonBlank_cons (v : string) (l : list string) :
  trimmedNonBlank (v :: l)
  = if bool_decide (TrimSpace v = "") then trimmedNonBlank l
    else TrimSpace v :: trimmedNonBlank l.
Proof.
  unfold trimmedNonBlank. rewrite fmap_cons, filter_cons.
  case_bool_decide; case_decide; done.
Qed.

Lemma uniqueNonEmpty_loop (values result : list string) (seen : gset string) :
  (∀ x, x ∈ seen ↔ x ∈ result) →
  fst (foldl uniqueNonEmpty_step (result, seen) values)
  = result ++ filter (λ y, y ∉ result) (firstOccurrences (trimmedNonBlank values)).
Proof.
  revert result seen.
  induction values as [|v values IH]; intros result seen Hseen.
  { simpl. by rewrite app_nil_r. }
  rewrite trimmedNonBlank_cons. cbn [foldl uniqueNonEmpty_step].
  case_bool_decide as Hblank; [by apply IH|].
  case_bool_decide as Hin.
  - rewrite (IH _ _ Hseen). f_equal. cbn [firstOccurrences].
    rewrite filter_cons, decide_False by (apply Hseen in Hin; naive_solver).
    rewrite list_filter_filter. apply list_filter_iff.
    intros x. apply Hseen in Hin. naive_solver.
  - rewrite IH.
    2:{ intros x. rewrite elem_of_union, elem_of_singleton, elem_of_app,
          list_elem_of_singleton, Hseen. naive_solver. }
    rewrite <- app_assoc. f_equal. cbn [firstOccurrences app].
    rewrite filter_cons, decide_True by (by rewrite <- Hseen).
    f_equal. rewrite list_filter_filter. apply list_filter_iff.
    intros x. rewrite elem_of_app, list_elem_of_singleton. naive_solver.
Qed.

Lemma uniqueNonEmpty_spec (values : list string) :
  uniqueNonEmpty values = firstOccurrences (trimmedNonBlank values).
Proof.
  unfold uniqueNonEmpty. rewrite uniqueNonEmpty_loop by set_solver.
  simpl. apply filter_all. intros x _. apply not_elem_of_nil.
Qed.

Lemma uniqueNonEmpty_NoDup (values : list string) : NoDup (uniqueNonEmpty values).
Proof. rewrite uniqueNonEmpty_spec. apply firstOccurrences_NoDup. Qed.

Lemma uniqueNonEmpty_notBlank (values : list string) :
  Forall notBlank (uniqueNonEmpty values).
Proof.
  rewrite uniqueNonEmpty_spec. apply Forall_forall. intros e He.
  rewrite firstOccurrences_elem_of in He.
  exact (proj1 (trimmedNonBlank_notBlank _ _ He)).
Qed.

Lemma cleanItems_loop (items result : list string) :
  foldl (λ result item,
           let clean := TrimSpace item in
           if bool_decide (clean = "") then result else result ++ [clean])
        result items
  = result ++ trimmedNonBlank items.
Proof.
  revert result. induction items as [|v items IH]; intros result.
  { simpl. by rewrite app_nil_r. }
  rewrite trimmedNonBlank_cons. cbn [foldl]. rewrite IH.
  case_bool_decide; [done|]. by rewrite <- app_assoc.
Qed.

Lemma cleanItems_spec (items : list string) : cleanItems items = trimmedNonBlank items.
Proof. unfold cleanItems. by rewrite cleanItems_loop. Qed.

Lemma cleanItems_notBlank (items : list string) : Forall notBlank (cleanItems items).
Proof.
  rewrite cleanItems_spec. apply Forall_forall. intros e He.
  exact (proj1 (trimmedNonBlank_notBlank _ _ He)).
Qed.

(** ** Performed works *)

Lemma workOfObject_found (v : gmap string any) (keys : list string) (text : string) :
  workOfObject v keys = [text]
  ↔ ∃ before key after,
      keys = before ++ key :: after
      ∧ nonBlankStringAt v key text
      ∧ ∀ k t, k ∈ before → ¬ nonBlankStringAt v k t.
Proof.
  unfold nonBlankStringAt, notBlank.
  induction keys as [|key keys IH]; simpl.
  { split; [intros [=]|]. intros ([|??] & ? & ? & ? & _); simplify_eq/=. }
  assert (∀ P : Prop, (workOfObject v keys = [text] ↔ P) →
          (∀ t, ¬ (v !! key = Some (AString t) ∧ TrimSpace t ≠ "")) →
          workOfObject v keys = [text]
          ↔ ∃ before k after, key :: keys = before ++ k :: after
              ∧ (v !! k = Some (AString text) ∧ TrimSpace text ≠ "")
              ∧ ∀ k' t, k' ∈ before → ¬ (v !! k' = Some (AString t) ∧ TrimSpace t ≠ ""))
    as Hskip.
  { intros P _ Hno. rewrite IH. split.
    - intros (before & k & after & -> & Hk & Hb).
      exists (key :: before), k, after. split; [done|]. split; [done|].
      intros k' t [->|?]%elem_of_cons; [apply Hno|by apply Hb].
    - intros ([|k0 before] & k & after & Heq & Hk & Hb); simplify_eq/=.
      + by destruct (Hno text).
      + exists before, k, after. split; [done|]. split; [done|].
        intros k' t ?. apply Hb. by right. }
  destruct (v !! key) as [[| | | |s| |]|] eqn:Hkey;
    try (apply (Hskip _ IH); intros t [? _]; congruence).
  case_bool_decide as Hs.
  - split.
    + intros [= <-]. exists [], key, keys. split; [done|]. split; [done|].
      intros ?? ?%elem_of_nil; done.
    + intros ([|k0 before] & k & after & Heq & [Hk Hne] & Hb); simplify_eq/=; [done|].
      destruct (Hb k0 s); [by left|done].
  - apply (Hskip _ IH). intros t [[= <-] ?]. done.
Qed.

Lemma workOfObject_none (v : gmap string any) (keys : list string) :
  workOfObject v keys = [] ↔ ∀ k t, k ∈ keys → ¬ nonBlankStringAt v k t.
Proof.
  unfold nonBlankStringAt, notBlank.
  induction keys as [|key keys IH]; simpl.
  { split; [|done]. intros _ ?? ?%elem_of_nil; done. }
  assert ((∀ t, ¬ (v !! key = Some (AString t) ∧ TrimSpace t ≠ "")) →
          workOfObject v keys = []
          ↔ ∀ k t, k ∈ key :: keys → ¬ (v !! k = Some (AString t) ∧ TrimSpace t ≠ ""))
    as Hskip.
  { intros Hno. rewrite IH. split.
    - intros Hk k t [->|?]%elem_of_cons; [apply Hno|by apply Hk].
    - intros Hk k t ?. apply Hk. by right. }
  destruct (v !! key) as [[| | | |s| |]|] eqn:Hkey;
    try (apply Hskip; intros t [? _]; congruence).
  case_bool_decide as Hs.
  - split; [done|]. intros Hk. destruct (Hk key s); [by left|done].
  - apply Hskip. intros t [[= <-] ?]. done.
Qed.

Lemma works_loop (l : list any) (works : list string) :
  foldl (λ works item, works ++ workOfItem item) works l = works ++ (l ≫= workOfItem).
Proof.
  revert works. induction l as [|item l IH]; intros works; simpl.
  { by rewrite app_nil_r. }
  by rewrite IH, app_assoc.
Qed.

Lemma stringElements_works (l : list any) (ss : list string) :
  mapM stringElement l = Some ss →
  trimmedNonBlank ss = trimmedNonBlank (l ≫= workOfItem).
Proof.
  revert ss. induction l as [|item l IH]; intros ss; simpl.
  { by intros [= <-]. }
  destruct item as [| | | |s| |]; simpl; try done;
    destruct (mapM stringElement l) as [ss'|] eqn:Hss; simpl; try done;
    intros [= <-]; rewrite trimmedNonBlank_cons.
  - rewrite TrimSpace_empty, bool_decide_eq_true_2 by done. by apply IH.
  - rewrite trimmedNonBlank_cons. case_bool_decide; [|f_equal]; by apply IH.
Qed.

Lemma stringElements_strings (ss : list string) :
  mapM stringElement (AString <$> ss) = Some ss.
Proof.
  induction ss as [|s ss IH]; [done|].
  rewrite fmap_cons. simpl. by rewrite IH.
Qed.

Lemma length_zero_iff (raw : string) : (String.length raw =? 0)%nat = true ↔ raw = "".
Proof. destruct raw; simpl; split; done. Qed.

Lemma parsePerformedWorks_array `{JSONCodec} (raw : string) (l : list any) :
  raw ≠ "" → json_decode raw = Some (ASlice l) →
  parsePerformedWorks raw = uniqueNonEmpty (l ≫= workOfItem).
Proof.
  intros Hraw Hdec. unfold parsePerformedWorks, UnmarshalStrings, UnmarshalSlice.
  destruct (String.length raw =? 0)%nat eqn:Hlen; [by apply length_zero_iff in Hlen|].
  rewrite Hdec. destruct (mapM stringElement l) as [ss|] eqn:Hss.
  - rewrite !uniqueNonEmpty_spec. f_equal. by apply stringElements_works.
  - by rewrite works_loop.
Qed.

Lemma parsePerformedWorks_other `{JSONCodec} (raw : string) :
  raw = "" ∨ (∀ l, json_decode raw ≠ Some (ASlice l)) → parsePerformedWorks raw = [].
Proof.
  unfold parsePerformedWorks, UnmarshalStrings, UnmarshalSlice.
  intros [->|Hother]; [done|].
  destruct (String.length raw =? 0)%nat; [done|].
  destruct (json_decode raw) as [[| | | | |l|]|] eqn:Hdec; try done.
  by destruct (Hother l).
Qed.

Lemma parsePerformedWorks_clean `{JSONCodec} (raw : string) :
  NoDup (parsePerformedWorks raw) ∧ Forall notBlank (parsePerformedWorks raw)
  ∧ (∀ l, raw ≠ "" → json_decode raw = Some (ASlice l) →
          parsePerformedWorks raw = firstOccurrences (trimmedNonBlank (l ≫= workOfItem)))
  ∧ (raw = "" ∨ (∀ l, json_decode raw ≠ Some (ASlice l)) → parsePerformedWorks raw = []).
Proof.
  split_and!.
  - unfold parsePerformedWorks.
    destruct (String.length raw =? 0)%nat; [constructor|].
    destruct (UnmarshalStrings raw); [apply uniqueNonEmpty_NoDup|].
    destruct (UnmarshalSlice raw); [apply uniqueNonEmpty_NoDup|constructor].
  - unfold parsePerformedWorks.
    destruct (String.length raw =? 0)%nat; [constructor|].
    destruct (UnmarshalStrings raw); [apply uniqueNonEmpty_notBlank|].
    destruct (UnmarshalSlice raw); [apply uniqueNonEmpty_notBlank|constructor].
  - intros l Hraw Hdec. rewrite (parsePerformedWorks_array raw l Hraw Hdec).
    apply uniqueNonEmpty_spec.
  - apply parsePerformedWorks_other.
Qed.

(** ** Response projection *)

(** C3 (amended).  The performed works and the fall-back collection built
    from the candidate image columns are deduplicated, order-preserving with
    the first occurrence winning: the performed works are the first
    occurrences, in order, of the trimmed non-blank contributions of the
    elements of the work list (and empty when the column is not a JSON
    array), the fall-back collection those of the candidate image columns.
    No collection holds a blank entry; the gallery images parsed from the
    JSON column are the trimmed non-blank entries of the column in their
    order, duplicates included. *)
Theorem projected_collections `{JSONCodec} (row : workPostRow) :
  let post := projectWorkPost row in
  let candidates :=
    [nullStringValue (cardImageURL row); nullStringValue (fullImageURL row);
     nullStringValue (videoImageURL row)] in
  (NoDup (PerformedWorks post) ∧ Forall notBlank (PerformedWorks post)
   ∧ (∀ l, workList row ≠ "" → json_decode (workList row) = Some (ASlice l) →
           PerformedWorks post = firstOccurrences (trimmedNonBlank (l ≫= workOfItem)))
   ∧ (workList row = "" ∨ (∀ l, json_decode (workList row) ≠ Some (ASlice l)) →
      PerformedWorks post = []))
  ∧ Forall notBlank (GalleryImages post)
  ∧ (parseStringArray (galleryImagesRaw row) = [] →
     GalleryImages post = firstOccurrences (trimmedNonBlank candidates)
     ∧ NoDup (GalleryImages post))
  ∧ (∀ items,
       galleryImagesRaw row ≠ "" →
       UnmarshalStrings (galleryImagesRaw row) = Some items →
       parseStringArray (galleryImagesRaw row) = trimmedNonBlank items
       ∧ (trimmedNonBlank items ≠ [] → GalleryImages post = trimmedNonBlank items)).
Proof.
  intros post candidates.
  assert (Forall notBlank (parseStringArray (galleryImagesRaw row))) as Hparsed.
  { unfold parseStringArray.
    destruct (String.length _ =? 0)%nat; [constructor|].
    destruct (UnmarshalStrings (galleryImagesRaw row)); [apply cleanItems_notBlank|].
    destruct (UnmarshalString _); [|constructor].
    destruct (UnmarshalStrings _); [apply cleanItems_notBlank|constructor]. }
  split; [apply parsePerformedWorks_clean|].
  split.
  { unfold post, projectWorkPost. cbn [GalleryImages].
    destruct (length _ =? 0)%nat; [apply uniqueNonEmpty_notBlank|done]. }
  split.
  { intros Hempty. unfold post, projectWorkPost. cbn [GalleryImages].
    rewrite Hempty. cbn [length Nat.eqb].
    split; [apply uniqueNonEmpty_spec|apply uniqueNonEmpty_NoDup]. }
  intros items Hraw Hitems.
  assert (parseStringArray (galleryImagesRaw row) = trimmedNonBlank items) as Hg.
  { unfold parseStringArray.
    destruct (String.length _ =? 0)%nat eqn:Hlen; [by apply length_zero_iff in Hlen|].
    by rewrite Hitems, cleanItems_spec. }
  split; [done|]. intros Hne.
  unfold post, projectWorkPost. cbn [GalleryImages]. rewrite Hg.
  by destruct (trimmedNonBlank items).
Qed.

Lemma projected_collections_witness :
  GalleryImages (@projectWorkPost sampleCodec rowFallback) = ["x.jpg"]
  ∧ GalleryImages (@projectWorkPost sampleCodec rowGallery) = ["a.jpg"; "a.jpg"].
Proof.
  split.
  - destruct (@projected_collections sampleCodec rowFallback) as (_ & _ & Hfb & _).
    destruct Hfb as [-> _]; vm_compute; reflexivity.
  - destruct (@projected_collections sampleCodec rowGallery) as (_ & _ & _ & Hg).
    destruct (Hg [" a.jpg"; "a.jpg"]) as [_ ->]; vm_compute; done.
Defined.

(** C3 as stated fails: a gallery column that repeats an image is projected
    with the repetition. *)
Lemma gallery_images_keep_duplicates :
  GalleryImages (@projectWorkPost sampleCodec rowGallery) = ["a.jpg"; "a.jpg"]
  ∧ ¬ NoDup (GalleryImages (@projectWorkPost sampleCodec rowGallery)).
Proof.
  assert (GalleryImages (@projectWorkPost sampleCodec rowGallery) = ["a.jpg"; "a.jpg"])
    as -> by (vm_compute; reflexivity).
  split; [done|]. intros [Hnin _]%NoDup_cons. apply Hnin. left.
Qed.

(** C4 (amended).  A JSON array gives the trimmed, deduplicated non-blank
    contributions of its elements: a string contributes itself, an object
    the first non-blank string found under step, title, name, text,
    description in that order, any other element nothing.  Input that is
    empty, not valid JSON, or valid JSON other than an array gives the empty
    collection. *)
Theorem performed_works_parsing `{JSONCodec} (raw : string) :
  (∀ l, raw ≠ "" → json_decode raw = Some (ASlice l) →
        parsePerformedWorks raw = uniqueNonEmpty (l ≫= workOfItem)
        ∧ parsePerformedWorks raw
          = firstOccurrences (trimmedNonBlank (l ≫= workOfItem)))
  ∧ (∀ ss, raw ≠ "" → json_decode raw = Some (ASlice (AString <$> ss)) →
           parsePerformedWorks raw = firstOccurrences (trimmedNonBlank ss))
  ∧ (∀ s, workOfItem (AString s) = [s])
  ∧ (∀ v text,
       workOfItem (AMap v) = [text]
       ↔ ∃ before key after,
           workKeys = before ++ key :: after
           ∧ nonBlankStringAt v key text
           ∧ ∀ k t, k ∈ before → ¬ nonBlankStringAt v k t)
  ∧ (∀ v, workOfItem (AMap v) = []
          ↔ ∀ k t, k ∈ workKeys → ¬ nonBlankStringAt v k t)
  ∧ (∀ item, (∀ s, item ≠ AString s) → (∀ v, item ≠ AMap v) → workOfItem item = [])
  ∧ (raw = "" ∨ json_decode raw = None
     ∨ (∃ v, json_decode raw = Some v ∧ ∀ l, v ≠ ASlice l) →
     parsePerformedWorks raw = []).
Proof.
  split.
  { intros l Hraw Hdec. rewrite (parsePerformedWorks_array raw l Hraw Hdec).
    split; [done|apply uniqueNonEmpty_spec]. }
  split.
  { intros ss Hraw Hdec. unfold parsePerformedWorks, UnmarshalStrings.
    destruct (String.length raw =? 0)%nat eqn:Hlen; [by apply length_zero_iff in Hlen|].
    rewrite Hdec, stringElements_strings. apply uniqueNonEmpty_spec. }
  split; [done|].
  split; [intros v text; apply workOfObject_found|].
  split; [intros v; apply workOfObject_none|].
  split.
  { intros [| | | |s| |v] Hs Hv; try done; [by destruct (Hs s)|by destruct (Hv v)]. }
  unfold parsePerformedWorks, UnmarshalStrings, UnmarshalSlice.
  intros [->|[Hdec|(v & Hdec & Hv)]]; [done|..];
    destruct (String.length raw =? 0)%nat; try done; rewrite Hdec; [done|].
  destruct v as [| | | | |l|]; try done. by destruct (Hv l).
Qed.

Lemma performed_works_parsing_witness :
  @parsePerformedWorks sampleCodec
    (jsonText "[{'step':'Diagnostics'},{'title':'Calibration'}]")
  = ["Diagnostics"; "Calibration"]
  ∧ @parsePerformedWorks sampleCodec "not json" = []
  ∧ @parsePerformedWorks sampleCodec (jsonText "'not json'") = [].
Proof.
  split; [|split].
  - destruct (@performed_works_parsing sampleCodec
                (jsonText "[{'step':'Diagnostics'},{'title':'Calibration'}]"))
      as [Harr _].
    destruct (Harr [AMap {[ "step" := AString "Diagnostics" ]};
                    AMap {[ "title" := AString "Calibration" ]}]) as [-> _];
      vm_compute; done.
  - destruct (@performed_works_parsing sampleCodec "not json") as (_ & _ & _ & _ & _ & _ & Hno).
    apply Hno. right. left. vm_compute. reflexivity.
  - destruct (@performed_works_parsing sampleCodec (jsonText "'not json'"))
      as (_ & _ & _ & _ & _ & _ & Hno).
    apply Hno. right. right. exists (AString "not json"). split; [vm_compute; reflexivity|done].
Defined.

(** C4 as stated fails: an array that is neither all strings nor all objects
    does not give the empty collection. *)
Lemma performed_works_mixed_array :
  @json_decode sampleCodec (jsonText "['a',1]")
  = Some (ASlice [AString "a"; AFloat64 f64_one])
  ∧ @parsePerformedWorks sampleCodec (jsonText "['a',1]") = ["a"].
Proof. split; vm_compute; reflexivity. Qed.

(** ** The cascading query executor *)

Lemma cascadeLoop_success {Rows} (a : App Rows) (failed : list string)
    (query : string) (rest : list string) (rows : Rows) (st : cascadeState Rows) :
  Forall (queryFails a) failed →
  QueryContext a query = inl rows →
  cascadeLoop a (failed ++ query :: rest) st
  = {| cs_rows := Some rows; cs_err := None; cs_sent := cs_sent st ++ failed ++ [query] |}.
Proof.
  intros Hfailed Hquery. revert st.
  induction Hfailed as [|q failed [err Hq] _ IH]; intros st; simpl.
  - unfold assignQuery. by rewrite Hquery.
  - unfold assignQuery at 1 2. rewrite Hq. cbn [cs_err]. rewrite IH.
    cbn [cs_sent]. by rewrite <- app_assoc.
Qed.

Lemma cascadeLoop_failure {Rows} (a : App Rows) (queries : list string)
    (final err : string) (st : cascadeState Rows) :
  Forall (queryFails a) queries →
  last queries = Some final →
  QueryContext a final = inr err →
  cascadeLoop a queries st
  = {| cs_rows := None; cs_err := Some err; cs_sent := cs_sent st ++ queries |}.
Proof.
  intros Hall. revert st.
  induction Hall as [|q queries [e Hq] Hall IH]; intros st Hlast Hfinal; [done|].
  simpl. unfold assignQuery at 1 2. rewrite Hq. cbn [cs_err].
  destruct queries as [|q' queries].
  - simpl in *. simplify_eq. by rewrite Hq in Hfinal; simplify_eq.
  - rewrite IH; [|done..]. cbn [cs_sent]. by rewrite <- app_assoc.
Qed.

(** C1.  On a non-empty list the candidates are sent in list order; the
    result set is that of the first candidate that executes without error
    and no later candidate is sent; when every candidate fails the error
    kept is the last candidate's, and the client gets the handler's fixed
    message with status 500, whatever that error is. *)
Theorem cascade_first_success {Rows} (a : App Rows) (queries : list string) :
  queries ≠ [] →
  (∀ failed query rest rows,
     queries = failed ++ query :: rest →
     Forall (queryFails a) failed →
     QueryContext a query = inl rows →
     cascade a queries
     = {| cs_rows := Some rows; cs_err := None; cs_sent := failed ++ [query] |}
     ∧ ∀ failure, afterCascade failure (cascade a queries) = ReadRows (Some rows))
  ∧ (Forall (queryFails a) queries →
     ∃ final err,
       last queries = Some final
       ∧ QueryContext a final = inr err
       ∧ cascade a queries
         = {| cs_rows := None; cs_err := Some err; cs_sent := queries |}
       ∧ ∀ failure,
           afterCascade failure (cascade a queries)
           = Answered (TextError failure StatusInternalServerError))
  ∧ (bannersHandler_fetch a = afterCascade "failed to fetch banners" (cascade a bannersQueries)
     ∧ tuningHandler_fetch a = afterCascade "failed to fetch tuning" (cascade a tuningQueries)).
Proof.
  intros Hne. split; [|split; [|done]].
  - intros failed query rest rows -> Hfailed Hquery.
    unfold cascade. rewrite (cascadeLoop_success a failed query rest rows) by done.
    split; [done|]. intros failure. done.
  - intros Hall.
    destruct (last queries) as [final|] eqn:Hlast;
      [|by apply last_None in Hlast].
    assert (final ∈ queries) as Hin.
    { apply last_Some in Hlast as [l' ->]. set_solver. }
    destruct (proj1 (Forall_forall _ _) Hall final Hin) as [err Herr].
    exists final, err. split; [done|]. split; [done|].
    unfold cascade. rewrite (cascadeLoop_failure a queries final err) by done.
    split; [done|]. intros failure. done.
Qed.

Lemma cascade_first_success_witness :
  cascade cascadeApp ["Q1"; "Q2"; "Q3"]
  = {| cs_rows := Some [2]; cs_err := None; cs_sent := ["Q1"; "Q2"] |}
  ∧ ∃ final err,
      last ["Q1"; "Q0"] = Some final
      ∧ QueryContext cascadeApp final = inr err
      ∧ cascade cascadeApp ["Q1"; "Q0"]
        = {| cs_rows := None; cs_err := Some err; cs_sent := ["Q1"; "Q0"] |}
      ∧ ∀ failure,
          afterCascade failure (cascade cascadeApp ["Q1"; "Q0"])
          = Answered (TextError failure StatusInternalServerError).
Proof.
  split.
  - assert (["Q1"; "Q2"; "Q3"] ≠ @nil string) as Hne by done.
    destruct (cascade_first_success cascadeApp ["Q1"; "Q2"; "Q3"] Hne) as [Hfirst _].
    destruct (Hfirst ["Q1"] "Q2" ["Q3"] [2]) as [Hres _]; [reflexivity| |reflexivity|exact Hres].
    constructor; [|constructor]. eexists. reflexivity.
  - assert (["Q1"; "Q0"] ≠ @nil string) as Hne by done.
    destruct (cascade_first_success cascadeApp ["Q1"; "Q0"] Hne) as (_ & Hall & _).
    apply Hall. repeat constructor; eexists; reflexivity.
Defined.

(** ** The registry and validation *)

Example sample_descriptors_registered :
  configs !! 0%nat = Some cfgBanners
  ∧ configs !! 7%nat = Some cfgTuning
  ∧ configs !! 10%nat = Some cfgPortfolio.
Proof. done. Qed.

(** C8.  In every descriptor of the registry the columns required on create
    are mutable columns. *)
Theorem registry_required_are_mutable :
  Forall (λ cfg, RequiredOnCreate cfg ⊆ MutableColumns cfg) configs.
Proof.
  assert (forallb (λ cfg, bool_decide (RequiredOnCreate cfg ⊆ MutableColumns cfg)) configs
          = true) as Hall by (vm_compute; reflexivity).
  apply Forall_forall. intros cfg Hcfg%list_elem_of_In.
  rewrite forallb_forall in Hall. exact (bool_decide_eq_true_1 _ (Hall cfg Hcfg)).
Qed.

Lemma validate_editable_loop (allowed : gset string) (walk : list string)
    (errs : gmap string string) (key : string) :
  foldl (λ (errs : gmap string string) key,
           if bool_decide (key ∈ allowed) then errs
           else <[key := "field is not editable"]> errs) errs walk !! key
  = if bool_decide (key ∈ walk ∧ key ∉ allowed) then Some "field is not editable"
    else errs !! key.
Proof.
  revert errs. induction walk as [|k walk IH]; intros errs; cbn [foldl].
  { case_bool_decide as Hc; [|done]. by destruct Hc as [?%elem_of_nil _]. }
  rewrite IH. destruct (decide (key ∈ walk ∧ key ∉ allowed)) as [Hw|Hw].
  { rewrite !bool_decide_eq_true_2; [done|set_solver|done]. }
  rewrite (bool_decide_eq_false_2 _ Hw).
  destruct (decide (k ∈ allowed)) as [Hk|Hk].
  - rewrite (bool_decide_eq_true_2 _ Hk), bool_decide_eq_false_2; [done|].
    intros [[->|?]%elem_of_cons ?]; [done|]. by apply Hw.
  - rewrite (bool_decide_eq_false_2 _ Hk).
    destruct (decide (k = key)) as [->|Hne].
    + rewrite lookup_insert_eq, bool_decide_eq_true_2; [done|]. split; [left|done].
    + rewrite lookup_insert_ne, bool_decide_eq_false_2; [done| |done].
      intros [[->|?]%elem_of_cons ?]; [done|]. by apply Hw.
Qed.

Lemma emptyAt_spec (payload : gmap string any) (key : string) :
  emptyAt payload key = true ↔ missingOrEmpty payload key.
Proof.
  unfold missingOrEmpty, emptyAt.
  destruct (payload !! key) as [[| | | |s| |]|]; simpl;
    try (split; [by eauto|by intros [?|[?|(?&?&?)]]]).
  rewrite bool_decide_eq_true. split; [by eauto|].
  by intros [?|[?|(?&[= <-]&?)]].
Qed.

Lemma validate_required_loop (payload : gmap string any) (walk : list string)
    (errs : gmap string string) (key : string) :
  foldl (λ (errs : gmap string string) key,
           match payload !! key with
           | Some value =>
               if isEmptyJSONValue value then <[key := "field is required"]> errs
               else errs
           | None => <[key := "field is required"]> errs
           end) errs walk !! key
  = if bool_decide (key ∈ walk ∧ emptyAt payload key = true)
    then Some "field is required" else errs !! key.
Proof.
  revert errs. induction walk as [|k walk IH]; intros errs; cbn [foldl].
  { case_bool_decide as Hc; [|done]. by destruct Hc as [?%elem_of_nil _]. }
  rewrite IH. destruct (decide (key ∈ walk ∧ emptyAt payload key = true)) as [Hw|Hw].
  { rewrite !bool_decide_eq_true_2; [done|set_solver|done]. }
  rewrite (bool_decide_eq_false_2 _ Hw).
  destruct (decide (k = key)) as [->|Hne].
  - unfold emptyAt in *.
    destruct (payload !! key) as [value|] eqn:Hval.
    + destruct (isEmptyJSONValue value) eqn:Hempty.
      * rewrite lookup_insert_eq, bool_decide_eq_true_2; [done|]. split; [left|done].
      * rewrite bool_decide_eq_false_2; [done|]. by intros [_ ?].
    + rewrite lookup_insert_eq, bool_decide_eq_true_2; [done|]. split; [left|done].
  - assert (¬ (key ∈ k :: walk ∧ emptyAt payload key = true)) as Hno.
    { intros [[->|?]%elem_of_cons ?]; [done|]. by apply Hw. }
    rewrite (bool_decide_eq_false_2 _ Hno).
    destruct (payload !! k) as [value|]; [destruct (isEmptyJSONValue value)|];
      by rewrite ?lookup_insert_ne.
Qed.

Lemma validateCRUDPayload_lookup (payloadWalk requiredWalk : list string)
    (payload : gmap string any) (allowed : gset string) (key : string) :
  validateCRUDPayload payloadWalk requiredWalk payload allowed !! key
  = if bool_decide (key ∈ requiredWalk ∧ emptyAt payload key = true)
    then Some "field is required"
    else if bool_decide (key ∈ payloadWalk ∧ key ∉ allowed)
         then Some "field is not editable" else None.
Proof.
  unfold validateCRUDPayload.
  by rewrite validate_required_loop, validate_editable_loop, lookup_empty.
Qed.

Lemma walkOf_elem_of {V} (m : gmap string V) (walk : list string) (key : string) :
  walkOf m walk → key ∈ walk ↔ key ∈ dom m.
Proof.
  unfold walkOf. intros ->. rewrite elem_of_dom, list_elem_of_fmap. split.
  - intros ([k v] & -> & Hkv%elem_of_map_to_list). by exists v.
  - intros [v Hv]. exists (key, v). split; [done|]. by apply elem_of_map_to_list.
Qed.

Lemma walkOfSet_elem_of (s : gset string) (walk : list string) (key : string) :
  walkOfSet s walk → key ∈ walk ↔ key ∈ s.
Proof. unfold walkOfSet. intros ->. apply elem_of_elements. Qed.

Lemma walkOf_empty {V} (walk : list string) : walkOf (∅ : gmap string V) walk ↔ walk = [].
Proof.
  unfold walkOf. rewrite map_to_list_empty. simpl. split.
  - apply Permutation_nil_r.
  - by intros ->.
Qed.

Lemma size_positive {V} (m : gmap string V) : (0 <? size m)%nat = true ↔ m ≠ ∅.
Proof.
  rewrite Nat.ltb_lt. rewrite <- map_size_non_empty_iff. lia.
Qed.

(** C2.  For a descriptor (its required columns among its mutable ones),
    validation on create reports "field is not editable" for exactly the
    payload keys outside the mutable columns and "field is required" for
    exactly the required columns whose value is missing, null or a blank
    string, whatever the order in which the maps are walked; validation on
    update reports exactly the keys outside the mutable columns and never a
    required field.  The handlers answer 422 with these errors. *)
Theorem validation_errors (cfg : tableCRUDConfig) (payload : gmap string any)
    (payloadKeys requiredKeys : list string) :
  RequiredOnCreate cfg ⊆ MutableColumns cfg →
  walkOf payload payloadKeys →
  walkOfSet (RequiredOnCreate cfg) requiredKeys →
  let onCreate :=
    validateCRUDPayload payloadKeys requiredKeys payload (MutableColumns cfg) in
  let onUpdate := validateCRUDPayload payloadKeys [] payload (MutableColumns cfg) in
  (∀ key, onCreate !! key = Some "field is not editable"
          ↔ key ∈ dom payload ∧ key ∉ MutableColumns cfg)
  ∧ (∀ key, onCreate !! key = Some "field is required"
            ↔ key ∈ RequiredOnCreate cfg ∧ missingOrEmpty payload key)
  ∧ (∀ key msg, onCreate !! key = Some msg →
                msg = "field is not editable" ∨ msg = "field is required")
  ∧ (∀ key, onUpdate !! key = Some "field is not editable"
            ↔ key ∈ dom payload ∧ key ∉ MutableColumns cfg)
  ∧ (∀ key msg, onUpdate !! key = Some msg → msg = "field is not editable")
  ∧ (∀ (codec : JSONCodec) (machine : Machine) (Rows : Type) (a : App Rows)
       (id : Z) (w : walks),
       validateWalk w = payloadKeys → requiredWalk w = requiredKeys →
       (onCreate ≠ ∅ →
        adminCreateOne a cfg payload w
        = JSONResponse StatusUnprocessableEntity (validationBody onCreate))
       ∧ (onUpdate ≠ ∅ →
          adminUpdateOne a cfg id payload w
          = JSONResponse StatusUnprocessableEntity (validationBody onUpdate))).
Proof.
  intros Hsub Hpw Hrw onCreate onUpdate.
  assert (∀ key, onCreate !! key
                 = if bool_decide (key ∈ RequiredOnCreate cfg ∧ emptyAt payload key = true)
                   then Some "field is required"
                   else if bool_decide (key ∈ dom payload ∧ key ∉ MutableColumns cfg)
                        then Some "field is not editable" else None) as Hcreate.
  { intros key. unfold onCreate. rewrite validateCRUDPayload_lookup.
    rewrite (bool_decide_ext _ (key ∈ RequiredOnCreate cfg ∧ emptyAt payload key = true))
      by (by rewrite (walkOfSet_elem_of _ _ _ Hrw)).
    rewrite (bool_decide_ext (key ∈ payloadKeys ∧ _)
                             (key ∈ dom payload ∧ key ∉ MutableColumns cfg))
      by (by rewrite (walkOf_elem_of _ _ _ Hpw)).
    done. }
  assert (∀ key, onUpdate !! key
                 = if bool_decide (key ∈ dom payload ∧ key ∉ MutableColumns cfg)
                   then Some "field is not editable" else None) as Hupdate.
  { intros key. unfold onUpdate. rewrite validateCRUDPayload_lookup.
    rewrite bool_decide_eq_false_2 by (by intros [?%elem_of_nil _]).
    by rewrite (bool_decide_ext (key ∈ payloadKeys ∧ _)
                                (key ∈ dom payload ∧ key ∉ MutableColumns cfg))
      by (by rewrite (walkOf_elem_of _ _ _ Hpw)). }
  split_and!.
  - intros key. rewrite Hcreate. repeat case_bool_decide; split; try done.
    intros [_ Hmut]. destruct Hmut. apply Hsub. tauto.
  - intros key. rewrite Hcreate, <- emptyAt_spec.
    repeat case_bool_decide; split; try done; tauto.
  - intros key msg. rewrite Hcreate. repeat case_bool_decide; naive_solver.
  - intros key. rewrite Hupdate. case_bool_decide; split; done.
  - intros key msg. rewrite Hupdate. case_bool_decide; naive_solver.
  - intros codec machine Rows a id w Hvw Hreq. split; intros Hne.
    + unfold adminCreateOne. rewrite Hvw, Hreq. fold onCreate.
      by rewrite (proj2 (size_positive onCreate) Hne).
    + unfold adminUpdateOne. rewrite Hvw. fold onUpdate.
      by rewrite (proj2 (size_positive onUpdate) Hne).
Qed.

Lemma validation_errors_witness :
  validateCRUDPayload ["title"] ["title"; "image_url"]
    {[ "title" := AString "x" ]} (MutableColumns cfgPortfolio) !! "image_url"
  = Some "field is required".
Proof.
  assert (RequiredOnCreate cfgPortfolio ⊆ MutableColumns cfgPortfolio) as Hsub.
  { apply (bool_decide_unpack _). vm_compute. exact I. }
  assert (walkOf ({[ "title" := AString "x" ]} : gmap string any) ["title"]) as Hpw.
  { unfold walkOf. by rewrite map_to_list_singleton. }
  assert (walkOfSet (RequiredOnCreate cfgPortfolio) ["title"; "image_url"]) as Hrw.
  { unfold walkOfSet. apply (bool_decide_unpack _). vm_compute. exact I. }
  destruct (validation_errors cfgPortfolio {[ "title" := AString "x" ]}
              ["title"] ["title"; "image_url"] Hsub Hpw Hrw) as (_ & Hreq & _).
  apply Hreq. split.
  - apply (bool_decide_unpack _). vm_compute. exact I.
  - left. apply lookup_singleton_ne. done.
Defined.

(** ** Statement construction *)

Lemma sortedMapKeys_sorted (walk : list string) :
  StronglySorted String.le (sortedMapKeys walk).
Proof. apply StronglySorted_merge_sort; apply _. Qed.

Lemma sortedMapKeys_perm (walk : list string) : sortedMapKeys walk ≡ₚ walk.
Proof. apply merge_sort_Permutation. Qed.

Lemma sortedMapKeys_unique (walk1 walk2 : list string) :
  walk1 ≡ₚ walk2 → sortedMapKeys walk1 = sortedMapKeys walk2.
Proof.
  intros Hperm. apply (StronglySorted_unique String.le);
    [apply sortedMapKeys_sorted..|].
  by rewrite !sortedMapKeys_perm.
Qed.

Lemma walkOf_NoDup {V} (m : gmap string V) (walk : list string) :
  walkOf m walk → NoDup walk.
Proof. unfold walkOf. intros ->. apply NoDup_fst_map_to_list. Qed.

Lemma createColumns_spec `{JSONCodec} `{Machine} (cfg : tableCRUDConfig)
    (payload : gmap string any) (keys : list string) (idx : nat)
    (columns placeholders : list string) (args : list any)
    (columns' placeholders' : list string) (args' : list any) :
  createColumns cfg payload keys idx columns placeholders args
  = inl (columns', placeholders', args') →
  columns' = columns ++ (quoteIdentifier <$> keys)
  ∧ placeholders' = placeholders ++ (placeholder <$> seq idx (length keys))
  ∧ ∃ values, args' = args ++ values ∧ Forall2 (boundAs cfg payload) keys values.
Proof.
  revert idx columns placeholders args.
  induction keys as [|key keys IH]; intros idx columns placeholders args; simpl.
  { intros [= <- <- <-]. rewrite !app_nil_r. split_and!; [done..|].
    exists []. by rewrite app_nil_r. }
  destruct (normalizeCRUDValue key (payloadAt payload key) cfg) as [value|msg] eqn:Hval;
    [|done].
  intros (-> & -> & values & -> & Hvalues)%IH.
  split; [by rewrite <- app_assoc|]. split; [by rewrite <- app_assoc|].
  exists (value :: values). split; [by rewrite <- app_assoc|]. by constructor.
Qed.

Lemma updateClauses_spec `{JSONCodec} `{Machine} (cfg : tableCRUDConfig)
    (payload : gmap string any) (keys : list string) (idx : nat)
    (setClauses : list string) (args : list any)
    (setClauses' : list string) (args' : list any) :
  updateClauses cfg payload keys idx setClauses args = inl (setClauses', args') →
  setClauses'
  = setClauses
    ++ ((λ '(i, key), quoteIdentifier key +:+ " = " +:+ placeholder i)
          <$> zip (seq idx (length keys)) keys)
  ∧ ∃ values, args' = args ++ values ∧ Forall2 (boundAs cfg payload) keys values.
Proof.
  revert idx setClauses args.
  induction keys as [|key keys IH]; intros idx setClauses args; simpl.
  { intros [= <- <-]. rewrite !app_nil_r. split; [done|].
    exists []. by rewrite app_nil_r. }
  destruct (normalizeCRUDValue key (payloadAt payload key) cfg) as [value|msg] eqn:Hval;
    [|done].
  intros (-> & values & -> & Hvalues)%IH.
  split; [by rewrite <- app_assoc|].
  exists (value :: values). split; [by rewrite <- app_assoc|]. by constructor.
Qed.

Lemma validateCRUDPayload_walks (payload : gmap string any) (allowed : gset string)
    (pw1 pw2 rw1 rw2 : list string) :
  pw1 ≡ₚ pw2 → rw1 ≡ₚ rw2 →
  validateCRUDPayload pw1 rw1 payload allowed = validateCRUDPayload pw2 rw2 payload allowed.
Proof.
  intros Hp Hr. apply map_eq. intros key. rewrite !validateCRUDPayload_lookup.
  rewrite (bool_decide_ext (key ∈ rw1 ∧ _) (key ∈ rw2 ∧ emptyAt payload key = true))
    by (by rewrite Hr).
  by rewrite (bool_decide_ext (key ∈ pw1 ∧ _) (key ∈ pw2 ∧ key ∉ allowed))
    by (by rewrite Hp).
Qed.

(** C10.  The keys that drive statement construction are the payload keys
    in increasing bytewise order, whatever the order in which the map was
    walked; the columns, the placeholders and the bound arguments follow
    that order; hence one payload gives one statement text, one argument
    sequence and one response, on create and on update. *)
Theorem statements_follow_sorted_keys `{JSONCodec} `{Machine}
    (cfg : tableCRUDConfig) (id : Z) (payload : gmap string any)
    (walk1 walk2 : list string) :
  walkOf payload walk1 → walkOf payload walk2 →
  let keys := sortedMapKeys walk1 in
  (StronglySorted String.le keys ∧ NoDup keys ∧ ∀ key, key ∈ keys ↔ key ∈ dom payload)
  ∧ sortedMapKeys walk2 = keys
  ∧ createStatement cfg payload walk1 = createStatement cfg payload walk2
  ∧ updateStatement cfg id payload walk1 = updateStatement cfg id payload walk2
  ∧ (∀ stmt,
       keys ≠ [] → createStatement cfg payload walk1 = inl stmt →
       stmt_query stmt
       = "WITH ins AS (INSERT INTO " +:+ quoteTableName (Table cfg) +:+ " ("
         +:+ Join (quoteIdentifier <$> keys) ", " +:+ ") VALUES ("
         +:+ Join (placeholder <$> seq 0 (length keys)) ", "
         +:+ ") RETURNING *) SELECT to_jsonb(ins) FROM ins"
       ∧ Forall2 (boundAs cfg payload) keys (stmt_args stmt))
  ∧ (∀ stmt,
       keys = [] → createStatement cfg payload walk1 = inl stmt →
       stmt_query stmt
       = "WITH ins AS (INSERT INTO " +:+ quoteTableName (Table cfg)
         +:+ " DEFAULT VALUES RETURNING *) SELECT to_jsonb(ins) FROM ins"
       ∧ stmt_args stmt = [])
  ∧ (∀ setClauses stmt,
       updateStatement cfg id payload walk1 = UpdateRun setClauses stmt →
       setClauses
       = ((λ '(i, key), quoteIdentifier key +:+ " = " +:+ placeholder i)
            <$> zip (seq 0 (length keys)) keys)
         ++ (if TouchUpdatedAt cfg then ["updated_at = NOW()"] else [])
       ∧ stmt_query stmt
         = "WITH upd AS (UPDATE " +:+ quoteTableName (Table cfg) +:+ " SET "
           +:+ Join (((λ '(i, key), quoteIdentifier key +:+ " = " +:+ placeholder i)
                        <$> zip (seq 0 (length keys)) keys)
                     ++ (if TouchUpdatedAt cfg then ["updated_at = NOW()"] else []))
                    ", "
           +:+ " WHERE id = $" +:+ pretty (length keys + 1)%nat
           +:+ " RETURNING *) SELECT to_jsonb(upd) FROM upd"
       ∧ ∃ values,
           stmt_args stmt = values ++ [AInt64 id]
           ∧ Forall2 (boundAs cfg payload) keys values)
  ∧ (∀ (Rows : Type) (a : App Rows) (w1 w2 : walks),
       walksOf (RequiredOnCreate cfg) payload w1 →
       walksOf (RequiredOnCreate cfg) payload w2 →
       adminCreateOne a cfg payload w1 = adminCreateOne a cfg payload w2
       ∧ adminUpdateOne a cfg id payload w1 = adminUpdateOne a cfg id payload w2).
Proof.
  intros Hw1 Hw2 keys.
  assert (∀ w w', walkOf payload w → walkOf payload w' →
                  sortedMapKeys w = sortedMapKeys w') as Hsame.
  { intros w w' Hw Hw'. apply sortedMapKeys_unique. unfold walkOf in *.
    by rewrite Hw, Hw'. }
  split.
  { split; [apply sortedMapKeys_sorted|]. split.
    - unfold keys. rewrite sortedMapKeys_perm. by eapply walkOf_NoDup.
    - intros key. unfold keys. rewrite sortedMapKeys_perm.
      by apply walkOf_elem_of. }
  split; [symmetry; by apply Hsame|].
  split; [unfold createStatement; by rewrite (Hsame walk1 walk2)|].
  split; [unfold updateStatement; by rewrite (Hsame walk1 walk2)|].
  split.
  { intros stmt Hne. unfold createStatement. fold keys.
    destruct keys as [|k ks] eqn:Hkeys; [done|]. cbn [length Nat.eqb].
    destruct (createColumns _ _ _ _ _ _ _) as [[[columns placeholders] args]|msg] eqn:Hcols;
      [|done].
    apply createColumns_spec in Hcols as (-> & -> & values & -> & Hvalues).
    intros [= <-]. cbn [stmt_query stmt_args app]. done. }
  split.
  { intros stmt Hnil. unfold createStatement. fold keys. rewrite Hnil.
    cbn [length Nat.eqb]. by intros [= <-]. }
  split.
  { intros setClauses stmt. unfold updateStatement. fold keys.
    destruct ((length keys =? 0)%nat && negb (TouchUpdatedAt cfg)); [done|].
    destruct (updateClauses _ _ _ _ _ _) as [[clauses args]|msg] eqn:Hclauses; [|done].
    apply updateClauses_spec in Hclauses as (-> & values & -> & Hvalues).
    intros [= <- <-]. cbn [stmt_args stmt_query app].
    rewrite <- (Forall2_length _ _ _ Hvalues).
    split_and!; [| |by exists values];
      by destruct (TouchUpdatedAt cfg); rewrite ?app_nil_r. }
  intros Rows a w1 w2 (Hv1 & Hr1 & Hs1) (Hv2 & Hr2 & Hs2).
  unfold adminCreateOne, adminUpdateOne, createStatement, updateStatement.
  rewrite (Hsame _ _ Hs1 Hs2).
  rewrite (validateCRUDPayload_walks payload _ (validateWalk w1) (validateWalk w2)
             (requiredWalk w1) (requiredWalk w2))
    by (unfold walkOf, walkOfSet in *; by rewrite ?Hv1, ?Hv2, ?Hr1, ?Hr2).
  rewrite (validateCRUDPayload_walks payload _ (validateWalk w1) (validateWalk w2) [] [])
    by (unfold walkOf in *; by rewrite ?Hv1, ?Hv2).
  done.
Qed.

Lemma statements_follow_sorted_keys_witness :
  @createStatement sampleCodec amd64 cfgPortfolio samplePayload ["title"; "brand"]
  = @createStatement sampleCodec amd64 cfgPortfolio samplePayload ["brand"; "title"]
  ∧ @updateStatement sampleCodec amd64 cfgPortfolio 4 samplePayload ["title"; "brand"]
    = @updateStatement sampleCodec amd64 cfgPortfolio 4 samplePayload ["brand"; "title"].
Proof.
  assert (walkOf samplePayload ["title"; "brand"]) as Hw1.
  { unfold walkOf. apply (bool_decide_unpack _). vm_compute. exact I. }
  assert (walkOf samplePayload ["brand"; "title"]) as Hw2.
  { unfold walkOf. apply (bool_decide_unpack _). vm_compute. exact I. }
  destruct (@statements_follow_sorted_keys sampleCodec amd64 cfgPortfolio 4 samplePayload
              ["title"; "brand"] ["brand"; "title"] Hw1 Hw2)
    as (_ & _ & Hcreate & Hupdate & _).
  by split.
Defined.

Example create_statement_sample :
  @createStatement sampleCodec amd64 cfgPortfolio samplePayload ["title"; "brand"]
  = inl {| stmt_query :=
             "WITH ins AS (INSERT INTO " +:+ quoteTableName "public.portfolio_items"
             +:+ " (" +:+ quoteIdentifier "brand" +:+ ", " +:+ quoteIdentifier "title"
             +:+ ") VALUES ($1, $2) RETURNING *) SELECT to_jsonb(ins) FROM ins";
           stmt_args := [AString "y"; AString "x"] |}.
Proof. vm_compute. reflexivity. Qed.

Example update_statement_sample :
  @updateStatement sampleCodec amd64 cfgPortfolio 4 samplePayload ["title"; "brand"]
  = UpdateRun [quoteIdentifier "brand" +:+ " = $1"; quoteIdentifier "title" +:+ " = $2"]
      {| stmt_query :=
           "WITH upd AS (UPDATE " +:+ quoteTableName "public.portfolio_items"
           +:+ " SET " +:+ quoteIdentifier "brand" +:+ " = $1, "
           +:+ quoteIdentifier "title" +:+ " = $2"
           +:+ " WHERE id = $3 RETURNING *) SELECT to_jsonb(upd) FROM upd";
         stmt_args := [AString "y"; AString "x"; AInt64 4] |}.
Proof. vm_compute. reflexivity. Qed.

(** ** Update with an empty payload *)

(** C7.  An update with an empty payload is answered "empty payload"
    exactly when the descriptor does not ask for the updated-at touch.  When
    it does, the statement sent sets [updated_at] and nothing else on the row
    whose id is the request's, and the handler answers with the row the
    database returns (404 when no row has that id). *)
Theorem update_empty_payload `{JSONCodec} `{Machine} {Rows : Type}
    (a : App Rows) (cfg : tableCRUDConfig) (id : Z) (w : walks) :
  walkOf (∅ : gmap string any) (validateWalk w) →
  walkOf (∅ : gmap string any) (sortWalk w) →
  let touch :=
    {| stmt_query :=
         "WITH upd AS (UPDATE " +:+ quoteTableName (Table cfg)
         +:+ " SET updated_at = NOW() WHERE id = $1 RETURNING *) SELECT to_jsonb(upd) FROM upd";
       stmt_args := [AInt64 id] |} in
  (adminUpdateOne a cfg id ∅ w = JSONResponse StatusBadRequest (errorBody "empty payload")
   ↔ TouchUpdatedAt cfg = false)
  ∧ (TouchUpdatedAt cfg = true →
     updateStatement cfg id ∅ (sortWalk w) = UpdateRun ["updated_at = NOW()"] touch
     ∧ (∀ raw data,
          QueryRowScan a (stmt_query touch) (stmt_args touch) = RowBytes raw →
          json_decode raw = Some data →
          adminUpdateOne a cfg id ∅ w = JSONResponse StatusOK (successBody data))
     ∧ (QueryRowScan a (stmt_query touch) (stmt_args touch) = ErrNoRows →
        adminUpdateOne a cfg id ∅ w
        = JSONResponse StatusNotFound (errorBody "record not found"))).
Proof.
  intros Hv%walkOf_empty Hs%walkOf_empty touch. rewrite Hs.
  assert (updateStatement cfg id ∅ []
          = if TouchUpdatedAt cfg then UpdateRun ["updated_at = NOW()"] touch
            else UpdateEmptyPayload) as Hplan.
  { unfold updateStatement. by destruct (TouchUpdatedAt cfg). }
  assert (adminUpdateOne a cfg id ∅ w
          = match updateStatement cfg id ∅ [] with
            | UpdateEmptyPayload => JSONResponse StatusBadRequest (errorBody "empty payload")
            | UpdateInvalidValue msg => JSONResponse StatusBadRequest (errorBody msg)
            | UpdateRun _ stmt =>
                match QueryRowScan a (stmt_query stmt) (stmt_args stmt) with
                | RowBytes raw =>
                    match json_decode raw with
                    | Some data => JSONResponse StatusOK (successBody data)
                    | None =>
                        JSONResponse StatusInternalServerError
                          (errorBody "failed to parse updated record")
                    end
                | ErrNoRows => JSONResponse StatusNotFound (errorBody "record not found")
                | RowError _ =>
                    JSONResponse StatusInternalServerError
                      (errorBody "failed to update record")
                end
            end) as Hresp.
  { unfold adminUpdateOne. by rewrite Hv, Hs. }
  rewrite Hresp, Hplan. split.
  - destruct (TouchUpdatedAt cfg); [|done]. split; [|done].
    destruct (QueryRowScan a _ _); [destruct (json_decode _)|..]; intros [=].
  - intros ->. split; [done|]. split.
    + intros raw data -> ->. done.
    + intros ->. done.
Qed.

Lemma update_empty_payload_witness :
  @adminUpdateOne sampleCodec amd64 _ sampleApp cfgTuning 1 ∅ noWalks
  = JSONResponse StatusOK
      (successBody (AMap {[ "id" := AFloat64 f64_one; "brand" := AString "x" ]}))
  ∧ @adminUpdateOne sampleCodec amd64 _ sampleApp cfgBanners 1 ∅ noWalks
    = JSONResponse StatusBadRequest (errorBody "empty payload").
Proof.
  assert (walkOf (∅ : gmap string any) []) as Hw by (by apply walkOf_empty).
  split.
  - destruct (@update_empty_payload sampleCodec amd64 _ sampleApp cfgTuning 1 noWalks Hw Hw)
      as [_ Htouch].
    destruct (Htouch eq_refl) as (_ & Hrow & _).
    apply (Hrow (jsonText "{'id':1,'brand':'x'}")); vm_compute; reflexivity.
  - destruct (@update_empty_payload sampleCodec amd64 _ sampleApp cfgBanners 1 noWalks Hw Hw)
      as [Hempty _].
    by apply Hempty.
Defined.

(** ** Resource identifiers *)

Lemma cutPrefix_app (p r : string) : cutPrefix (p +:+ r) p = Some r.
Proof.
  induction p as [|a p IH]; simpl; [by destruct r|].
  by rewrite Ascii.eqb_refl.
Qed.

Lemma HasPrefix_app (p r : string) : HasPrefix (p +:+ r) p = true.
Proof.
  induction p as [|a p IH]; simpl; [by destruct r|].
  by rewrite Ascii.eqb_refl.
Qed.

Lemma app_not_self (p r : string) : r ≠ "" → p +:+ r ≠ p.
Proof.
  intros Hr. induction p as [|a p IH]; simpl; [done|].
  intros [= Heq]. by apply IH.
Qed.

Lemma parseDigits_digits (s : string) (n v : Z) :
  parseDigits s n = inl v → allDigits s = true.
Proof.
  unfold allDigits. revert n. induction s as [|c s IH]; intros n; simpl; [done|].
  destruct (digitval c) as [d|] eqn:Hd; [|done].
  destruct (2 ^ 64 - 1 <? 10 * n + d); [done|].
  intros Hs%IH. rewrite Hs, andb_true_r. by apply bool_decide_eq_true_2.
Qed.

Lemma parseDigits_range (s : string) (n v : Z) :
  0 ≤ n → parseDigits s n = inl v → 0 ≤ v.
Proof.
  revert n. induction s as [|c s IH]; intros n Hn; simpl; [by intros [= <-]|].
  destruct (digitval c) as [d|] eqn:Hd; [|done].
  destruct (2 ^ 64 - 1 <? 10 * n + d); [done|].
  apply IH. unfold digitval in Hd.
  destruct ((48 <=? N_of_ascii c)%N && (N_of_ascii c <=? 57)%N) eqn:Hc; [|done].
  apply andb_true_iff in Hc as [?%N.leb_le ?%N.leb_le]. simplify_eq. lia.
Qed.

Lemma ParseInt_integer (s : string) (id : Z) :
  ParseInt s = inl id → isDecimalInteger s = true ∧ inInt64 id = true.
Proof.
  destruct s as [|c r]; [done|]. unfold ParseInt, isDecimalInteger.
  assert (∀ t v, ParseUint t = inl v → t ≠ "" ∧ allDigits t = true ∧ 0 ≤ v) as Huint.
  { intros [|c' t] v; [done|]. unfold ParseUint. intros Hv.
    split; [done|]. split; [by eapply parseDigits_digits|].
    by eapply (parseDigits_range _ 0). }
  unfold inInt64, minInt64, maxInt64.
  destruct (codeb c 43) eqn:Hplus; [|destruct (codeb c 45) eqn:Hminus]; cbn [orb].
  - destruct (ParseUint r) as [un|] eqn:Hr; [|done].
    apply Huint in Hr as (Hne & Hd & Hpos). cbn [negb andb].
    destruct (2 ^ 63 <=? un) eqn:Hle; [done|]. intros [= <-].
    rewrite Hd, bool_decide_eq_false_2 by done. split; [done|]. lia.
  - destruct (ParseUint r) as [un|] eqn:Hr; [|done].
    apply Huint in Hr as (Hne & Hd & Hpos). cbn [negb andb].
    destruct (2 ^ 63 <? un) eqn:Hle; [done|]. intros [= <-].
    rewrite Hd, bool_decide_eq_false_2 by done. split; [done|]. lia.
  - destruct (ParseUint (String c r)) as [un|] eqn:Hr; [|done].
    apply Huint in Hr as (Hne & Hd & Hpos). cbn [negb andb].
    destruct (2 ^ 63 <=? un) eqn:Hle; [done|]. intros [= <-].
    split; [done|]. lia.
Qed.

Lemma append_assoc (p q r : string) : p +:+ q +:+ r = (p +:+ q) +:+ r.
Proof.
  induction p as [|a p IH]; [done|].
  change (String a (p +:+ q +:+ r) = String a ((p +:+ q) +:+ r)). by rewrite IH.
Qed.

Lemma HasPrefix_self (p : string) : HasPrefix p p = true.
Proof. induction p as [|a p IH]; simpl; [done|]. by rewrite Ascii.eqb_refl. Qed.

Lemma cutPrefix_self (p : string) : cutPrefix p p = Some "".
Proof. induction p as [|a p IH]; simpl; [done|]. by rewrite Ascii.eqb_refl. Qed.

(** C6 (amended).  An [id] query parameter that is non-empty after trimming
    white space decides the identifier, whatever the path; otherwise the
    segment after the base path does, and a segment with a further slash is
    an invalid identifier; text that is not a decimal integer (or does not
    fit in 64 bits) is an invalid identifier; with neither source the request
    is a collection request.  The handler answers an invalid identifier with
    400 "invalid id". *)
Theorem resource_identifier (r : request) (basePath : string) :
  let idParam := TrimSpace (QueryGet (URL_Query r) "id") in
  let base := TrimSuffix basePath "/" in
  let path := TrimSuffix (TrimSpace (URL_Path r)) "/" in
  (idParam ≠ "" → parseResourceID r basePath = identifierFrom idParam)
  ∧ (∀ idPart,
       idParam = "" → path = base +:+ "/" +:+ idPart → idPart ≠ "" →
       parseResourceID r basePath
       = if ContainsByte idPart slash then inr ErrInvalidIDPath
         else identifierFrom idPart)
  ∧ (idParam = "" →
     path = base ∨ path = base +:+ "/" ∨ HasPrefix path (base +:+ "/") = false →
     parseResourceID r basePath = inl None)
  ∧ (∀ s, isDecimalInteger s = false → ∃ e, identifierFrom s = inr (ErrParseInt e))
  ∧ (∀ s id, identifierFrom s = inl (Some id) →
             isDecimalInteger s = true ∧ inInt64 id = true)
  ∧ (∀ ops cfg e,
       parseResourceID r (Path cfg) = inr e →
       makeAdminTableCRUDHandler ops cfg r
       = JSONResponse StatusBadRequest (errorBody "invalid id")).
Proof.
  intros idParam base path.
  split.
  { intros Hne. unfold parseResourceID. fold idParam.
    by rewrite bool_decide_eq_false_2. }
  split.
  { intros idPart Hid Hpath Hpart. unfold parseResourceID. fold idParam base path.
    rewrite Hid, bool_decide_eq_true_2 by done. cbn [negb].
    rewrite Hpath.
    rewrite bool_decide_eq_false_2 by (by apply app_not_self).
    rewrite append_assoc, HasPrefix_app. cbn [negb].
    unfold TrimPrefix. rewrite cutPrefix_app.
    by rewrite bool_decide_eq_false_2. }
  split.
  { intros Hid Hpath. unfold parseResourceID. fold idParam base path.
    rewrite Hid, bool_decide_eq_true_2 by done. cbn [negb].
    destruct Hpath as [->|[->| ->]].
    - by rewrite bool_decide_eq_true_2.
    - case_bool_decide; [done|]. rewrite HasPrefix_self. cbn [negb].
      unfold TrimPrefix. rewrite cutPrefix_self.
      by rewrite bool_decide_eq_true_2.
    - by case_bool_decide. }
  split.
  { intros s Hs. unfold identifierFrom.
    destruct (ParseInt s) as [id|e] eqn:Hparse; [|by exists e].
    apply ParseInt_integer in Hparse as [Hint _]. congruence. }
  split.
  { intros s id. unfold identifierFrom.
    destruct (ParseInt s) as [id'|e] eqn:Hparse; [|done].
    intros [= <-]. by apply ParseInt_integer in Hparse. }
  intros ops cfg e He. unfold makeAdminTableCRUDHandler. by rewrite He.
Qed.

Lemma resource_identifier_witness :
  parseResourceID (getRequest "/admin/banners/7" [("id", " 12 ")]) "/admin/banners"
  = inl (Some 12)
  ∧ parseResourceID (getRequest "/admin/banners/7/8" []) "/admin/banners"
    = inr ErrInvalidIDPath
  ∧ parseResourceID (getRequest "/admin/banners/" []) "/admin/banners" = inl None
  ∧ makeAdminTableCRUDHandler sampleOps cfgBanners (getRequest "/admin/banners/x7" [])
    = JSONResponse StatusBadRequest (errorBody "invalid id").
Proof.
  split; [|split; [|split]].
  - destruct (resource_identifier (getRequest "/admin/banners/7" [("id", " 12 ")])
                "/admin/banners") as [Hquery _].
    rewrite Hquery; [vm_compute; reflexivity|]. vm_compute. discriminate.
  - destruct (resource_identifier (getRequest "/admin/banners/7/8" []) "/admin/banners")
      as (_ & Hpath & _).
    rewrite (Hpath "7/8"); [vm_compute; reflexivity|vm_compute; reflexivity..|].
    discriminate.
  - destruct (resource_identifier (getRequest "/admin/banners/" []) "/admin/banners")
      as (_ & _ & Hnone & _).
    apply Hnone; [vm_compute; reflexivity|]. left. vm_compute. reflexivity.
  - destruct (resource_identifier (getRequest "/admin/banners/x7" []) "/admin/banners")
      as (_ & _ & _ & _ & _ & Hbad).
    apply (Hbad sampleOps cfgBanners (ErrParseInt ErrSyntax)). vm_compute. reflexivity.
Defined.

(** C6 as stated fails: a query parameter that is present and not empty, but
    blank, does not take precedence; the path segment is used. *)
Lemma blank_query_id_yields_to_path :
  QueryGet (URL_Query (getRequest "/admin/banners/7" [("id", " ")])) "id" = " "
  ∧ identifierFrom " " = inr (ErrParseInt ErrSyntax)
  ∧ parseResourceID (getRequest "/admin/banners/7" [("id", " ")]) "/admin/banners"
    = inl (Some 7).
Proof. split; [|split]; vm_compute; reflexivity. Qed.

(** ** Value coercion *)

Lemma digits2_pos_bound (m : positive) : Z.pos m < 2 ^ Z.pos (digits2_pos m).
Proof.
  induction m as [m IH|m IH|]; cbn [digits2_pos]; [| |done];
    rewrite Pos2Z.inj_succ, Z.pow_succ_r by lia; lia.
Qed.

Lemma bounded_mantissa (m : positive) (e : Z) :
  bounded 53 1024 m e = true → Z.pos m < 2 ^ 53.
Proof.
  unfold bounded, canonical_mantissa, fexp, emin.
  intros [Hc%Z.eqb_eq _]%andb_true_iff.
  pose proof (digits2_pos_bound m) as Hm.
  assert (Z.pos (digits2_pos m) ≤ 53) as Hd by lia.
  eapply Z.lt_le_trans; [exact Hm|]. by apply Z.pow_le_mono_r.
Qed.

Lemma round53_small (t : Z) : Z.abs t < 2 ^ 53 → round53 t = t.
Proof.
  intros Ht. unfold round53.
  destruct (decide (Z.abs t = 0)) as [H0|H0].
  { rewrite H0. by cbn. }
  assert (Z.log2 (Z.abs t) < 53) by (apply Z.log2_lt_pow2; lia).
  rewrite (proj2 (Z.leb_le _ _)) by lia. done.
Qed.

Lemma round53_exact (s : bool) (m : positive) (e : Z) :
  Z.pos m < 2 ^ 53 → 0 ≤ e →
  round53 ((if s then -1 else 1) * (Z.pos m * 2 ^ e))
  = (if s then -1 else 1) * (Z.pos m * 2 ^ e).
Proof.
  intros Hm He. set (v := (if s then -1 else 1) * (Z.pos m * 2 ^ e)).
  assert (0 < 2 ^ e) as Hpow by (by apply Z.pow_pos_nonneg).
  assert (Z.abs v = Z.pos m * 2 ^ e) as Habs by (unfold v; destruct s; lia).
  unfold round53. rewrite Habs.
  rewrite Z.log2_mul_pow2 by lia.
  assert (Z.log2 (Z.pos m) < 53) as Hlog by (apply Z.log2_lt_pow2; lia).
  set (k := e + Z.log2 (Z.pos m) + 1 - 53).
  destruct (k <=? 0) eqn:Hk; [done|]. apply Z.leb_gt in Hk.
  assert (2 ^ e = 2 ^ (e - k) * 2 ^ k) as Hsplit.
  { rewrite <- Z.pow_add_r by lia. f_equal. lia. }
  assert (0 < 2 ^ k) as Hpk by (apply Z.pow_pos_nonneg; lia).
  assert (0 < 2 ^ (k - 1)) as Hhalf by (apply Z.pow_pos_nonneg; lia).
  rewrite Hsplit, (Z.mul_assoc (Z.pos m)), Z.mod_mul, Z.div_mul by lia.
  rewrite (proj2 (Z.ltb_ge _ _)) by lia.
  rewrite (proj2 (Z.eqb_neq 0 _)) by lia. cbn [orb andb].
  rewrite <- Z.mul_assoc, <- Hsplit, <- Habs. lia.
Qed.

Lemma round53_bound (n : Z) : inInt64 n = true → Z.abs (round53 n) ≤ 2 ^ 63.
Proof.
  unfold inInt64, minInt64, maxInt64.
  intros [?%Z.leb_le ?%Z.leb_le]%andb_true_iff.
  destruct (decide (Z.abs n < 2 ^ 53)) as [Hs|Hs].
  { rewrite round53_small by done. lia. }
  unfold round53. set (a := Z.abs n).
  assert (2 ^ 53 ≤ a ≤ 2 ^ 63) as Ha by (unfold a; lia).
  assert (53 ≤ Z.log2 a) as Hlo by (apply Z.log2_le_pow2; lia).
  assert (Z.log2 a < 64) as Hhi by (apply Z.log2_lt_pow2; lia).
  pose proof (Z.log2_spec a ltac:(lia)) as Hspec.
  set (L := Z.log2 a) in *.
  rewrite (proj2 (Z.leb_gt _ _)) by lia.
  set (k := L + 1 - 53).
  assert (0 < 2 ^ k) as Hpk by (apply Z.pow_pos_nonneg; lia).
  pose proof (Z.div_mod a (2 ^ k) ltac:(lia)) as Hdm.
  pose proof (Z.mod_pos_bound a (2 ^ k) Hpk) as Hr.
  set (q := a / 2 ^ k) in *. set (r := a mod 2 ^ k) in *.
  assert (2 ^ Z.succ L = 2 ^ 53 * 2 ^ k) as HL.
  { rewrite <- Z.pow_add_r by lia. f_equal. lia. }
  assert (q < 2 ^ 53) as Hq by nia.
  assert (Z.abs (Z.sgn n) = 1) as Hsgn by lia.
  set (q' := if (2 ^ (k - 1) <? r) || (r =? 2 ^ (k - 1)) && Z.odd q then q + 1 else q).
  rewrite Z.abs_mul, Hsgn, Z.mul_1_l.
  destruct (decide (L = 63)) as [HL63|HL63].
  - assert (a = 2 ^ 63) as Ha63.
    { rewrite HL63 in Hspec. lia. }
    assert (k = 11) as Hk11 by lia.
    unfold q', q, r. rewrite Ha63, Hk11. by vm_compute.
  - assert (q' ≤ q + 1) as Hq' by (unfold q'; by destruct (_ || _); lia).
    assert (0 ≤ q') as Hq0.
    { unfold q'. assert (0 ≤ q) by (apply Z.div_pos; lia). destruct (_ || _); lia. }
    rewrite Z.abs_eq by nia.
    assert (2 ^ Z.succ L ≤ 2 ^ 63) by (apply Z.pow_le_mono_r; lia).
    nia.
Qed.

Lemma float64_eqb_of_Z (s : bool) (m : positive) (e : Z) (w : Z) :
  float64_eqb (S754_finite s m e) (float64_of_Z w) = true
  → Z.pos m * 2 ^ (e - Z.min e 0) = Z.abs w * 2 ^ (0 - Z.min e 0).
Proof.
  destruct w as [|p|p]; cbn [float64_of_Z float64_eqb]; [done|..];
    intros [_ Heq%Z.eqb_eq]%andb_true_iff; exact Heq.
Qed.

Lemma float64_trunc_integral (x : spec_float) (v : Z) :
  float64_integral x = Some v → float64_trunc x = Some v.
Proof.
  destruct x as [s|s| |s m e]; cbn [float64_integral float64_trunc]; try done.
  destruct (0 <=? e); [intros [= <-]; f_equal; destruct s; lia|].
  destruct (_ =? 0); [|done]. intros [= <-]. f_equal. destruct s; lia.
Qed.

Lemma coerce_integral (overflow : spec_float → Z) (x : spec_float) (v : Z) :
  float64_valid x = true → float64_integral x = Some v → inInt64 v = true →
  int64_of_float64 overflow x = v
  ∧ float64_eqb x (float64_of_int64 v) = true.
Proof.
  intros Hvalid Hint Hrange. unfold int64_of_float64.
  rewrite (float64_trunc_integral x v Hint), Hrange. split; [done|].
  unfold float64_of_int64.
  destruct x as [s|s| |s m e]; cbn [float64_integral float64_valid] in *; try done.
  { by simplify_eq. }
  apply bounded_mantissa in Hvalid.
  destruct (0 <=? e) eqn:He.
  - apply Z.leb_le in He. simplify_eq. rewrite round53_exact by done.
    assert (0 < 2 ^ e) by (by apply Z.pow_pos_nonneg).
    assert (0 < Z.pos m * 2 ^ e) as Hpos by lia.
    destruct (Z.pos m * 2 ^ e) as [|p|p] eqn:Hp; [lia| |lia].
    destruct s;
      [change (-1 * Z.pos p) with (Z.neg p)|change (1 * Z.pos p) with (Z.pos p)];
      cbn [float64_of_Z float64_eqb];
      rewrite Z.min_r, Z.sub_0_r, Z.sub_diag by lia; cbn [Bool.eqb andb];
      apply Z.eqb_eq; lia.
  - apply Z.leb_gt in He.
    destruct (Z.pos m mod 2 ^ (- e) =? 0) eqn:Hmod; [|done].
    apply Z.eqb_eq in Hmod. simplify_eq.
    assert (0 < 2 ^ (- e)) as Hpow by (apply Z.pow_pos_nonneg; lia).
    pose proof (Z.div_mod (Z.pos m) (2 ^ (- e)) ltac:(lia)) as Hdm.
    rewrite Hmod, Z.add_0_r in Hdm.
    set (p := Z.pos m / 2 ^ (- e)) in *.
    assert (0 < p) as Hp by nia.
    assert (p ≤ Z.pos m) as Hle by nia.
    rewrite round53_small by (destruct s; lia).
    destruct p as [|p'|p'] eqn:Hp'; [lia| |lia].
    destruct s;
      [change (-1 * Z.pos p') with (Z.neg p')|change (1 * Z.pos p') with (Z.pos p')];
      cbn [float64_of_Z float64_eqb];
      rewrite Z.min_l, Z.sub_diag by lia; cbn [Bool.eqb andb];
      apply Z.eqb_eq; replace (0 - e) with (- e) by lia; lia.
Qed.

Lemma coerce_fractional (overflow : spec_float → Z) (x : spec_float) :
  float64_valid x = true → float64_integral x = None →
  float64_eqb x (float64_of_int64 (int64_of_float64 overflow x)) = false.
Proof.
  intros Hvalid Hint. unfold float64_of_int64.
  destruct x as [s|s| |s m e]; cbn [float64_integral float64_valid] in *; try done.
  { by destruct (round53 _). }
  apply bounded_mantissa in Hvalid.
  destruct (0 <=? e) eqn:He; [done|]. apply Z.leb_gt in He.
  destruct (Z.pos m mod 2 ^ (- e) =? 0) eqn:Hmod; [done|]. apply Z.eqb_neq in Hmod.
  assert (0 < 2 ^ (- e)) as Hpow by (apply Z.pow_pos_nonneg; lia).
  pose proof (Z.div_mod (Z.pos m) (2 ^ (- e)) ltac:(lia)) as Hdm.
  pose proof (Z.mod_pos_bound (Z.pos m) (2 ^ (- e)) Hpow) as Hr.
  assert (0 ≤ Z.pos m / 2 ^ (- e)) as Hq by (apply Z.div_pos; lia).
  set (p := Z.pos m / 2 ^ (- e)) in *.
  assert (p ≤ Z.pos m) as Hle by nia.
  unfold int64_of_float64. cbn [float64_trunc]. rewrite (proj2 (Z.leb_gt _ _) He).
  fold p.
  assert (inInt64 (if s then - p else p) = true) as ->.
  { unfold inInt64, minInt64, maxInt64. apply andb_true_iff.
    split; apply Z.leb_le; destruct s; lia. }
  rewrite round53_small by (destruct s; lia).
  destruct (float64_eqb _ _) eqn:Heq; [|done].
  apply float64_eqb_of_Z in Heq.
  rewrite Z.min_l, Z.sub_diag in Heq by lia.
  replace (0 - e) with (- e) in Heq by lia.
  assert (Z.abs (if s then - p else p) = p) as Habs by (destruct s; lia).
  rewrite Habs in Heq. lia.
Qed.

Lemma coerce_too_large `{Machine} (x : spec_float) (v : Z) :
  float64_integral x = Some v → v < minInt64 ∨ maxInt64 + 1 < v →
  float64_eqb x (float64_of_int64 (int64_of_float64 int64_overflow x)) = false.
Proof.
  intros Hint Hbig. unfold int64_of_float64.
  rewrite (float64_trunc_integral x v Hint).
  assert (inInt64 v = false) as ->.
  { unfold inInt64, minInt64, maxInt64 in *. apply andb_false_iff.
    destruct Hbig; [left; apply Z.leb_gt|right; apply Z.leb_gt]; lia. }
  pose proof (round53_bound _ (int64_overflow_range x)) as Hw.
  unfold float64_of_int64. set (w := round53 (int64_overflow x)) in *.
  destruct (float64_eqb _ _) eqn:Heq; [|done].
  unfold minInt64, maxInt64 in Hbig.
  destruct x as [s|s| |s m e]; cbn [float64_integral] in Hint; try done.
  { simplify_eq. lia. }
  apply float64_eqb_of_Z in Heq.
  destruct (0 <=? e) eqn:He.
  - apply Z.leb_le in He. simplify_eq.
    rewrite Z.min_r, Z.sub_0_r, Z.sub_diag, Z.pow_0_r, Z.mul_1_r in Heq by lia.
    destruct s; lia.
  - apply Z.leb_gt in He.
    destruct (Z.pos m mod 2 ^ (- e) =? 0) eqn:Hmod; [|done].
    apply Z.eqb_eq in Hmod. simplify_eq.
    assert (0 < 2 ^ (- e)) as Hpow by (apply Z.pow_pos_nonneg; lia).
    pose proof (Z.div_mod (Z.pos m) (2 ^ (- e)) ltac:(lia)) as Hdm.
    rewrite Hmod, Z.add_0_r in Hdm.
    rewrite Z.min_l, Z.sub_diag, Z.pow_0_r, Z.mul_1_r in Heq by lia.
    replace (0 - e) with (- e) in Heq by lia.
    set (p := Z.pos m / 2 ^ (- e)) in *.
    assert (2 ^ 63 < p) as Hp by (destruct s; lia).
    nia.
Qed.

Lemma round53_two63 (n : Z) : 2 ^ 63 - 512 ≤ n < 2 ^ 63 → round53 n = 2 ^ 63.
Proof.
  intros Hn.
  assert (2 ^ 63 = 9223372036854775808) as E63 by reflexivity.
  assert (2 ^ 62 = 4611686018427387904) as E62 by reflexivity.
  unfold round53. rewrite Z.abs_eq by lia.
  assert (Z.log2 n = 62) as ->.
  { apply Z.log2_unique; [lia|]. change (Z.succ 62) with 63. lia. }
  change (62 + 1 - 53) with 10. cbn [Z.leb Z.compare].
  change (2 ^ 10) with 1024. change (2 ^ (10 - 1)) with 512.
  pose proof (Z.div_mod n 1024 ltac:(lia)) as Hdm.
  pose proof (Z.mod_pos_bound n 1024 ltac:(lia)) as Hr.
  set (q := n / 1024) in *. set (r := n mod 1024) in *.
  assert (q = 9007199254740991) as Hq by lia.
  assert (512 ≤ r) as Hr' by lia.
  assert ((512 <? r) || (r =? 512) && Z.odd q = true) as ->.
  { rewrite Hq. destruct (Z.ltb_spec 512 r); [done|].
    assert (r = 512) as -> by lia. done. }
  rewrite Z.sgn_pos by lia. lia.
Qed.

Lemma round53_below_two63 (n : Z) :
  inInt64 n = true → n < 2 ^ 63 - 512 → round53 n < 2 ^ 63.
Proof.
  unfold inInt64, minInt64, maxInt64.
  intros [Hlo%Z.leb_le Hhi%Z.leb_le]%andb_true_iff Hn.
  assert (2 ^ 63 = 9223372036854775808) as E63 by reflexivity.
  destruct (decide (Z.abs n < 2 ^ 53)) as [Hs|Hs].
  { rewrite round53_small by done. lia. }
  unfold round53. set (a := Z.abs n).
  assert (2 ^ 53 ≤ a) as Ha by (unfold a; lia).
  assert (53 ≤ Z.log2 a) as Hlog by (apply Z.log2_le_pow2; lia).
  set (L := Z.log2 a) in *.
  rewrite (proj2 (Z.leb_gt _ _)) by lia.
  set (k := L + 1 - 53).
  assert (0 < 2 ^ (k - 1)) as Hhalf by (apply Z.pow_pos_nonneg; lia).
  assert (2 ^ k = 2 * 2 ^ (k - 1)) as Hk.
  { rewrite <- Z.pow_succ_r by lia. f_equal. lia. }
  pose proof (Z.div_mod a (2 ^ k) ltac:(lia)) as Hdm.
  pose proof (Z.mod_pos_bound a (2 ^ k) ltac:(lia)) as Hr.
  set (q := a / 2 ^ k) in *. set (r := a mod 2 ^ k) in *.
  assert (0 ≤ q) as Hq by (apply Z.div_pos; lia).
  set (half := 2 ^ (k - 1)) in *.
  set (q' := if (half <? r) || (r =? half) && Z.odd q then q + 1 else q).
  assert (0 ≤ q' ∧ q' * 2 ^ k ≤ a + half) as [Hq0 Hq'].
  { unfold q'. destruct (Z.ltb_spec half r), (Z.eqb_spec r half);
      cbn [orb andb]; try destruct (Z.odd q); nia. }
  destruct (Z.sgn_spec n) as [[? ->]|[[? ->]|[? ->]]]; [|lia|nia].
  assert (a = n) as Han by (unfold a; lia).
  assert (L < 63) as HL.
  { unfold L. apply Z.log2_lt_pow2; lia. }
  assert (half ≤ 2 ^ 9) as Hh.
  { unfold half. apply Z.pow_le_mono_r; lia. }
  change (2 ^ 9) with 512 in Hh. lia.
Qed.

Lemma coerce_two63 `{Machine} (x : spec_float) :
  float64_integral x = Some (maxInt64 + 1) →
  int64_of_float64 int64_overflow x = int64_overflow x
  ∧ float64_eqb x (float64_of_int64 (int64_overflow x))
    = (maxInt64 - 511 <=? int64_overflow x).
Proof.
  intros Hint.
  assert (2 ^ 63 = 9223372036854775808) as E63 by reflexivity.
  split.
  { unfold int64_of_float64. by rewrite (float64_trunc_integral x _ Hint). }
  pose proof (int64_overflow_range x) as Hrange.
  set (n := int64_overflow x) in *.
  assert (∀ w, float64_eqb x (float64_of_Z w) = true ↔ w = 2 ^ 63) as Heq.
  { intros w. unfold maxInt64 in Hint.
    destruct x as [s|s| |s m e]; cbn [float64_integral] in Hint; try done.
    assert (s = false) as ->.
    { destruct s; [exfalso|done].
      destruct (0 <=? e) eqn:He; [injection Hint as Hint; lia|].
      apply Z.leb_gt in He.
      destruct (_ =? 0); [|done]. injection Hint as Hint.
      assert (0 < 2 ^ (- e)) by (apply Z.pow_pos_nonneg; lia).
      assert (0 ≤ Z.pos m / 2 ^ (- e)) by (apply Z.div_pos; lia). lia. }
    assert (∀ p, (Z.pos m * 2 ^ (e - Z.min e 0) =? Z.pos p * 2 ^ (0 - Z.min e 0)) = true
                 ↔ Z.pos p = 2 ^ 63) as Hnum.
    { intros p. rewrite Z.eqb_eq. destruct (0 <=? e) eqn:He.
      - apply Z.leb_le in He. injection Hint as Hint.
        rewrite Z.min_r, Z.sub_0_r, Z.sub_diag, Z.pow_0_r, Z.mul_1_r by lia. lia.
      - apply Z.leb_gt in He.
        destruct (Z.pos m mod 2 ^ (- e) =? 0) eqn:Hmod; [|done].
        apply Z.eqb_eq in Hmod. injection Hint as Hint.
        assert (0 < 2 ^ (- e)) as Hpow by (apply Z.pow_pos_nonneg; lia).
        pose proof (Z.div_mod (Z.pos m) (2 ^ (- e)) ltac:(lia)) as Hdm.
        rewrite Hmod, Z.add_0_r in Hdm.
        rewrite Z.min_l, Z.sub_diag, Z.pow_0_r, Z.mul_1_r by lia.
        replace (0 - e) with (- e) by lia.
        set (t := Z.pos m / 2 ^ (- e)) in *. nia. }
    destruct w as [|p|p]; cbn [float64_of_Z float64_eqb Bool.eqb andb].
    - split; [done|lia].
    - apply Hnum.
    - split; [done|lia]. }
  unfold float64_of_int64.
  destruct (Z.leb_spec (maxInt64 - 511) n) as [Hbig|Hsmall].
  - apply Heq. apply round53_two63. unfold inInt64, minInt64, maxInt64 in *.
    apply andb_true_iff in Hrange as [_ ?%Z.leb_le]. lia.
  - destruct (float64_eqb _ _) eqn:E; [|done].
    apply Heq in E. pose proof (round53_below_two63 n Hrange) as Hlt.
    unfold maxInt64 in Hsmall. lia.
Qed.

(** C5 (amended).  For a column of the JSON-encoded set the value is bound
    as its JSON text, and a value that [json.Marshal] rejects is an error
    that names the column.  For any other column a float64 without
    fractional part whose value fits in int64 is bound as that integer; a
    float64 with a fractional part, an infinity, NaN, or a whole float64
    below -2^63 or above 2^63 is bound unchanged, as is every value that is
    not a float64; no error arises there.  The whole float64 2^63, the
    first above the range, follows the machine: it is bound unchanged when
    the machine's out-of-range conversion gives less than 2^63 - 512 (amd64
    gives -2^63), and as the converted integer otherwise (arm64 gives
    2^63 - 1), which [float64] rounds back to 2^63. *)
Theorem value_coercion `{JSONCodec} `{Machine}
    (column : string) (value : any) (cfg : tableCRUDConfig) :
  (column ∈ JSONColumns cfg →
   (marshalSupported value = true →
    normalizeCRUDValue column value cfg = inl (AString (json_text value)))
   ∧ (marshalSupported value = false →
      normalizeCRUDValue column value cfg = inr ("invalid JSON value for " +:+ column))
   ∧ (json_Marshal value = None ↔ marshalSupported value = false))
  ∧ (column ∉ JSONColumns cfg →
     (∀ x v,
        value = AFloat64 x → float64_valid x = true →
        float64_integral x = Some v → inInt64 v = true →
        normalizeCRUDValue column value cfg = inl (AInt64 v))
     ∧ (∀ x v,
          value = AFloat64 x → float64_integral x = Some v →
          v < minInt64 ∨ maxInt64 + 1 < v →
          normalizeCRUDValue column value cfg = inl value)
     ∧ (∀ x,
          value = AFloat64 x → float64_integral x = Some (maxInt64 + 1) →
          normalizeCRUDValue column value cfg
          = if maxInt64 - 511 <=? int64_overflow x
            then inl (AInt64 (int64_overflow x)) else inl value)
     ∧ (∀ x,
          value = AFloat64 x → float64_valid x = true →
          float64_integral x = None →
          normalizeCRUDValue column value cfg = inl value)
     ∧ ((∀ x, value ≠ AFloat64 x) → normalizeCRUDValue column value cfg = inl value)
     ∧ ∀ msg, normalizeCRUDValue column value cfg ≠ inr msg).
Proof.
  split.
  - intros Hcol. unfold normalizeCRUDValue, json_Marshal.
    rewrite bool_decide_eq_true_2 by done.
    split; [by intros ->|]. split; [by intros ->|].
    by destruct (marshalSupported value).
  - intros Hcol. unfold normalizeCRUDValue.
    rewrite bool_decide_eq_false_2 by done.
    split.
    { intros x v -> Hvalid Hint Hrange.
      destruct (coerce_integral int64_overflow x v Hvalid Hint Hrange) as [-> ->].
      done. }
    split.
    { intros x v -> Hint Hbig. by rewrite (coerce_too_large x v Hint Hbig). }
    split.
    { intros x -> Hint. destruct (coerce_two63 x Hint) as [-> ->]. done. }
    split.
    { intros x -> Hvalid Hint. by rewrite (coerce_fractional _ x Hvalid Hint). }
    split.
    { intros Hnot. destruct value as [| |x| | | |]; try done. by destruct (Hnot x). }
    intros msg. destruct value as [| |x| | | |]; try done.
    by destruct (float64_eqb _ _).
Qed.

Lemma value_coercion_witness :
  @normalizeCRUDValue sampleCodec amd64 "priority" (AFloat64 f64_one) cfgBanners
  = inl (AInt64 1)
  ∧ @normalizeCRUDValue sampleCodec amd64 "priority" (AFloat64 f64_three_halves) cfgBanners
    = inl (AFloat64 f64_three_halves)
  ∧ @normalizeCRUDValue sampleCodec amd64 "full_image_url"
      (ASlice [AFloat64 S754_nan]) cfgTuning
    = inr "invalid JSON value for full_image_url"
  ∧ @normalizeCRUDValue sampleCodec amd64 "full_image_url"
      (ASlice [AString "a.jpg"]) cfgTuning
    = inl (AString "<array>")
  ∧ @normalizeCRUDValue sampleCodec amd64 "priority" (AFloat64 f64_two63) cfgBanners
    = inl (AFloat64 f64_two63)
  ∧ @normalizeCRUDValue sampleCodec arm64 "priority" (AFloat64 f64_two63) cfgBanners
    = inl (AInt64 maxInt64).
Proof.
  assert ("priority" ∉ JSONColumns cfgBanners) as Hplain.
  { apply (bool_decide_unpack _). vm_compute. exact I. }
  assert ("full_image_url" ∈ JSONColumns cfgTuning) as Hjson.
  { apply (bool_decide_unpack _). vm_compute. exact I. }
  split; [|split; [|split; [|split; [|split]]]].
  - destruct (@value_coercion sampleCodec amd64 "priority" (AFloat64 f64_one) cfgBanners)
      as [_ Hp].
    destruct (Hp Hplain) as [Hint _]. by apply (Hint f64_one 1).
  - destruct (@value_coercion sampleCodec amd64 "priority" (AFloat64 f64_three_halves)
                cfgBanners) as [_ Hp].
    destruct (Hp Hplain) as (_ & _ & _ & Hfrac & _). by apply (Hfrac f64_three_halves).
  - destruct (@value_coercion sampleCodec amd64 "full_image_url"
                (ASlice [AFloat64 S754_nan]) cfgTuning) as [Hj _].
    destruct (Hj Hjson) as (_ & Hbad & _). by apply Hbad.
  - destruct (@value_coercion sampleCodec amd64 "full_image_url"
                (ASlice [AString "a.jpg"]) cfgTuning) as [Hj _].
    destruct (Hj Hjson) as (Hok & _). by apply Hok.
  - destruct (@value_coercion sampleCodec amd64 "priority" (AFloat64 f64_two63) cfgBanners)
      as [_ Hp].
    destruct (Hp Hplain) as (_ & _ & Hedge & _).
    by rewrite (Hedge f64_two63 eq_refl eq_refl).
  - destruct (@value_coercion sampleCodec arm64 "priority" (AFloat64 f64_two63) cfgBanners)
      as [_ Hp].
    destruct (Hp Hplain) as (_ & _ & Hedge & _).
    by rewrite (Hedge f64_two63 eq_refl eq_refl).
Defined.

(** C5 as stated fails: the float64 1e19 has no fractional part and is not
    bound as an integer. *)
Lemma large_whole_number_stays_float :
  float64_valid f64_1e19 = true
  ∧ float64_integral f64_1e19 = Some (10 ^ 19)
  ∧ @normalizeCRUDValue sampleCodec amd64 "priority" (AFloat64 f64_1e19) cfgBanners
    = inl (AFloat64 f64_1e19)
  ∧ @normalizeCRUDValue sampleCodec arm64 "priority" (AFloat64 f64_1e19) cfgBanners
    = inl (AFloat64 f64_1e19).
Proof. split_and!; vm_compute; reflexivity. Qed.

(** The value 2^63 is where the machines differ: amd64 keeps the float,
    arm64 binds the integer 2^63 - 1. *)
Example coercion_of_two63 :
  float64_integral f64_two63 = Some (2 ^ 63)
  ∧ @normalizeCRUDValue sampleCodec amd64 "priority" (AFloat64 f64_two63) cfgBanners
    = inl (AFloat64 f64_two63)
  ∧ @normalizeCRUDValue sampleCodec arm64 "priority" (AFloat64 f64_two63) cfgBanners
    = inl (AInt64 (2 ^ 63 - 1)).
Proof. split_and!; vm_compute; reflexivity. Qed.

(** * Further properties *)

(** ** The projection helpers *)

Lemma firstOccurrences_NoDup_id (l : list string) : NoDup l → firstOccurrences l = l.
Proof.
  induction 1 as [|x l Hx _ IH]; simpl; [done|].
  rewrite IH. f_equal. apply filter_all. intros y Hy ->. done.
Qed.

Lemma trimmedNonBlank_id (l : list string) :
  Forall (λ e, notBlank e ∧ TrimSpace e = e) l → trimmedNonBlank l = l.
Proof.
  induction 1 as [|e l [Hne He] _ IH]; [done|].
  rewrite trimmedNonBlank_cons, He, bool_decide_eq_false_2, IH; [done|].
  unfold notBlank in Hne. by rewrite He in Hne.
Qed.

Lemma trimmedNonBlank_elem_of (l : list string) (x : string) :
  x ∈ trimmedNonBlank l ↔ x ≠ "" ∧ ∃ v, v ∈ l ∧ TrimSpace v = x.
Proof.
  unfold trimmedNonBlank. rewrite list_elem_of_filter, list_elem_of_fmap.
  naive_solver.
Qed.

Lemma trimmedNonBlank_length (l : list string) :
  (length (trimmedNonBlank l) ≤ length l)%nat.
Proof.
  unfold trimmedNonBlank.
  etrans; [apply length_filter|]. by rewrite length_fmap.
Qed.

(** X1.  [uniqueNonEmpty] returns the trimmed non-blank inputs in their
    order, each once, at the place of its first occurrence: no entry is
    repeated, the result is a sublist of the trimmed inputs, its entries are
    exactly the trimmed non-blank inputs, it is never longer than the input,
    and [uniqueNonEmpty] leaves its own results unchanged. *)
Theorem uniqueNonEmpty_normal_form (values : list string) :
  uniqueNonEmpty values = firstOccurrences (trimmedNonBlank values)
  ∧ NoDup (uniqueNonEmpty values)
  ∧ uniqueNonEmpty values `sublist_of` (TrimSpace <$> values)
  ∧ (∀ x, x ∈ uniqueNonEmpty values ↔ x ≠ "" ∧ ∃ v, v ∈ values ∧ TrimSpace v = x)
  ∧ (length (uniqueNonEmpty values) ≤ length values)%nat
  ∧ uniqueNonEmpty (uniqueNonEmpty values) = uniqueNonEmpty values.
Proof.
  split; [apply uniqueNonEmpty_spec|]. split; [apply uniqueNonEmpty_NoDup|].
  split.
  { rewrite uniqueNonEmpty_spec. etrans; [apply firstOccurrences_sublist|].
    unfold trimmedNonBlank. apply sublist_filter. }
  split; [|split].
  - intros x. by rewrite uniqueNonEmpty_spec, firstOccurrences_elem_of,
      trimmedNonBlank_elem_of.
  - rewrite uniqueNonEmpty_spec.
    etrans; [apply sublist_length, firstOccurrences_sublist|].
    apply trimmedNonBlank_length.
  - rewrite (uniqueNonEmpty_spec (uniqueNonEmpty values)).
    rewrite trimmedNonBlank_id.
    + apply firstOccurrences_NoDup_id, uniqueNonEmpty_NoDup.
    + rewrite uniqueNonEmpty_spec. apply Forall_forall. intros e He.
      rewrite firstOccurrences_elem_of in He.
      by apply trimmedNonBlank_notBlank in He.
Qed.

Lemma firstNonEmpty_spec (values : list string) :
  firstNonEmpty values = default "" (head (filter notBlank values)).
Proof.
  induction values as [|v values IH]; [done|]. cbn [firstNonEmpty]. unfold isBlank.
  rewrite filter_cons. unfold notBlank at 1.
  case_bool_decide; case_decide; done.
Qed.

Lemma nullStringValue_trimmed (v : NullString) :
  TrimSpace (nullStringValue v) = nullStringValue v.
Proof.
  unfold nullStringValue. destruct (NS_Valid v); [apply TrimSpace_idemp|done].
Qed.

Lemma filter_none {A} (P : A → Prop) `{∀ x, Decision (P x)} (l : list A) :
  (∀ x, x ∈ l → ¬ P x) → filter P l = [].
Proof.
  induction l as [|x l IH]; intros HP; [done|].
  rewrite filter_cons_False by (apply HP; left).
  apply IH. intros y Hy. apply HP. by right.
Qed.

Lemma head_firstOccurrences (l : list string) : head (firstOccurrences l) = head l.
Proof. by destruct l. Qed.

Lemma trimmedNonBlank_trimmed (l : list string) :
  Forall (λ e, TrimSpace e = e) l → trimmedNonBlank l = filter notBlank l.
Proof.
  induction 1 as [|e l He _ IH]; [done|].
  rewrite trimmedNonBlank_cons, filter_cons, IH.
  destruct (decide (notBlank e)) as [Hd|Hd]; unfold notBlank in Hd;
    case_bool_decide as Hb; try done; by rewrite He.
Qed.

(** X2.  The image of a work post is the first of the card, full and video
    image columns that is not NULL or blank, trimmed, and the empty string
    when there is none; when the gallery column gives nothing, the gallery
    starts with that image (and is empty exactly when there is none). *)
Theorem work_post_image `{JSONCodec} (row : workPostRow) :
  let post := projectWorkPost row in
  let columns := [cardImageURL row; fullImageURL row; videoImageURL row] in
  ImageURL post = default "" (head (filter notBlank (nullStringValue <$> columns)))
  ∧ TrimSpace (ImageURL post) = ImageURL post
  ∧ (ImageURL post = ""
     ↔ Forall (λ col, NS_Valid col = false ∨ TrimSpace (NS_String col) = "") columns)
  ∧ (parseStringArray (galleryImagesRaw row) = [] →
     head (GalleryImages post)
     = if decide (ImageURL post = "") then None else Some (ImageURL post)).
Proof.
  intros post columns.
  set (candidates := nullStringValue <$> columns).
  assert (Forall (λ e, TrimSpace e = e) candidates) as Htrim.
  { unfold candidates, columns. repeat constructor; apply nullStringValue_trimmed. }
  assert (ImageURL post = default "" (head (filter notBlank candidates))) as Himg.
  { unfold post, projectWorkPost. cbn [ImageURL]. apply firstNonEmpty_spec. }
  assert (∀ e, e ∈ filter notBlank candidates → e ≠ "") as Hne.
  { intros e [Hb _]%list_elem_of_filter ->. by apply Hb. }
  split; [done|]. split.
  { rewrite Himg. destruct (filter notBlank candidates) as [|e l] eqn:Hf; [done|].
    simpl. apply (proj1 (Forall_forall _ _) Htrim).
    assert (e ∈ filter notBlank candidates) as He by (rewrite Hf; left).
    by apply list_elem_of_filter in He as [_ He]. }
  split.
  { rewrite Himg. split.
    - intros Hempty.
      assert (filter notBlank candidates = []) as Hnil.
      { destruct (filter notBlank candidates) as [|e l] eqn:Hf; [done|].
        simpl in Hempty. destruct (Hne e); [left|done]. }
      apply Forall_forall. intros col Hcol.
      assert (¬ notBlank (nullStringValue col)) as Hblank.
      { intros Hb. eapply (filter_nil_not_elem_of _ _ _ Hnil Hb).
        unfold candidates. apply list_elem_of_fmap. by exists col. }
      unfold notBlank, nullStringValue in Hblank.
      destruct (NS_Valid col); [right|by left].
      rewrite TrimSpace_idemp in Hblank. by destruct (decide (TrimSpace (NS_String col) = "")).
    - intros Hall. rewrite filter_none; [done|].
      intros e (col & -> & Hcol)%list_elem_of_fmap Hb.
      apply (proj1 (Forall_forall _ _) Hall) in Hcol.
      unfold notBlank, nullStringValue in Hb.
      destruct Hcol as [Hv|Hs]; [by rewrite Hv in Hb|].
      destruct (NS_Valid col); [|done]. by rewrite TrimSpace_idemp in Hb. }
  intros Hgallery. unfold post at 1, projectWorkPost. cbn [GalleryImages].
  rewrite Hgallery. cbn [length Nat.eqb].
  change [nullStringValue (cardImageURL row); nullStringValue (fullImageURL row);
          nullStringValue (videoImageURL row)] with candidates.
  rewrite uniqueNonEmpty_spec, head_firstOccurrences, trimmedNonBlank_trimmed by done.
  rewrite Himg. destruct (filter notBlank candidates) as [|e l] eqn:Hf; [done|].
  simpl. rewrite decide_False; [done|]. apply Hne. left.
Qed.

Lemma work_post_image_witness :
  ImageURL (@projectWorkPost sampleCodec rowFullImage) = "https://x/full.jpg"
  ∧ head (GalleryImages (@projectWorkPost sampleCodec rowFullImage))
    = Some "https://x/full.jpg".
Proof.
  destruct (@work_post_image sampleCodec rowFullImage) as (Himg & _ & _ & Hgallery).
  split.
  - rewrite Himg. vm_compute. reflexivity.
  - rewrite Hgallery by (vm_compute; reflexivity). vm_compute. reflexivity.
Defined.

(** X3.  [parseStringArray] reads an array of strings, or a JSON string whose
    text is itself an array of strings (the array is unwrapped), and returns
    the trimmed non-blank entries in order; every other input, also NULL and
    malformed JSON, gives the empty list.  No entry of the result is blank. *)
Theorem string_array_parsing `{JSONCodec} (raw : string) :
  (raw = "" → parseStringArray raw = [])
  ∧ (∀ items, raw ≠ "" → UnmarshalStrings raw = Some items →
              parseStringArray raw = trimmedNonBlank items)
  ∧ (∀ encoded nested,
       raw ≠ "" → UnmarshalStrings raw = None →
       json_decode raw = Some (AString encoded) →
       UnmarshalStrings encoded = Some nested →
       parseStringArray raw = trimmedNonBlank nested)
  ∧ (raw ≠ "" → UnmarshalStrings raw = None →
     (∀ encoded, json_decode raw = Some (AString encoded) →
                 UnmarshalStrings encoded = None) →
     parseStringArray raw = [])
  ∧ Forall notBlank (parseStringArray raw).
Proof.
  assert (∀ r, r ≠ "" → (String.length r =? 0)%nat = false) as Hlen.
  { intros r Hr. destruct (String.length r =? 0)%nat eqn:E; [|done].
    by apply length_zero_iff in E. }
  split; [by intros ->|]. split.
  { intros items Hraw Hitems. unfold parseStringArray.
    by rewrite (Hlen _ Hraw), Hitems, cleanItems_spec. }
  split.
  { intros encoded nested Hraw Hnone Hdec Hnested. unfold parseStringArray.
    rewrite (Hlen _ Hraw), Hnone. unfold UnmarshalString. rewrite Hdec. cbn.
    by rewrite Hnested, cleanItems_spec. }
  split.
  { intros Hraw Hnone Hall. unfold parseStringArray.
    rewrite (Hlen _ Hraw), Hnone. unfold UnmarshalString.
    destruct (json_decode raw) as [[| | | |encoded| |]|] eqn:Hdec; cbn; try done.
    - unfold UnmarshalStrings in Hnone. by rewrite Hdec in Hnone.
    - by rewrite (Hall encoded eq_refl). }
  unfold parseStringArray.
  destruct (String.length raw =? 0)%nat; [constructor|].
  destruct (UnmarshalStrings raw); [apply cleanItems_notBlank|].
  destruct (UnmarshalString raw); [|constructor].
  destruct (UnmarshalStrings _); [apply cleanItems_notBlank|constructor].
Qed.

Lemma string_array_parsing_witness :
  @parseStringArray sampleCodec (jsonText "'[\'x\',\' y \']'") = ["x"; "y"].
Proof.
  destruct (@string_array_parsing sampleCodec (jsonText "'[\'x\',\' y \']'"))
    as (_ & _ & Hnested & _).
  rewrite (Hnested (jsonText "['x',' y ']") ["x"; " y "]); vm_compute; done.
Defined.

(** ** Quoting *)

Lemma unquoteBody_quoted (value rest : string) :
  (∀ r, rest ≠ String dquote r) →
  unquoteBody
    (ReplaceAllByte value dquote (String dquote (String dquote ""))
     +:+ String dquote rest)
  = Some (value, rest).
Proof.
  intros Hrest. induction value as [|c value IH]; cbn [ReplaceAllByte].
  - change (unquoteBody (String dquote rest) = Some ("", rest)).
    cbn [unquoteBody]. rewrite Ascii.eqb_refl.
    destruct rest as [|c' r]; [done|].
    destruct (Ascii.eqb c' dquote) eqn:Hc; [|done].
    apply Ascii.eqb_eq in Hc as ->. by destruct (Hrest r).
  - destruct (Ascii.eqb c dquote) eqn:Hc.
    + apply Ascii.eqb_eq in Hc as ->.
      change (unquoteBody (String dquote (String dquote
                (ReplaceAllByte value dquote (String dquote (String dquote ""))
                 +:+ String dquote rest))) = Some (String dquote value, rest)).
      cbn [unquoteBody]. rewrite !Ascii.eqb_refl. by rewrite IH.
    + change (unquoteBody (String c
                (ReplaceAllByte value dquote (String dquote (String dquote ""))
                 +:+ String dquote rest)) = Some (String c value, rest)).
      cbn [unquoteBody]. rewrite Hc. by rewrite IH.
Qed.

Lemma quoteIdentifier_round_trip_aux (value rest : string) :
  (∀ r, rest ≠ String dquote r) →
  unquoteIdentifier (quoteIdentifier value +:+ rest) = Some (value, rest)
  ∧ ∀ other, quoteIdentifier other = quoteIdentifier value → other = value.
Proof.
  intros Hrest.
  assert (∀ v r, (∀ r', r ≠ String dquote r') →
                 unquoteIdentifier (quoteIdentifier v +:+ r) = Some (v, r)) as Hround.
  { intros v r Hr. unfold quoteIdentifier. rewrite <- append_assoc.
    change (unquoteIdentifier
              (String dquote
                 (ReplaceAllByte v dquote (String dquote (String dquote ""))
                  +:+ String dquote r)) = Some (v, r)).
    cbn [unquoteIdentifier]. rewrite Ascii.eqb_refl.
    by apply unquoteBody_quoted. }
  split; [by apply Hround|].
  intros other Heq.
  pose proof (Hround other "" ltac:(done)) as H1.
  pose proof (Hround value "" ltac:(done)) as H2.
  rewrite Heq, H2 in H1. by simplify_eq.
Qed.

(** X4.  A quoted identifier reads back as the name it was made from: the
    closing quote of [quoteIdentifier] is the first unpaired quote, whatever
    the name contains, so no name can end the identifier early.  Distinct
    names give distinct identifiers. *)
Theorem quoteIdentifier_round_trip (value rest : string) :
  (∀ r, rest ≠ String dquote r) →
  unquoteIdentifier (quoteIdentifier value +:+ rest) = Some (value, rest)
  ∧ ∀ other, quoteIdentifier other = quoteIdentifier value → other = value.
Proof. apply quoteIdentifier_round_trip_aux. Qed.

Lemma quoteIdentifier_round_trip_witness :
  unquoteIdentifier (quoteIdentifier (String "a" (String dquote "; DROP TABLE x; --"))
                     +:+ " = $1")
  = Some (String "a" (String dquote "; DROP TABLE x; --"), " = $1").
Proof.
  apply (quoteIdentifier_round_trip (String "a" (String dquote "; DROP TABLE x; --"))
           " = $1").
  intros r. discriminate.
Defined.

Lemma append_nil_r (s : string) : s +:+ "" = s.
Proof.
  induction s as [|a s IH]; [done|].
  change (String a (s +:+ "") = String a s). by rewrite IH.
Qed.

Lemma unquoteQualified_join (parts : list string) (fuel : nat) :
  parts ≠ [] → (length parts ≤ fuel)%nat →
  unquoteQualified fuel (Join (quoteIdentifier <$> parts) ".") = Some parts.
Proof.
  revert fuel. induction parts as [|e parts IH]; intros fuel Hne Hfuel; [done|].
  destruct fuel as [|fuel]; [simpl in Hfuel; lia|].
  destruct parts as [|e' parts].
  - cbn [fmap list_fmap Join unquoteQualified].
    rewrite <- (append_nil_r (quoteIdentifier e)).
    assert (∀ r, "" ≠ String dquote r) as Hq by done.
    by rewrite (proj1 (quoteIdentifier_round_trip_aux e "" Hq)).
  - change (Join (quoteIdentifier <$> e :: e' :: parts) ".")
      with (quoteIdentifier e +:+ String dot (Join (quoteIdentifier <$> e' :: parts) ".")).
    cbn [unquoteQualified].
    assert (∀ r, String dot (Join (quoteIdentifier <$> e' :: parts) ".") ≠ String dquote r)
      as Hq by done.
    rewrite (proj1 (quoteIdentifier_round_trip_aux e _ Hq)).
    rewrite Ascii.eqb_refl, IH; [done|done|]. simpl in *. lia.
Qed.

Lemma splitByteGo_nonempty (cur s : string) (sep : ascii) : splitByteGo cur s sep ≠ [].
Proof.
  revert cur. induction s as [|a s IH]; intros cur; simpl; [done|].
  destruct (Ascii.eqb a sep); [done|apply IH].
Qed.

(** X5.  A quoted table name reads back as the trimmed dot-separated parts of
    the configured name, each as one identifier. *)
Theorem quoteTableName_round_trip (value : string) (fuel : nat) :
  (length (SplitByte value dot) ≤ fuel)%nat →
  unquoteQualified fuel (quoteTableName value)
  = Some (TrimSpace <$> SplitByte value dot).
Proof.
  intros Hfuel. unfold quoteTableName.
  rewrite (list_fmap_compose TrimSpace quoteIdentifier).
  apply unquoteQualified_join.
  - intros Hnil%fmap_nil_inv. by apply splitByteGo_nonempty in Hnil.
  - by rewrite length_fmap.
Qed.

Lemma quoteTableName_round_trip_witness :
  unquoteQualified 2 (quoteTableName "public.work_post") = Some ["public"; "work_post"].
Proof. apply (quoteTableName_round_trip "public.work_post" 2). vm_compute. lia. Defined.

(** ** Statements *)

Lemma walks_same_keys {V W} (m : gmap string V) (m' : gmap string W)
    (walk walk' : list string) :
  walkOf m walk → walkOf m' walk' → dom m = dom m' →
  sortedMapKeys walk = sortedMapKeys walk'.
Proof.
  intros Hw Hw' Hdom. apply sortedMapKeys_unique.
  apply NoDup_Permutation; [by eapply walkOf_NoDup..|].
  intros key. by rewrite (walkOf_elem_of _ _ _ Hw), (walkOf_elem_of _ _ _ Hw'), Hdom.
Qed.

Lemma walkOf_length {V} (m : gmap string V) (walk : list string) :
  walkOf m walk → length (sortedMapKeys walk) = size m.
Proof.
  unfold walkOf. intros Hw. rewrite sortedMapKeys_perm, Hw, length_fmap.
  apply length_map_to_list.
Qed.

(** X6.  The text of an insert or update statement depends on the table, on
    the set of payload keys and on the touch flag only: payload values and
    the row identifier are always bound as arguments ($1, $2, ...), one per
    key (and one more for the identifier of an update), never written into
    the text. *)
Theorem statement_text_ignores_values `{JSONCodec} `{Machine}
    (cfg : tableCRUDConfig) (id id' : Z) (payload payload' : gmap string any)
    (walk walk' : list string) :
  walkOf payload walk → walkOf payload' walk' → dom payload = dom payload' →
  (∀ stmt stmt',
     createStatement cfg payload walk = inl stmt →
     createStatement cfg payload' walk' = inl stmt' →
     stmt_query stmt = stmt_query stmt'
     ∧ length (stmt_args stmt) = size payload)
  ∧ (∀ clauses stmt clauses' stmt',
       updateStatement cfg id payload walk = UpdateRun clauses stmt →
       updateStatement cfg id' payload' walk' = UpdateRun clauses' stmt' →
       stmt_query stmt = stmt_query stmt'
       ∧ clauses = clauses'
       ∧ length (stmt_args stmt) = S (size payload)).
Proof.
  intros Hw Hw' Hdom.
  pose proof (walks_same_keys _ _ _ _ Hw Hw' Hdom) as Hkeys.
  pose proof (walkOf_length _ _ Hw) as Hlen.
  split.
  - intros stmt stmt'. unfold createStatement. rewrite <- Hkeys.
    destruct (length (sortedMapKeys walk) =? 0)%nat eqn:Hzero.
    { intros [= <-] [= <-]. split; [done|]. apply Nat.eqb_eq in Hzero.
      simpl. lia. }
    destruct (createColumns cfg payload _ _ _ _ _)
      as [[[columns placeholders] args]|] eqn:Hc; [|done].
    destruct (createColumns cfg payload' _ _ _ _ _)
      as [[[columns' placeholders'] args']|] eqn:Hc'; [|done].
    apply createColumns_spec in Hc as (-> & -> & values & -> & Hvalues).
    apply createColumns_spec in Hc' as (-> & -> & values' & -> & Hvalues').
    intros [= <-] [= <-]. split; [done|]. cbn [stmt_args app].
    by rewrite <- (Forall2_length _ _ _ Hvalues).
  - intros clauses stmt clauses' stmt'. unfold updateStatement. rewrite <- Hkeys.
    destruct ((length (sortedMapKeys walk) =? 0)%nat && negb (TouchUpdatedAt cfg));
      [done|].
    destruct (updateClauses cfg payload _ _ _ _) as [[sc args]|] eqn:Hc; [|done].
    destruct (updateClauses cfg payload' _ _ _ _) as [[sc' args']|] eqn:Hc'; [|done].
    apply updateClauses_spec in Hc as (-> & values & -> & Hvalues).
    apply updateClauses_spec in Hc' as (-> & values' & -> & Hvalues').
    intros [= <- <-] [= <- <-]. cbn [stmt_query stmt_args app].
    pose proof (Forall2_length _ _ _ Hvalues) as L1.
    pose proof (Forall2_length _ _ _ Hvalues') as L2.
    rewrite <- L1, <- L2. split; [done|]. split; [done|].
    rewrite length_app. simpl. lia.
Qed.

Lemma statement_text_ignores_values_witness :
  ∃ stmt stmt',
    @createStatement sampleCodec amd64 cfgPortfolio samplePayload ["title"; "brand"]
    = inl stmt
    ∧ @createStatement sampleCodec amd64 cfgPortfolio samplePayload' ["brand"; "title"]
      = inl stmt'
    ∧ stmt_query stmt = stmt_query stmt'
    ∧ length (stmt_args stmt) = 2%nat.
Proof.
  assert (walkOf samplePayload ["title"; "brand"]) as Hw.
  { unfold walkOf. apply (bool_decide_unpack _). vm_compute. exact I. }
  assert (walkOf samplePayload' ["brand"; "title"]) as Hw'.
  { unfold walkOf. apply (bool_decide_unpack _). vm_compute. exact I. }
  assert (dom samplePayload = dom samplePayload') as Hdom.
  { apply (bool_decide_unpack _). vm_compute. exact I. }
  destruct (@statement_text_ignores_values sampleCodec amd64 cfgPortfolio 1 2
              samplePayload samplePayload' _ _ Hw Hw' Hdom) as [Hcreate _].
  destruct (@createStatement sampleCodec amd64 cfgPortfolio samplePayload ["title"; "brand"])
    as [stmt|] eqn:Hs; [|by vm_compute in Hs].
  destruct (@createStatement sampleCodec amd64 cfgPortfolio samplePayload' ["brand"; "title"])
    as [stmt'|] eqn:Hs'; [|by vm_compute in Hs'].
  exists stmt, stmt'. destruct (Hcreate stmt stmt' eq_refl eq_refl) as [Hq Hl].
  split; [done|]. split; [done|]. split; [done|]. rewrite Hl. vm_compute. reflexivity.
Defined.







(** ** Storage paths *)

Lemma bytes_app (s t : string) : bytes (s +:+ t) = bytes s ++ bytes t.
Proof. induction s as [|a s IH]; simpl; [done|]. by rewrite <- IH. Qed.

Lemma bytes_inj (s t : string) : bytes s = bytes t → s = t.
Proof.
  intros E. rewrite <- (string_of_list_ascii_of_string s), E.
  apply string_of_list_ascii_of_string.
Qed.

Lemma bytes_nil (s : string) : bytes s = [] ↔ s = "".
Proof. by destruct s. Qed.

Lemma bytes_rev_app (s t : string) : bytes (String.rev_app s t) = rev (bytes s) ++ bytes t.
Proof.
  revert t. induction s as [|a s IH]; intros t; simpl; [done|].
  rewrite IH. simpl. by rewrite <- app_assoc.
Qed.

Lemma bytes_rev (s : string) : bytes (String.rev s) = rev (bytes s).
Proof. unfold String.rev. rewrite bytes_rev_app. simpl. apply app_nil_r. Qed.

Lemma String_rev_involutive (s : string) : String.rev (String.rev s) = s.
Proof. apply bytes_inj. by rewrite !bytes_rev, rev_involutive. Qed.

Lemma elem_of_rev {A} (x : A) (l : list A) : x ∈ rev l ↔ x ∈ l.
Proof. rewrite !list_elem_of_In. symmetry. apply in_rev. Qed.

Lemma ContainsByte_bytes (s : string) (c : ascii) :
  ContainsByte s c = true ↔ c ∈ bytes s.
Proof.
  induction s as [|a s IH]; simpl.
  - split; [done|]. by intros ?%elem_of_nil.
  - rewrite orb_true_iff, IH, elem_of_cons, Ascii.eqb_eq. naive_solver.
Qed.

Lemma ContainsByte_subseteq (s t : string) (c : ascii) :
  bytes t ⊆ bytes s → ContainsByte s c = false → ContainsByte t c = false.
Proof.
  intros Hsub Hs. destruct (ContainsByte t c) eqn:Ht; [|done].
  apply ContainsByte_bytes, Hsub, ContainsByte_bytes in Ht. congruence.
Qed.

Lemma TrimSpace_bytes (s : string) : bytes (TrimSpace s) ⊆ bytes s.
Proof.
  unfold TrimSpace. rewrite list_ascii_of_string_of_list_ascii.
  intros c Hc.
  eapply elem_of_suffix; [|apply trimLeftSpace_suffix].
  eapply elem_of_prefix; [|apply trimRightSpace_prefix]. done.
Qed.

Lemma TrimSpace_fixed (s : string) :
  TrimSpace s = s
  ↔ startsSpace (bytes s) = false ∧ startsSpaceRev (rev (bytes s)) = false.
Proof.
  split.
  - intros Hs. apply (f_equal list_ascii_of_string) in Hs.
    unfold TrimSpace in Hs. rewrite list_ascii_of_string_of_list_ascii in Hs.
    split.
    + destruct (startsSpace (bytes s)) eqn:Hu; [|done].
      rewrite <- Hs in Hu.
      pose proof (startsSpace_prefix _ _ (trimRightSpace_prefix _) Hu) as E.
      by rewrite trimLeftSpace_stops in E.
    + rewrite <- Hs. unfold trimRightSpace. rewrite rev_involutive.
      apply trimLeftSpaceRev_stops.
  - intros [Hl Hr]. unfold TrimSpace.
    rewrite (trimLeftSpace_fixed _ Hl). unfold trimRightSpace.
    rewrite (trimLeftSpaceRev_fixed _ Hr), rev_involutive.
    apply string_of_list_ascii_of_string.
Qed.

Lemma trimLeftByte_suffix (s : string) (c : ascii) :
  bytes (trimLeftByte s c) `suffix_of` bytes s.
Proof.
  induction s as [|a s IH]; simpl; [done|].
  destruct (Ascii.eqb a c); [by apply suffix_cons_r|done].
Qed.

Lemma TrimByte_bytes (s : string) (c : ascii) : bytes (TrimByte s c) ⊆ bytes s.
Proof.
  unfold TrimByte, trimRightByte. intros x Hx.
  apply (λ H, elem_of_suffix _ _ _ H (trimLeftByte_suffix _ _)) in Hx.
  rewrite bytes_rev, elem_of_rev in Hx.
  apply (λ H, elem_of_suffix _ _ _ H (trimLeftByte_suffix _ _)) in Hx.
  by rewrite bytes_rev, elem_of_rev in Hx.
Qed.

Lemma trimLeftByte_fixed (s : string) (c : ascii) :
  head (bytes s) ≠ Some c → trimLeftByte s c = s.
Proof.
  destruct s as [|a s]; simpl; [done|].
  destruct (Ascii.eqb a c) eqn:E; [|done]. apply Ascii.eqb_eq in E as ->. done.
Qed.

Lemma TrimByte_fixed (s : string) (c : ascii) :
  head (bytes s) ≠ Some c → head (rev (bytes s)) ≠ Some c → TrimByte s c = s.
Proof.
  intros Hl Hr. unfold TrimByte, trimRightByte.
  rewrite (trimLeftByte_fixed (String.rev s)) by by rewrite bytes_rev.
  rewrite String_rev_involutive. by apply trimLeftByte_fixed.
Qed.

Lemma ReplaceAllByte_gone (s : string) (old : ascii) (new : string) :
  ContainsByte new old = false → ContainsByte (ReplaceAllByte s old new) old = false.
Proof.
  intros Hnew. induction s as [|a s IH]; simpl; [done|].
  destruct (ContainsByte (_ +:+ _) old) eqn:E; [|done].
  apply ContainsByte_bytes in E. rewrite bytes_app in E.
  apply elem_of_app in E as [E|E].
  - destruct (Ascii.eqb a old) eqn:Ha.
    + apply ContainsByte_bytes in E. congruence.
    + simpl in E. apply list_elem_of_singleton in E as ->.
      by rewrite Ascii.eqb_refl in Ha.
  - apply ContainsByte_bytes in E. congruence.
Qed.

Lemma ReplaceAllByte_absent (s : string) (old : ascii) (new : string) :
  ContainsByte s old = false → ReplaceAllByte s old new = s.
Proof.
  induction s as [|a s IH]; simpl; [done|].
  rewrite Ascii.eqb_sym. intros [-> Hs]%orb_false_iff. simpl. by rewrite IH.
Qed.

Lemma ReplaceAllByte_other (s : string) (old c : ascii) (new : string) :
  ContainsByte s c = false → ContainsByte new c = false →
  ContainsByte (ReplaceAllByte s old new) c = false.
Proof.
  intros Hs Hnew. induction s as [|a s IH]; simpl in *; [done|].
  apply orb_false_iff in Hs as [Ha Hs].
  destruct (ContainsByte (_ +:+ _) c) eqn:E; [|done].
  apply ContainsByte_bytes in E. rewrite bytes_app in E.
  apply elem_of_app in E as [E|E].
  - destruct (Ascii.eqb a old).
    + apply ContainsByte_bytes in E. congruence.
    + simpl in E. apply list_elem_of_singleton in E as ->.
      by rewrite Ascii.eqb_refl in Ha.
  - apply ContainsByte_bytes in E. rewrite IH in E; done.
Qed.

Lemma Join_cons (e e' : string) (rest : list string) (sep : string) :
  Join (e :: e' :: rest) sep = e +:+ sep +:+ Join (e' :: rest) sep.
Proof. done. Qed.

Lemma bytes_Join (e : string) (rest : list string) :
  bytes (Join (e :: rest) "/")
  = bytes e ++ concat ((λ x, slash :: bytes x) <$> rest).
Proof.
  revert e. induction rest as [|e' rest IH]; intros e.
  - simpl. by rewrite app_nil_r.
  - rewrite Join_cons, !bytes_app, IH. done.
Qed.

Lemma splitByteGo_segment (cur e r : string) (sep : ascii) :
  ContainsByte e sep = false →
  splitByteGo cur (e +:+ r) sep = splitByteGo (String.rev_app e cur) r sep.
Proof.
  revert cur. induction e as [|a e IH]; intros cur; simpl; [done|].
  rewrite Ascii.eqb_sym. intros [-> He]%orb_false_iff. by apply IH.
Qed.

Lemma SplitByte_Join (result : list string) :
  result ≠ [] → Forall (λ e, ContainsByte e slash = false) result →
  SplitByte (Join result "/") slash = result.
Proof.
  induction result as [|e [|e' rest] IH]; intros Hne Hall; [done|..].
  - apply Forall_cons in Hall as [He _]. cbn [Join]. unfold SplitByte.
    rewrite <- (append_nil_r e) at 1. rewrite splitByteGo_segment by done.
    cbn [splitByteGo]. change (String.rev_app e "") with (String.rev e).
    by rewrite String_rev_involutive.
  - apply Forall_cons in Hall as [He Hall]. rewrite Join_cons. unfold SplitByte.
    rewrite splitByteGo_segment by done.
    change ("/" +:+ Join (e' :: rest) "/") with (String slash (Join (e' :: rest) "/")).
    cbn [splitByteGo]. rewrite Ascii.eqb_refl.
    change (String.rev_app e "") with (String.rev e).
    rewrite String_rev_involutive. f_equal. by apply IH.
Qed.

Lemma splitByteGo_bytes (cur s : string) (sep : ascii) (e : string) (c : ascii) :
  e ∈ splitByteGo cur s sep → c ∈ bytes e → c ∈ bytes cur ∨ c ∈ bytes s.
Proof.
  revert cur. induction s as [|a s IH]; intros cur; simpl.
  - intros ->%list_elem_of_singleton. rewrite bytes_rev, elem_of_rev. by left.
  - destruct (Ascii.eqb a sep).
    + intros [->|He]%elem_of_cons Hc.
      * rewrite bytes_rev, elem_of_rev in Hc. by left.
      * destruct (IH _ He Hc) as [H|H]; [by apply elem_of_nil in H|].
        right. by apply elem_of_cons; right.
    + intros He Hc. destruct (IH _ He Hc) as [H|H].
      * simpl in H. apply elem_of_cons in H as [->|H]; [|by left].
        right. apply elem_of_cons. by left.
      * right. by apply elem_of_cons; right.
Qed.

Lemma splitByteGo_separated (cur s : string) (sep : ascii) (e : string) :
  ContainsByte cur sep = false → e ∈ splitByteGo cur s sep →
  ContainsByte e sep = false.
Proof.
  revert cur. induction s as [|a s IH]; intros cur Hcur; simpl.
  - intros ->%list_elem_of_singleton.
    apply (ContainsByte_subseteq cur); [|done].
    intros x. by rewrite bytes_rev, elem_of_rev.
  - destruct (Ascii.eqb a sep) eqn:Ha.
    + intros [->|He]%elem_of_cons.
      * apply (ContainsByte_subseteq cur); [|done].
        intros x. by rewrite bytes_rev, elem_of_rev.
      * by apply (IH "").
    + apply IH. simpl. by rewrite Ha.
Qed.

(** What [cleanStoragePath] keeps of a part. *)
Lemma cleanStorageParts_spec (parts result out : list string) :
  cleanStorageParts parts result = inl out →
  ∃ kept, out = result ++ kept
    ∧ Forall (λ e, TrimSpace e = e ∧ e ≠ "" ∧ e ≠ "." ∧ e ≠ ".."
                   ∧ ∃ part, part ∈ parts ∧ e = TrimSpace part) kept.
Proof.
  revert result. induction parts as [|part parts IH]; intros result; simpl.
  - intros [= <-]. exists []. by rewrite app_nil_r.
  - case_bool_decide as Hempty.
    { intros (kept & -> & Hkept)%IH. exists kept. split; [done|].
      eapply Forall_impl; [done|]. intros e (?&?&?&?& p & ? & ?).
      repeat split; try done. exists p. split; [by apply elem_of_cons; right|done]. }
    case_bool_decide as Hdot; [done|]. case_bool_decide as Hdots; [done|].
    simpl. intros (kept & -> & Hkept)%IH.
    exists (TrimSpace part :: kept). split; [by rewrite <- app_assoc|].
    constructor.
    + rewrite TrimSpace_idemp. repeat split; try done.
      exists part. split; [by apply elem_of_cons; left|done].
    + eapply Forall_impl; [done|]. intros e (?&?&?&?& p & ? & ?).
      repeat split; try done. exists p. split; [by apply elem_of_cons; right|done].
Qed.

Lemma cleanStorageParts_fixed (parts result : list string) :
  Forall (λ e, TrimSpace e = e ∧ e ≠ "" ∧ e ≠ "." ∧ e ≠ "..") parts →
  cleanStorageParts parts result = inl (result ++ parts).
Proof.
  revert result. induction parts as [|part parts IH]; intros result Hall; simpl.
  - by rewrite app_nil_r.
  - apply Forall_cons in Hall as [(Hfix & Hne & Hdot & Hdots) Hall].
    rewrite Hfix. rewrite !bool_decide_eq_false_2 by done. simpl.
    rewrite IH by done. by rewrite <- app_assoc.
Qed.

Lemma cleanStoragePath_segments (value path : string) :
  cleanStoragePath value = inl path →
  ∃ result, result ≠ [] ∧ path = Join result "/"
    ∧ Forall (λ e, (TrimSpace e = e ∧ e ≠ "" ∧ e ≠ "." ∧ e ≠ "..")
                   ∧ ContainsByte e slash = false
                   ∧ ContainsByte e backslash = false) result.
Proof.
  unfold cleanStoragePath.
  set (candidate := TrimByte (TrimSpace (ReplaceAllByte value backslash "/")) slash).
  case_bool_decide as Hempty; [done|].
  destruct (cleanStorageParts _ _) as [result|err] eqn:Hparts; [|done].
  destruct (length result =? 0)%nat eqn:Hlen; [done|]. intros [= <-].
  exists result. split; [by destruct result|]. split; [done|].
  apply cleanStorageParts_spec in Hparts as (kept & -> & Hkept). simpl.
  eapply Forall_impl; [done|]. intros e (Hfix & Hne & Hdot & Hdots & part & Hpart & ->).
  split; [done|]. split.
  - apply (ContainsByte_subseteq part); [apply TrimSpace_bytes|].
    by apply (splitByteGo_separated "" candidate).
  - apply (ContainsByte_subseteq candidate).
    + intros c Hc%TrimSpace_bytes.
      destruct (splitByteGo_bytes _ _ _ _ _ Hpart Hc) as [Hnil|Hc'];
        [by apply elem_of_nil in Hnil|done].
    + apply (ContainsByte_subseteq (TrimSpace (ReplaceAllByte value backslash "/")));
        [apply TrimByte_bytes|].
      apply (ContainsByte_subseteq (ReplaceAllByte value backslash "/"));
        [apply TrimSpace_bytes|].
      by apply ReplaceAllByte_gone.
Qed.

Lemma space2_slash (a : ascii) : space2 a slash = false ∧ space2 slash a = false.
Proof.
  unfold space2. change (N_of_ascii slash) with 47%N. split; [|done].
  apply andb_false_r.
Qed.

Lemma space3_slash (a b : ascii) :
  space3 slash a b = false ∧ space3 a slash b = false ∧ space3 a b slash = false.
Proof.
  unfold space3. change (N_of_ascii slash) with 47%N.
  generalize (N_of_ascii a) (N_of_ascii b). intros x y. split; [done|]. split.
  - by destruct (x =? 225)%N, (x =? 226)%N, (x =? 227)%N.
  - by destruct (x =? 225)%N, (x =? 226)%N, (x =? 227)%N,
         (y =? 154)%N, (y =? 128)%N, (y =? 129)%N.
Qed.

(** A separator after a piece that does not start with white space does not
    make it start with white space. *)
Lemma startsSpace_slash (x y : list ascii) :
  x ≠ [] → (y = [] ∨ ∃ y', y = slash :: y') →
  startsSpace x = false → startsSpace (x ++ y) = false.
Proof.
  intros Hx [->|[y' ->]]; [by rewrite app_nil_r|].
  destruct x as [|a [|b [|c r]]]; [done|..]; cbn [startsSpace app]; [| |done].
  - rewrite orb_false_r. intros ->. rewrite (proj1 (space2_slash a)).
    destruct y'; [done|]. by rewrite (proj1 (proj2 (space3_slash a _))).
  - rewrite orb_false_r. intros [-> ->]%orb_false_iff.
    by rewrite (proj2 (proj2 (space3_slash a b))).
Qed.

Lemma startsSpaceRev_slash (x y : list ascii) :
  x ≠ [] → (y = [] ∨ ∃ y', y = slash :: y') →
  startsSpaceRev x = false → startsSpaceRev (x ++ y) = false.
Proof.
  intros Hx [->|[y' ->]]; [by rewrite app_nil_r|].
  destruct x as [|a [|b [|c r]]]; [done|..]; cbn [startsSpaceRev app]; [| |done].
  - rewrite orb_false_r. intros ->. rewrite (proj2 (space2_slash a)).
    destruct y'; [done|]. by rewrite (proj1 (proj2 (space3_slash _ a))).
  - rewrite orb_false_r. intros [-> ->]%orb_false_iff.
    by rewrite (proj1 (space3_slash b a)).
Qed.

Lemma bytes_Join_snoc (init : list string) (e : string) :
  init ≠ [] →
  bytes (Join (init ++ [e]) "/") = bytes (Join init "/") ++ slash :: bytes e.
Proof.
  induction init as [|a [|b init] IH]; intros Hne; [done|..].
  - cbn [app Join]. by rewrite !bytes_app.
  - change ((a :: b :: init) ++ [e]) with (a :: (b :: init) ++ [e]).
    cbn [app]. rewrite !Join_cons, !bytes_app, <- !app_assoc.
    do 2 f_equal. by apply IH.
Qed.

(** The first and the last piece of a joined path are its two ends. *)
Lemma Join_ends (result : list string) :
  result ≠ [] →
  ∃ first final x y,
    first ∈ result ∧ final ∈ result
    ∧ bytes (Join result "/") = bytes first ++ x
    ∧ (x = [] ∨ ∃ x', x = slash :: x')
    ∧ rev (bytes (Join result "/")) = rev (bytes final) ++ y
    ∧ (y = [] ∨ ∃ y', y = slash :: y').
Proof.
  intros Hne.
  assert (∃ first x, first ∈ result ∧ bytes (Join result "/") = bytes first ++ x
                     ∧ (x = [] ∨ ∃ x', x = slash :: x')) as (first & x & ? & ? & ?).
  { destruct result as [|e rest]; [done|].
    exists e, (concat ((λ x, slash :: bytes x) <$> rest)).
    split; [by apply elem_of_cons; left|]. split; [apply bytes_Join|].
    destruct rest; [by left|right]. simpl. eauto. }
  assert (∃ final y, final ∈ result
                     ∧ rev (bytes (Join result "/")) = rev (bytes final) ++ y
                     ∧ (y = [] ∨ ∃ y', y = slash :: y')) as (final & y & ? & ? & ?).
  { destruct result as [|e init _] using rev_ind; [done|].
    destruct init as [|a init].
    - exists e, []. split; [by apply list_elem_of_singleton|].
      split; [by rewrite app_nil_r|by left].
    - exists e, (slash :: rev (bytes (Join (a :: init) "/"))).
      split; [apply elem_of_app; right; by apply list_elem_of_singleton|].
      split; [|right; eauto].
      rewrite bytes_Join_snoc by done. rewrite rev_app_distr. simpl.
      by rewrite <- app_assoc. }
  exists first, final, x, y. done.
Qed.

Lemma head_app_nonempty {A} (x y : list A) : x ≠ [] → head (x ++ y) = head x.
Proof. by destruct x. Qed.

Lemma head_elem_of {A} (x : list A) (a : A) : head x = Some a → a ∈ x.
Proof. destruct x; [done|]. intros [= ->]. by apply elem_of_cons; left. Qed.

Lemma ContainsByte_Join (result : list string) (c : ascii) :
  c ≠ slash → Forall (λ e, ContainsByte e c = false) result →
  ContainsByte (Join result "/") c = false.
Proof.
  intros Hc Hall. destruct result as [|e rest]; [done|].
  destruct (ContainsByte _ c) eqn:E; [|done]. exfalso.
  apply ContainsByte_bytes in E. rewrite bytes_Join in E.
  apply Forall_cons in Hall as [He Hall].
  apply elem_of_app in E as [E|E].
  { apply ContainsByte_bytes in E. congruence. }
  induction rest as [|e' rest IH]; [by apply elem_of_nil in E|].
  apply Forall_cons in Hall as [He' Hall]. simpl in E.
  apply elem_of_cons in E as [->|E]; [done|].
  apply elem_of_app in E as [E|E]; [|by apply IH].
  apply ContainsByte_bytes in E. congruence.
Qed.

(** A joined path of clean pieces is left alone by the trimming steps of
    [cleanStoragePath]. *)
Lemma Join_clean (result : list string) :
  result ≠ [] →
  Forall (λ e, (TrimSpace e = e ∧ e ≠ "" ∧ e ≠ "." ∧ e ≠ "..")
               ∧ ContainsByte e slash = false
               ∧ ContainsByte e backslash = false) result →
  TrimSpace (Join result "/") = Join result "/"
  ∧ TrimByte (Join result "/") slash = Join result "/"
  ∧ Join result "/" ≠ "".
Proof.
  intros Hne Hall.
  destruct (Join_ends result Hne)
    as (first & final & x & y & Hfirst & Hfinal & Hx & Hxs & Hy & Hys).
  pose proof (proj1 (Forall_forall _ _) Hall _ Hfirst)
    as ((Hf1 & Hf2 & _) & Hf3 & _).
  pose proof (proj1 (Forall_forall _ _) Hall _ Hfinal)
    as ((Hl1 & Hl2 & _) & Hl3 & _).
  apply TrimSpace_fixed in Hf1 as [Hf1 _]. apply TrimSpace_fixed in Hl1 as [_ Hl1].
  assert (bytes first ≠ []) as Hfne by by rewrite bytes_nil.
  assert (rev (bytes final) ≠ []) as Hlne.
  { intros E. apply (f_equal (@rev ascii)) in E. rewrite rev_involutive in E.
    by apply bytes_nil in E. }
  split; [|split].
  - apply TrimSpace_fixed. rewrite Hy, Hx. split.
    + by apply startsSpace_slash.
    + by apply startsSpaceRev_slash.
  - apply TrimByte_fixed.
    + rewrite Hx, head_app_nonempty by done. intros E%head_elem_of.
      apply ContainsByte_bytes in E. congruence.
    + rewrite Hy, head_app_nonempty by done. intros E%head_elem_of.
      rewrite elem_of_rev in E. apply ContainsByte_bytes in E. congruence.
  - intros E. apply (f_equal list_ascii_of_string) in E. rewrite Hx in E.
    simpl in E. by apply app_eq_nil in E as [E _].
Qed.

(** X8.  A path that [cleanStoragePath] accepts is not empty, and each of
    its slash-separated segments is a trimmed, non-empty name other than
    [.] and [..] that holds no slash and no backslash. *)
Theorem storage_path_segments (value path : string) :
  cleanStoragePath value = inl path →
  path ≠ ""
  ∧ Forall (λ segment, safeSegment segment ∧ TrimSpace segment = segment)
           (SplitByte path slash).
Proof.
  intros (result & Hne & -> & Hall)%cleanStoragePath_segments.
  split; [by apply Join_clean|].
  rewrite SplitByte_Join; [|done|].
  - eapply Forall_impl; [done|]. intros e ((?&?&?&?)&?&?). by repeat split.
  - eapply Forall_impl; [done|]. by intros e (?&?&?).
Qed.

Lemma storage_path_segments_witness :
  cleanStoragePath " \photos\\bmw/ m3 gtr // " = inl "photos/bmw/m3 gtr"
  ∧ Forall (λ segment, safeSegment segment ∧ TrimSpace segment = segment)
           ["photos"; "bmw"; "m3 gtr"].
Proof.
  assert (cleanStoragePath " \photos\\bmw/ m3 gtr // " = inl "photos/bmw/m3 gtr") as Hrun
    by (vm_compute; reflexivity).
  split; [done|].
  apply (storage_path_segments _ _ Hrun).
Defined.

(** X9.  Cleaning is idempotent: an accepted path is accepted as it is,
    by [cleanStoragePath] and by [cleanOptionalStoragePath]. *)
Theorem storage_path_idempotent (value path : string) :
  cleanStoragePath value = inl path →
  cleanStoragePath path = inl path ∧ cleanOptionalStoragePath path = inl path.
Proof.
  intros (result & Hne & -> & Hall)%cleanStoragePath_segments.
  destruct (Join_clean result Hne Hall) as (Htrim & Hslash & Hnonempty).
  assert (cleanStoragePath (Join result "/") = inl (Join result "/")) as Hsame.
  { unfold cleanStoragePath.
    rewrite ReplaceAllByte_absent.
    2:{ apply ContainsByte_Join; [done|].
        eapply Forall_impl; [done|]. by intros e (?&?&?). }
    rewrite Htrim, Hslash, bool_decide_eq_false_2 by done.
    rewrite SplitByte_Join; [|done|].
    2:{ eapply Forall_impl; [done|]. by intros e (?&?&?). }
    rewrite cleanStorageParts_fixed.
    2:{ eapply Forall_impl; [done|]. by intros e (?&?&?). }
    simpl. by destruct result. }
  split; [done|]. unfold cleanOptionalStoragePath.
  by rewrite Htrim, bool_decide_eq_false_2.
Qed.

Lemma storage_path_idempotent_witness :
  cleanStoragePath "photos/bmw/m3 gtr" = inl "photos/bmw/m3 gtr"
  ∧ cleanOptionalStoragePath "photos/bmw/m3 gtr" = inl "photos/bmw/m3 gtr".
Proof.
  apply (storage_path_idempotent " \photos\\bmw/ m3 gtr // "). vm_compute. reflexivity.
Defined.

Lemma trimLeftByte_stops (s : string) (c : ascii) :
  head (bytes (trimLeftByte s c)) ≠ Some c.
Proof.
  induction s as [|a s IH]; simpl; [done|].
  destruct (Ascii.eqb a c) eqn:E; [done|]. simpl. intros [= ->].
  by rewrite Ascii.eqb_refl in E.
Qed.

Lemma head_rev_suffix {A} (l1 l2 : list A) :
  l1 `suffix_of` l2 → l1 ≠ [] → head (rev l2) = head (rev l1).
Proof.
  intros [k ->] Hne. rewrite rev_app_distr. apply head_app_nonempty.
  intros E. apply (f_equal (@rev A)) in E. by rewrite rev_involutive in E.
Qed.

Lemma TrimByte_stops (s : string) (c : ascii) :
  firstByte (TrimByte s c) ≠ Some c ∧ lastByte (TrimByte s c) ≠ Some c.
Proof.
  unfold firstByte, lastByte, TrimByte. split; [apply trimLeftByte_stops|].
  destruct (decide (bytes (trimLeftByte (trimRightByte s c) c) = [])) as [->|Hne]; [done|].
  rewrite <- (head_rev_suffix _ _ (trimLeftByte_suffix _ _) Hne).
  unfold trimRightByte. rewrite bytes_rev, rev_involutive.
  apply trimLeftByte_stops.
Qed.

Lemma last_elem_of {A} (l : list A) (d : A) : l ≠ [] → List.last l d ∈ l.
Proof.
  induction l as [|a [|b l] IH]; intros Hne; [done|..].
  - by apply list_elem_of_singleton.
  - apply elem_of_cons. right. by apply IH.
Qed.

Lemma first_byte_not (s : string) (c : ascii) :
  s ≠ "" → firstByte s ≠ Some c → s ≠ String c "" ∧ s ≠ String c (String c "").
Proof. intros Hne Hc. split; by intros ->. Qed.

Lemma sanitized_filename_aux (value : string) :
  let name := sanitizeFilename value in
  name = ""
  ∨ (safeSegment name ∧ firstByte name ≠ Some dot ∧ lastByte name ≠ Some dot).
Proof.
  intros name. unfold name, sanitizeFilename.
  set (cleaned := TrimSpace (ReplaceAllByte value backslash "/")).
  case_bool_decide as Hcleaned; [by left|].
  set (parts := SplitByte cleaned slash).
  set (base := TrimByte (TrimSpace (List.last parts "")) dot).
  case_bool_decide as Hbase; [by left|]. simpl.
  repeat case_bool_decide; try (by left). right.
  destruct (TrimByte_stops (TrimSpace (List.last parts "")) dot) as [Hfirst Hlast].
  assert (List.last parts "" ∈ parts) as Hin.
  { apply last_elem_of, splitByteGo_nonempty. }
  assert (bytes base ⊆ bytes (List.last parts "")) as Hsub.
  { intros c Hc%TrimByte_bytes%TrimSpace_bytes. done. }
  split; [|done]. repeat split; try done.
  - apply (ContainsByte_subseteq (List.last parts "")); [done|].
    by apply (splitByteGo_separated "" cleaned).
  - apply (ContainsByte_subseteq cleaned).
    + intros c Hc%Hsub.
      destruct (splitByteGo_bytes _ _ _ _ _ Hin Hc) as [Hnil|Hc'];
        [by apply elem_of_nil in Hnil|done].
    + apply (ContainsByte_subseteq (ReplaceAllByte value backslash "/"));
        [apply TrimSpace_bytes|].
      by apply ReplaceAllByte_gone.
Qed.

(** X10.  A sanitised file name is empty or one path segment: it holds no
    slash and no backslash and neither starts nor ends with a dot, so it is
    never [.] or [..]. *)
Theorem sanitized_filename (value : string) :
  let name := sanitizeFilename value in
  name = ""
  ∨ (safeSegment name ∧ firstByte name ≠ Some dot ∧ lastByte name ≠ Some dot).
Proof. apply sanitized_filename_aux. Qed.








(** ** Object addresses *)

Lemma get_elem_of (i : nat) (s : string) (c : ascii) :
  String.get i s = Some c → c ∈ bytes s.
Proof.
  revert i. induction s as [|a s IH]; intros i; simpl; [done|].
  destruct i as [|i]; [intros [= ->]; by apply elem_of_cons; left|].
  intros Hc%IH. by apply elem_of_cons; right.
Qed.

Lemma upperhex_digit (i : N) : upperhex i ∈ bytes "0123456789ABCDEF".
Proof.
  unfold upperhex. destruct (String.get _ _) as [c|] eqn:Hc.
  - by apply get_elem_of in Hc.
  - by apply elem_of_cons; left.
Qed.

Lemma upperhex_pathBytes (i : N) :
  ContainsByte pathBytes (upperhex i) = true ∧ upperhex i ≠ slash.
Proof.
  pose proof (upperhex_digit i) as Hc. simpl in Hc.
  repeat (apply elem_of_cons in Hc as [->|Hc]; [by vm_compute|]).
  by apply elem_of_nil in Hc.
Qed.

Lemma shouldEscape_pathBytes (c : ascii) :
  shouldEscape c = false → ContainsByte pathBytes c = true ∧ c ≠ slash ∧ c ≠ "%"%char.
Proof.
  destruct c as [[] [] [] [] [] [] [] []]; vm_compute; intros E;
    first [discriminate E | by repeat split].
Qed.

Lemma PathEscape_bytes (s : string) (c : ascii) :
  c ∈ bytes (PathEscape s) → ContainsByte pathBytes c = true ∧ c ≠ slash.
Proof.
  induction s as [|a s IH]; simpl; [by intros ?%elem_of_nil|].
  destruct (shouldEscape a) eqn:Ha; simpl.
  - intros [->|[->|[->|Hc]%elem_of_cons]%elem_of_cons]%elem_of_cons;
      [by vm_compute|apply upperhex_pathBytes..|by apply IH].
  - intros [->|Hc]%elem_of_cons; [|by apply IH].
    by destruct (shouldEscape_pathBytes _ Ha) as (?&?&?).
Qed.

Lemma PathEscape_no_slash (s : string) : ContainsByte (PathEscape s) slash = false.
Proof.
  destruct (ContainsByte _ slash) eqn:E; [|done].
  apply ContainsByte_bytes, PathEscape_bytes in E. by destruct E.
Qed.

Lemma hex_pair_inj (a b : ascii) :
  upperhex (N.shiftr (N_of_ascii a) 4) = upperhex (N.shiftr (N_of_ascii b) 4) →
  upperhex (N.land (N_of_ascii a) 15) = upperhex (N.land (N_of_ascii b) 15) →
  a = b.
Proof.
  set (value := λ h l : ascii,
         ascii_of_N (16 * default 0%N (hexval h) + default 0%N (hexval l))).
  assert (∀ c, value (upperhex (N.shiftr (N_of_ascii c) 4))
                     (upperhex (N.land (N_of_ascii c) 15)) = c) as Hvalue.
  { intros c. by destruct c as [[] [] [] [] [] [] [] []]; vm_compute. }
  intros Hh Hl. rewrite <- (Hvalue a), <- (Hvalue b). by rewrite Hh, Hl.
Qed.

Lemma PathEscape_inj (s t : string) : PathEscape s = PathEscape t → s = t.
Proof.
  revert t. induction s as [|a s IH]; intros [|b t]; simpl.
  - done.
  - by destruct (shouldEscape b).
  - by destruct (shouldEscape a).
  - destruct (shouldEscape a) eqn:Ha, (shouldEscape b) eqn:Hb.
    + intros [= Hh Hl Hrest]. f_equal; [by apply hex_pair_inj|by apply IH].
    + intros [= <- _]. by vm_compute in Hb.
    + intros [= -> _]. by vm_compute in Ha.
    + intros [= -> Hrest]. f_equal. by apply IH.
Qed.

Lemma String_rev_cons (a : ascii) (cur s : string) :
  String.rev (String a cur) +:+ s = String.rev cur +:+ String a s.
Proof.
  apply bytes_inj. rewrite !bytes_app, !bytes_rev. simpl.
  by rewrite <- app_assoc.
Qed.

Lemma Join_splitByteGo (cur s : string) :
  Join (splitByteGo cur s slash) "/" = String.rev cur +:+ s.
Proof.
  revert cur. induction s as [|a s IH]; intros cur; cbn [splitByteGo].
  - cbn [Join]. by rewrite append_nil_r.
  - destruct (Ascii.eqb a slash) eqn:Ha.
    + apply Ascii.eqb_eq in Ha as ->.
      pose proof (IH "") as Htail.
      destruct (splitByteGo "" s slash) as [|e rest] eqn:Hsplit;
        [by apply splitByteGo_nonempty in Hsplit|].
      rewrite Join_cons, Htail. done.
    + rewrite IH. apply String_rev_cons.
Qed.

Lemma Join_SplitByte (s : string) : Join (SplitByte s slash) "/" = s.
Proof. apply (Join_splitByteGo "" s). Qed.

Lemma escaped_segments (segments : list string) :
  Forall (λ e, ContainsByte e slash = false) (PathEscape <$> segments).
Proof. apply Forall_fmap, Forall_forall. intros e _. apply PathEscape_no_slash. Qed.

Lemma encodeStoragePath_split (path : string) :
  SplitByte (encodeStoragePath path) slash = PathEscape <$> SplitByte path slash.
Proof.
  unfold encodeStoragePath. apply SplitByte_Join; [|apply escaped_segments].
  intros Hnil%fmap_nil_inv. by apply splitByteGo_nonempty in Hnil.
Qed.

Lemma PathEscape_fmap_inj (l k : list string) :
  PathEscape <$> l = PathEscape <$> k → l = k.
Proof.
  revert k. induction l as [|a l IH]; intros [|b k]; try done.
  rewrite !fmap_cons. intros [= Hab%PathEscape_inj Hrest%IH]. by subst.
Qed.

(** X12.  Encoding an object path keeps its segments apart: the encoded
    path has the segments of the path, each escaped on its own, and holds
    only letters, digits, the marks [-_.~$&+:=@], per cent signs and the
    separating slashes; two paths with the same encoding are equal. *)
Theorem encoded_path_segments (path : string) :
  SplitByte (encodeStoragePath path) slash = PathEscape <$> SplitByte path slash
  ∧ (∀ c, c ∈ bytes (encodeStoragePath path) → ContainsByte pathBytes c = true)
  ∧ (∀ other, encodeStoragePath other = encodeStoragePath path → other = path).
Proof.
  split; [apply encodeStoragePath_split|]. split.
  - intros c Hc. unfold encodeStoragePath in Hc.
    pose proof (splitByteGo_nonempty "" path slash) as Hne.
    fold (SplitByte path slash) in Hne.
    destruct (SplitByte path slash) as [|e rest]; [done|]. clear Hne.
    rewrite fmap_cons, bytes_Join in Hc.
    apply elem_of_app in Hc as [Hc|Hc]; [by apply PathEscape_bytes in Hc as [? _]|].
    induction rest as [|e' rest IH]; [by apply elem_of_nil in Hc|].
    rewrite fmap_cons in Hc. simpl in Hc.
    apply elem_of_cons in Hc as [->|Hc]; [by vm_compute|].
    apply elem_of_app in Hc as [Hc|Hc]; [by apply PathEscape_bytes in Hc as [? _]|].
    by apply IH.
  - intros other Hsame. apply (f_equal (λ s, SplitByte s slash)) in Hsame.
    rewrite !encodeStoragePath_split in Hsame.
    apply PathEscape_fmap_inj in Hsame.
    by rewrite <- (Join_SplitByte other), Hsame, Join_SplitByte.
Qed.

Lemma object_address_inj (prefix bucket path bucket' path' : string) :
  prefix +:+ PathEscape bucket +:+ "/" +:+ encodeStoragePath path
  = prefix +:+ PathEscape bucket' +:+ "/" +:+ encodeStoragePath path' →
  bucket = bucket' ∧ path = path'.
Proof.
  intros Hsame. apply (f_equal list_ascii_of_string) in Hsame.
  rewrite !(bytes_app prefix) in Hsame. apply app_inv_head, bytes_inj in Hsame.
  assert (∀ b p, PathEscape b +:+ "/" +:+ encodeStoragePath p
                 = Join (PathEscape <$> b :: SplitByte p slash) "/") as Hjoin.
  { intros b p. unfold encodeStoragePath.
    pose proof (splitByteGo_nonempty "" p slash) as Hne.
    fold (SplitByte p slash) in Hne.
    destruct (SplitByte p slash) as [|e rest]; [done|]. done. }
  rewrite !Hjoin in Hsame. apply (f_equal (λ s, SplitByte s slash)) in Hsame.
  rewrite !SplitByte_Join in Hsame by (done || apply escaped_segments).
  apply PathEscape_fmap_inj in Hsame. injection Hsame as -> Hsplit.
  split; [done|].
  by rewrite <- (Join_SplitByte path), Hsplit, Join_SplitByte.
Qed.

(** X13.  Under one base address, different objects have different
    addresses: the upload address and the public address each determine the
    bucket and the object path. *)
Theorem object_url_injective (baseURL bucket path bucket' path' : string) :
  (bucket, path) ≠ (bucket', path') →
  buildSupabaseObjectURL baseURL bucket path
  ≠ buildSupabaseObjectURL baseURL bucket' path'
  ∧ buildSupabasePublicURL baseURL bucket path
    ≠ buildSupabasePublicURL baseURL bucket' path'.
Proof.
  intros Hne. unfold buildSupabaseObjectURL, buildSupabasePublicURL.
  split; intros Hsame; apply Hne.
  - rewrite !(append_assoc (trimRightByte baseURL slash)) in Hsame.
    by apply object_address_inj in Hsame as [-> ->].
  - rewrite !(append_assoc (trimRightByte baseURL slash)) in Hsame.
    by apply object_address_inj in Hsame as [-> ->].
Qed.

Lemma object_url_injective_witness :
  buildSupabasePublicURL "https://x.supabase.co/" "cars" "bmw/a b.jpg"
  ≠ buildSupabasePublicURL "https://x.supabase.co/" "cars" "bmw/a%20b.jpg".
Proof.
  apply (object_url_injective "https://x.supabase.co/" "cars" "bmw/a b.jpg"
           "cars" "bmw/a%20b.jpg").
  intros [=].
Defined.

(** ** The administrator token *)

Lemma substring_all (t : string) : substring 0 (String.length t) t = t.
Proof. induction t as [|a t IH]; simpl; [done|]. by rewrite IH. Qed.

Lemma substring_app_l (s t : string) : substring 0 (String.length s) (s +:+ t) = s.
Proof.
  induction s as [|a s IH]; simpl; [by destruct t|]. by rewrite IH.
Qed.

Lemma length_app (s t : string) :
  String.length (s +:+ t) = (String.length s + String.length t)%nat.
Proof. induction s as [|a s IH]; simpl; [done|]. by rewrite IH. Qed.

Lemma substring_app_r (s t : string) :
  substring (String.length s) (String.length (s +:+ t) - String.length s) (s +:+ t) = t.
Proof.
  induction s as [|a s IH]; simpl.
  - rewrite Nat.sub_0_r. apply substring_all.
  - apply IH.
Qed.

Lemma lowerByte_letter (a : ascii) :
  Ascii.eqb (lowerByte a) (lowerByte "B") = true → a = "B"%char ∨ a = "b"%char.
Proof.
  destruct a as [[] [] [] [] [] [] [] []]; vm_compute; intros E;
    first [discriminate E | by left | by right].
Qed.

Lemma lowerByte_space (a : ascii) :
  Ascii.eqb (lowerByte a) (lowerByte " ") = true → a = " "%char.
Proof.
  destruct a as [[] [] [] [] [] [] [] []]; vm_compute; intros E;
    first [discriminate E | done].
Qed.

(** The scheme of a bearer credential: seven bytes, from a letter to a
    space. *)
Lemma EqualFold_Bearer (scheme : string) :
  EqualFold scheme "Bearer " = true →
  String.length scheme = 7%nat
  ∧ ∃ a a2 a3 a4 a5 a6, (a = "B"%char ∨ a = "b"%char)
      ∧ bytes scheme = [a; a2; a3; a4; a5; a6; " "%char].
Proof.
  destruct scheme as [|a1 [|a2 [|a3 [|a4 [|a5 [|a6 [|a7 [|a8 rest]]]]]]]];
    cbn [EqualFold]; rewrite ?andb_false_r; try done.
  intros (H1 & (_ & (_ & (_ & (_ & (_ & (H7 & _)%andb_true_iff)%andb_true_iff)
    %andb_true_iff)%andb_true_iff)%andb_true_iff)%andb_true_iff)%andb_true_iff.
  split; [done|]. apply lowerByte_letter in H1. apply lowerByte_space in H7 as ->.
  by exists a1, a2, a3, a4, a5, a6.
Qed.

Lemma space_byte_neutral (a b : ascii) :
  space2 " " a = false ∧ space3 " " a b = false ∧ space3 a " " b = false.
Proof.
  unfold space2, space3. change (N_of_ascii " ") with 32%N.
  generalize (N_of_ascii a) (N_of_ascii b). intros x y. split; [done|]. split; [done|].
  by destruct (x =? 225)%N, (x =? 226)%N, (x =? 227)%N.
Qed.

Lemma startsSpaceRev_space (x y : list ascii) :
  x ≠ [] → startsSpaceRev x = false → startsSpaceRev (x ++ " "%char :: y) = false.
Proof.
  intros Hx.
  destruct x as [|a [|b [|c r]]]; [done|..]; cbn [startsSpaceRev app]; [| |done].
  - rewrite orb_false_r. intros ->.
    rewrite (proj1 (space_byte_neutral a a)).
    destruct y; [done|]. by rewrite (proj2 (proj2 (space_byte_neutral _ a))).
  - rewrite orb_false_r. intros [-> ->]%orb_false_iff.
    by rewrite (proj1 (proj2 (space_byte_neutral b a))).
Qed.

Lemma bearer_credential (scheme token : string) :
  EqualFold scheme "Bearer " = true → TrimSpace token = token → token ≠ "" →
  TrimSpace (scheme +:+ token) = scheme +:+ token.
Proof.
  intros (Hlen & a & a2 & a3 & a4 & a5 & a6 & Ha & Hscheme)%EqualFold_Bearer Htoken Hne.
  apply TrimSpace_fixed in Htoken as [_ Htoken].
  apply TrimSpace_fixed. rewrite bytes_app, Hscheme. split.
  - by destruct Ha as [-> | ->].
  - rewrite rev_app_distr.
    change (rev [a; a2; a3; a4; a5; a6; " "%char])
      with (" "%char :: [a6; a5; a4; a3; a2; a]).
    apply startsSpaceRev_space; [|done].
    intros E. apply (f_equal (@rev ascii)) in E. rewrite rev_involutive in E.
    by apply bytes_nil in E.
Qed.

(** X14.  Without a configured token every request passes.  With one, a
    non-blank [X-Admin-Token] header decides alone, whatever the
    [Authorization] header holds; a bearer credential counts only when
    [X-Admin-Token] is blank, its scheme read without case; an
    [Authorization] value shorter than the scheme is refused; and a refusal
    is always the 401 response. *)
Theorem admin_token_check (adminToken : string) :
  (TrimSpace adminToken = "" → ∀ h, requireAdminToken adminToken h = None)
  ∧ (TrimSpace adminToken ≠ "" →
     (∀ h, TrimSpace (X_Admin_Token h) ≠ "" →
           requireAdminToken adminToken h = None
           ↔ TrimSpace (X_Admin_Token h) = TrimSpace adminToken)
     ∧ (∀ h scheme token,
          TrimSpace (X_Admin_Token h) = "" →
          Authorization h = scheme +:+ token →
          EqualFold scheme "Bearer " = true → TrimSpace token = token → token ≠ "" →
          requireAdminToken adminToken h = None ↔ token = TrimSpace adminToken)
     ∧ (∀ h, TrimSpace (X_Admin_Token h) = "" →
             (String.length (TrimSpace (Authorization h)) < 7)%nat →
             requireAdminToken adminToken h ≠ None))
  ∧ (∀ h written, requireAdminToken adminToken h = Some written →
       written = JSONResponse StatusUnauthorized (errorBody "unauthorized")).
Proof.
  split; [|split].
  - intros Hoff h. unfold requireAdminToken. by rewrite bool_decide_eq_true_2.
  - intros Hon. split; [|split].
    + intros h Hx. unfold requireAdminToken.
      rewrite (bool_decide_eq_false_2 _ Hon), (bool_decide_eq_false_2 _ Hx).
      case_bool_decide; simpl; split; done.
    + intros h scheme token Hx Hauth Hscheme Htrim Hne. unfold requireAdminToken.
      rewrite (bool_decide_eq_false_2 _ Hon), (bool_decide_eq_true_2 _ Hx).
      rewrite Hauth, (bearer_credential _ _ Hscheme Htrim Hne).
      destruct (EqualFold_Bearer _ Hscheme) as [Hlen _].
      pose proof (substring_app_l scheme token) as Hhead.
      pose proof (substring_app_r scheme token) as Htail.
      rewrite Hlen in Hhead, Htail. rewrite Hhead, Htail, Hscheme.
      rewrite length_app, Hlen. simpl. rewrite Htrim.
      case_bool_decide; simpl; split; done.
    + intros h Hx Hshort. unfold requireAdminToken.
      rewrite (bool_decide_eq_false_2 _ Hon), (bool_decide_eq_true_2 _ Hx).
      destruct (7 <=? _)%nat eqn:Hlen; [apply Nat.leb_le in Hlen; lia|]. simpl.
      rewrite Hx. rewrite bool_decide_eq_false_2; [done|]. intros E. by apply Hon.
  - intros h written. unfold requireAdminToken.
    case_bool_decide; [done|]. destruct (negb _); [|done]. by intros [= <-].
Qed.

Lemma admin_token_check_witness :
  requireAdminToken " s3cret " {| X_Admin_Token := ""; Authorization := "bearer s3cret" |}
  = None
  ∧ requireAdminToken " s3cret "
      {| X_Admin_Token := "guess"; Authorization := "Bearer s3cret" |}
    ≠ None.
Proof.
  assert (TrimSpace " s3cret " ≠ "") as Hon by (vm_compute; discriminate).
  destruct (admin_token_check " s3cret ") as (_ & Henabled & _).
  destruct (Henabled Hon) as (Hheader & Hbearer & _). split.
  - apply (Hbearer {| X_Admin_Token := ""; Authorization := "bearer s3cret" |}
             "bearer " "s3cret"); try reflexivity.
    vm_compute. discriminate.
  - intros Hpass.
    apply (Hheader {| X_Admin_Token := "guess"; Authorization := "Bearer s3cret" |})
      in Hpass; [|vm_compute; discriminate].
    vm_compute in Hpass. discriminate Hpass.
Defined.

(** ** Reading records *)

Lemma listResponse_not_failed `{JSONCodec} (raw : string) :
  Admin.listResponse raw
  ≠ JSONResponse StatusInternalServerError (errorBody "failed to fetch data").
Proof.
  unfold Admin.listResponse. destruct (_ =? _)%nat; [done|].
  destruct (json_decode raw); [done|].
  intros [= E].
Qed.

(** X15.  Listing a table falls back to the order by [id]: the list fails
    with "failed to fetch data" exactly when the query in the configured
    order and the query ordered by [id] both fail; otherwise the answer is
    made from the row of the first of the two that succeeds. *)
Theorem fetch_many_fallback `{JSONCodec} {Rows : Type} (a : App Rows)
    (cfg : tableCRUDConfig) :
  let configured := Admin.queryAdminList a (Table cfg) (configuredOrder cfg) in
  let byId := Admin.queryAdminList a (Table cfg) "t.id ASC" in
  (Admin.adminFetchMany a cfg
   = JSONResponse StatusInternalServerError (errorBody "failed to fetch data")
   ↔ isRow configured = false ∧ isRow byId = false)
  ∧ (∀ raw, configured = RowBytes raw →
            Admin.adminFetchMany a cfg = Admin.listResponse raw)
  ∧ (∀ raw, isRow configured = false → byId = RowBytes raw →
            Admin.adminFetchMany a cfg = Admin.listResponse raw).
Proof.
  intros configured byId. unfold Admin.adminFetchMany.
  fold (configuredOrder cfg). fold configured.
  destruct (decide (configuredOrder cfg = "t.id ASC")) as [Hid|Hid].
  - rewrite (bool_decide_eq_true_2 _ Hid). simpl.
    assert (byId = configured) as -> by (unfold configured; by rewrite Hid).
    destruct configured as [raw| |msg] eqn:Hc; simpl.
    + split; [split; [by intros ?%listResponse_not_failed|by intros [? _]]|].
      split; [by intros ? [= ->]|done].
    + split; [done|]. split; done.
    + split; [done|]. split; done.
  - rewrite (bool_decide_eq_false_2 _ Hid). simpl. fold byId.
    destruct configured as [raw| |msg] eqn:Hc; simpl.
    + split; [split; [by intros ?%listResponse_not_failed|by intros [? _]]|].
      split; [by intros ? [= ->]|done].
    + destruct byId as [raw'| |msg'] eqn:Hb; simpl.
      * split; [split; [by intros ?%listResponse_not_failed|by intros [_ ?]]|].
        split; [done|by intros ? _ [= ->]].
      * split; [done|]. split; done.
      * split; [done|]. split; done.
    + destruct byId as [raw'| |msg'] eqn:Hb; simpl.
      * split; [split; [by intros ?%listResponse_not_failed|by intros [_ ?]]|].
        split; [done|by intros ? _ [= ->]].
      * split; [done|]. split; done.
      * split; [done|]. split; done.
Qed.

Lemma fetch_many_fallback_witness :
  @Admin.adminFetchMany sampleCodec _ listApp cfgBanners
  = JSONResponse StatusOK (successBody (ASlice [])).
Proof.
  destruct (@fetch_many_fallback sampleCodec _ listApp cfgBanners) as (_ & _ & Hretry).
  rewrite (Hretry "[]"); [| vm_compute; reflexivity | vm_compute; reflexivity].
  vm_compute. reflexivity.
Defined.

(** X16.  A request sends only statements of its method: a GET only
    [SELECT], a POST only its [INSERT], a PUT or PATCH only its [UPDATE], a
    DELETE only its [DELETE]; the answer is the same on two databases that
    answer these statements alike, and a GET or DELETE is answered without
    regard to the body. *)
Theorem methods_send_their_statements `{JSONCodec} `{Machine} {Rows : Type}
    (a a' : App Rows) (cfg : tableCRUDConfig) (r : request)
    (payload payload' : gmap string any) (w w' : walks) :
  agreeOn (methodStatement (Method r)) a a' →
  (Method r = "GET" ∨ Method r = "DELETE" ∨ (payload = payload' ∧ w = w')) →
  makeAdminTableCRUDHandler (tableOps a cfg payload w) cfg r
  = makeAdminTableCRUDHandler (tableOps a' cfg payload' w') cfg r.
Proof.
  unfold agreeOn, methodStatement, makeAdminTableCRUDHandler. intros Hagree Hbody.
  destruct (parseResourceID r (Path cfg)) as [id|err]; [|done].
  case_bool_decide as Hget.
  { destruct id as [id|]; simpl.
    - unfold Admin.adminFetchOne. by rewrite Hagree.
    - unfold Admin.adminFetchMany, Admin.queryAdminList. by rewrite !Hagree. }
  case_bool_decide as Hpost.
  { destruct Hbody as [?|[Hdel|[<- <-]]]; [done|by rewrite Hdel in Hpost|].
    simpl. unfold adminCreateOne.
    destruct (0 <? _)%nat; [done|].
    destruct (createStatement cfg payload (sortWalk w)) as [stmt|msg] eqn:Hstmt; [|done].
    rewrite Hagree; [done|].
    unfold createStatement in Hstmt.
    destruct (_ =? _)%nat; [simplify_eq; exact (HasPrefix_app _ _)|].
    destruct (createColumns _ _ _ _ _ _ _) as [[[??]?]|?]; simplify_eq.
    exact (HasPrefix_app _ _). }
  destruct (bool_decide (Method r = "PUT") || bool_decide (Method r = "PATCH")) eqn:Hput.
  { destruct Hbody as [?|[Hdel|[<- <-]]]; [done|by rewrite Hdel in Hput|].
    destruct id as [id|]; [|done]. simpl. unfold adminUpdateOne.
    destruct (0 <? _)%nat; [done|].
    destruct (updateStatement cfg id payload (sortWalk w)) as [| msg | clauses stmt] eqn:Hstmt;
      [done..|].
    rewrite Hagree; [done|].
    unfold updateStatement in Hstmt.
    destruct (_ && _); [done|].
    destruct (updateClauses _ _ _ _ _ _) as [[??]|?]; simplify_eq.
    exact (HasPrefix_app _ _). }
  destruct (bool_decide (Method r = "DELETE")); [|done].
  destruct id as [id|]; [|done]. simpl.
  unfold Admin.adminDeleteOne. rewrite Hagree; [done|]. exact (HasPrefix_app _ _).
Qed.

Lemma methods_send_their_statements_witness :
  @makeAdminTableCRUDHandler
    (@tableOps sampleCodec amd64 _ sampleApp cfgTuning ∅ noWalks) cfgTuning
    (getRequest "/admin/tuning/1" [])
  = @makeAdminTableCRUDHandler
      (@tableOps sampleCodec amd64 _ readOnlyApp cfgTuning samplePayload noWalks) cfgTuning
      (getRequest "/admin/tuning/1" []).
Proof.
  apply (@methods_send_their_statements sampleCodec amd64 _ sampleApp readOnlyApp).
  - intros query args Hselect.
    change (HasPrefix query "SELECT " = true) in Hselect.
    unfold readOnlyApp. cbn [QueryRowScan]. by rewrite Hselect.
  - by left.
Defined.

(** ** Listing stored objects *)

Lemma parseIntOrDefault_range (raw : string) (fallback number : Z) :
  parseIntOrDefault raw fallback = inl number →
  number = fallback ∨ inInt64 number = true.
Proof.
  unfold parseIntOrDefault. case_bool_decide; [intros [= <-]; by left|].
  destruct (ParseInt _) as [n|e] eqn:Hn; [|done]. intros [= <-]. right.
  by apply ParseInt_integer in Hn as [_ ?].
Qed.

(** X17.  Whatever the query asks for, the options of a listing are within
    bounds: a limit from 1 to 500, an offset from 0 up, the order [asc] or
    [desc], a non-blank trimmed sort column, a trimmed search text, and a
    prefix that is empty or a clean path. *)
Theorem list_options_bounds `{Unicode} (query : list (string * string))
    (opts : storageListOptions) :
  listOptions query = inl opts →
  1 ≤ Limit opts ≤ maxStorageLimit
  ∧ 0 ≤ Offset opts ≤ maxInt64
  ∧ (SortOrder opts = "asc" ∨ SortOrder opts = "desc")
  ∧ notBlank (SortColumn opts) ∧ TrimSpace (SortColumn opts) = SortColumn opts
  ∧ TrimSpace (Search opts) = Search opts
  ∧ (Prefix opts = ""
     ∨ Forall (λ segment, safeSegment segment ∧ TrimSpace segment = segment)
              (SplitByte (Prefix opts) slash)).
Proof.
  unfold listOptions.
  destruct (cleanOptionalStoragePath _) as [prefix|err] eqn:Hprefix; [|done].
  destruct (parseIntOrDefault _ defaultStorageLimit) as [limit|e]; [|done].
  destruct (parseIntOrDefault _ 0) as [offset|e] eqn:Hoffset; [|done].
  destruct (offset <? 0) eqn:Hneg; [done|]. apply Z.ltb_ge in Hneg.
  intros [= <-]. cbn [Limit Offset SortOrder SortColumn Search Prefix].
  split; [|split; [|split; [|split; [|split; [|split]]]]].
  - unfold maxStorageLimit.
    destruct (limit <? 1) eqn:H1; [done|]. apply Z.ltb_ge in H1.
    destruct (500 <? limit) eqn:H2; [done|]. apply Z.ltb_ge in H2. done.
  - split; [done|].
    apply parseIntOrDefault_range in Hoffset as [->|Hrange]; [done|].
    unfold inInt64 in Hrange. apply andb_true_iff in Hrange as [_ ?%Z.leb_le]. done.
  - case_bool_decide as Hdesc; simpl; [by right|by left].
  - cbn [firstNonEmpty]. unfold isBlank. rewrite TrimSpace_idemp.
    case_bool_decide as Hcol; [|unfold notBlank; by rewrite TrimSpace_idemp].
    unfold notBlank. by vm_compute.
  - cbn [firstNonEmpty]. unfold isBlank. rewrite TrimSpace_idemp.
    case_bool_decide as Hcol; [|apply TrimSpace_idemp].
    by vm_compute.
  - apply TrimSpace_idemp.
  - unfold cleanOptionalStoragePath in Hprefix.
    case_bool_decide; [left; by simplify_eq|right].
    apply cleanStoragePath_segments in Hprefix as (result & Hne & -> & Hall).
    rewrite SplitByte_Join; [|done|].
    + eapply Forall_impl; [done|]. intros e ((?&?&?&?)&?&?). by repeat split.
    + eapply Forall_impl; [done|]. by intros e (?&?&?).
Qed.

Lemma list_options_bounds_witness :
  @listOptions asciiLower
    [("limit", "100000"); ("sort_order", " DESC "); ("prefix", "\cars\\bmw/")]
  = inl {| Prefix := "cars/bmw"; Limit := 500; Offset := 0; SortColumn := "name";
           SortOrder := "desc"; Search := "" |}
  ∧ 1 ≤ 500 ≤ maxStorageLimit.
Proof.
  assert (@listOptions asciiLower
            [("limit", "100000"); ("sort_order", " DESC "); ("prefix", "\cars\\bmw/")]
          = inl {| Prefix := "cars/bmw"; Limit := 500; Offset := 0; SortColumn := "name";
                   SortOrder := "desc"; Search := "" |}) as Hrun
    by (vm_compute; reflexivity).
  split; [done|].
  by destruct (@list_options_bounds asciiLower _ _ Hrun) as (? & _).
Defined.

Lemma bucketNames_loop (payload : list (gmap string any)) (buckets : list string)
    (name : string) :
  name ∈ foldl (λ (buckets : list string) (bucket : gmap string any),
                  let name := match bucket !! "name" with
                              | Some (AString name) => name
                              | _ => ""
                              end in
                  let name := TrimSpace name in
                  if bool_decide (name = "") then buckets else buckets ++ [name])
               buckets payload
  ↔ name ∈ buckets
    ∨ ∃ bucket text, bucket ∈ payload ∧ bucket !! "name" = Some (AString text)
                     ∧ name = TrimSpace text ∧ name ≠ "".
Proof.
  revert buckets. induction payload as [|bucket payload IH]; intros buckets; simpl.
  - split; [by left|]. intros [Hin|(b & text & Hb%elem_of_nil & _)]; done.
  - rewrite IH. clear IH. split.
    + intros [Hin|(b & text & Hb & Hrest)].
      * case_bool_decide as Hblank; [by left|].
        apply elem_of_app in Hin as [Hin|Hin]; [by left|right].
        apply list_elem_of_singleton in Hin as ->.
        destruct (bucket !! "name") as [[| | | |text| |]|] eqn:Hname;
          try (by rewrite TrimSpace_empty in Hblank).
        exists bucket, text. split; [by apply elem_of_cons; left|done].
      * right. exists b, text. split; [by apply elem_of_cons; right|done].
    + intros [Hin|(b & text & Hb & Hname & -> & Hne)].
      * left. case_bool_decide; [done|]. apply elem_of_app. by left.
      * apply elem_of_cons in Hb as [->|Hb].
        -- left. rewrite Hname, bool_decide_eq_false_2 by done.
           apply elem_of_app. right. by apply list_elem_of_singleton.
        -- right. by exists b, text.
Qed.

(** X18.  The bucket names taken from the storage service's answer are in
    increasing order, and they are the trimmed, non-blank [name] strings of
    the listed buckets. *)
Theorem bucket_names (payload : list (gmap string any)) :
  StronglySorted String.le (bucketNames payload)
  ∧ ∀ name, name ∈ bucketNames payload
            ↔ ∃ bucket text, bucket ∈ payload ∧ bucket !! "name" = Some (AString text)
                             ∧ name = TrimSpace text ∧ name ≠ "".
Proof.
  unfold bucketNames. split; [apply StronglySorted_merge_sort; apply _|].
  intros name. rewrite merge_sort_Permutation, bucketNames_loop.
  split; [intros [?%elem_of_nil|?]; done|by right].
Qed.

(** ** What reaches the database *)

Lemma validation_passed (payloadWalk requiredWalk : list string)
    (payload : gmap string any) (allowed : gset string) :
  (0 <? size (validateCRUDPayload payloadWalk requiredWalk payload allowed))%nat = false →
  (∀ key, key ∈ payloadWalk → key ∈ allowed)
  ∧ (∀ key, key ∈ requiredWalk → ¬ missingOrEmpty payload key).
Proof.
  intros Hsize.
  assert (validateCRUDPayload payloadWalk requiredWalk payload allowed = ∅) as Hnone.
  { destruct (decide (validateCRUDPayload payloadWalk requiredWalk payload allowed = ∅))
      as [?|Hne]; [done|].
    apply size_positive in Hne. congruence. }
  split; intros key Hkey.
  - pose proof (validateCRUDPayload_lookup payloadWalk requiredWalk payload allowed key) as Hl.
    rewrite Hnone, lookup_empty in Hl.
    case_bool_decide; [done|]. case_bool_decide as Hedit; [done|].
    destruct (decide (key ∈ allowed)); [done|]. by destruct Hedit.
  - pose proof (validateCRUDPayload_lookup payloadWalk requiredWalk payload allowed key) as Hl.
    rewrite Hnone, lookup_empty in Hl.
    case_bool_decide as Hreq; [done|].
    intros Hempty%emptyAt_spec. by destruct Hreq.
Qed.

(** X19.  A statement reaches the database only after validation: when the
    answer of a create or an update is neither 422 nor 400, the statement
    was built from payload keys that are all mutable columns of the table,
    and on create every required column is among them with a value that is
    not empty. *)
Theorem statements_name_mutable_columns `{JSONCodec} `{Machine} {Rows : Type}
    (a : App Rows) (cfg : tableCRUDConfig) (id : Z) (payload : gmap string any)
    (w : walks) :
  walksOf (RequiredOnCreate cfg) payload w →
  let keys := sortedMapKeys (sortWalk w) in
  (∀ code body,
     adminCreateOne a cfg payload w = JSONResponse code body →
     code ≠ StatusUnprocessableEntity → code ≠ StatusBadRequest →
     (∃ stmt, createStatement cfg payload (sortWalk w) = inl stmt)
     ∧ (∀ key, key ∈ keys → key ∈ MutableColumns cfg)
     ∧ (∀ key, key ∈ RequiredOnCreate cfg →
               key ∈ keys ∧ ¬ missingOrEmpty payload key))
  ∧ (∀ code body,
       adminUpdateOne a cfg id payload w = JSONResponse code body →
       code ≠ StatusUnprocessableEntity → code ≠ StatusBadRequest →
       (∃ setClauses stmt,
          updateStatement cfg id payload (sortWalk w) = UpdateRun setClauses stmt)
       ∧ ∀ key, key ∈ keys → key ∈ MutableColumns cfg).
Proof.
  intros (Hvalidate & Hrequired & Hsort) keys.
  assert (∀ key, key ∈ keys ↔ key ∈ dom payload) as Hkeys.
  { intros key. unfold keys. rewrite sortedMapKeys_perm. by apply walkOf_elem_of. }
  split.
  - intros code body. unfold adminCreateOne.
    destruct (0 <? _)%nat eqn:Hsize; [by intros [= <- _]|].
    destruct (createStatement cfg payload (sortWalk w)) as [stmt|msg]; [|by intros [= <- _]].
    intros _ _ _. split; [by exists stmt|].
    apply validation_passed in Hsize as [Hallowed Hpresent]. split.
    + intros key Hkey%Hkeys. apply Hallowed. by apply (walkOf_elem_of payload).
    + intros key Hkey. apply (walkOfSet_elem_of _ _ _ Hrequired) in Hkey.
      split; [|by apply Hpresent].
      apply Hkeys. apply elem_of_dom.
      destruct (payload !! key) eqn:Hlookup; [done|].
      destruct (Hpresent key Hkey). by left.
  - intros code body. unfold adminUpdateOne.
    destruct (0 <? _)%nat eqn:Hsize; [by intros [= <- _]|].
    destruct (updateStatement cfg id payload (sortWalk w)) as [|msg|setClauses stmt];
      [by intros [= <- _]..|].
    intros _ _ _. split; [by exists setClauses, stmt|].
    apply validation_passed in Hsize as [Hallowed _].
    intros key Hkey%Hkeys. apply Hallowed. by apply (walkOf_elem_of payload).
Qed.

Lemma statements_name_mutable_columns_witness :
  (∀ key, key ∈ sortedMapKeys ["title"; "image_url"] → key ∈ MutableColumns cfgPortfolio)
  ∧ ∀ key, key ∈ RequiredOnCreate cfgPortfolio →
           key ∈ sortedMapKeys ["title"; "image_url"].
Proof.
  set (payload := {[ "title" := AString "M3"; "image_url" := AString "m3.jpg" ]}
                  : gmap string any).
  set (w := {| validateWalk := ["title"; "image_url"];
               requiredWalk := ["image_url"; "title"];
               sortWalk := ["title"; "image_url"] |}).
  assert (walksOf (RequiredOnCreate cfgPortfolio) payload w) as Hw.
  { unfold walksOf, walkOf, walkOfSet. split_and!;
      apply (bool_decide_unpack _); vm_compute; exact I. }
  destruct (@statements_name_mutable_columns sampleCodec amd64 _ sampleApp cfgPortfolio 1
              payload w Hw) as [Hcreate _].
  destruct (Hcreate StatusInternalServerError (errorBody "failed to create record"))
    as (_ & Hmutable & Hrequired).
  - vm_compute. reflexivity.
  - discriminate.
  - discriminate.
  - split; [exact Hmutable|]. intros key Hkey. by destruct (Hrequired key Hkey).
Defined.

(** ** Consultation requests *)

Lemma insert_or_keep_empty (b : bool) (key value : string) (errs : gmap string string) :
  (if b then <[key := value]> errs else errs) = ∅ ↔ b = false ∧ errs = ∅.
Proof.
  destruct b; [|naive_solver]. split; [|by intros [? _]].
  intros E. by apply insert_non_empty in E.
Qed.

Lemma insert_twice_or_keep_empty (b1 b2 : bool) (key value1 value2 : string)
    (errs : gmap string string) :
  (if b1 then <[key := value1]> errs
   else if b2 then <[key := value2]> errs else errs) = ∅
  ↔ b1 = false ∧ b2 = false ∧ errs = ∅.
Proof.
  destruct b1.
  - split; [|by intros [? _]]. intros E. by apply insert_non_empty in E.
  - rewrite insert_or_keep_empty. naive_solver.
Qed.

Lemma validateConsultationRequest_empty
    (firstName lastName phone serviceType carModel preferredCallTime comments : string) :
  validateConsultationRequest firstName lastName phone serviceType carModel
    preferredCallTime comments = ∅
  ↔ (TrimSpace firstName ≠ "" ∧ (runeCount (TrimSpace firstName) ≤ 100)%nat)
    ∧ (TrimSpace lastName ≠ "" ∧ (runeCount (TrimSpace lastName) ≤ 100)%nat)
    ∧ (TrimSpace phone ≠ "" ∧ phonePattern_MatchString (TrimSpace phone) = true)
    ∧ (TrimSpace serviceType ≠ "" ∧ (runeCount (TrimSpace serviceType) ≤ 80)%nat)
    ∧ (runeCount (TrimSpace carModel) ≤ 120)%nat
    ∧ (runeCount (TrimSpace preferredCallTime) ≤ 120)%nat
    ∧ (runeCount (TrimSpace comments) ≤ 2000)%nat.
Proof.
  unfold validateConsultationRequest. cbv zeta.
  rewrite !insert_or_keep_empty, !insert_twice_or_keep_empty.
  rewrite !bool_decide_eq_false, !Nat.ltb_ge, negb_false_iff. naive_solver.
Qed.

Lemma codeb_eq (c : ascii) (n : N) : codeb c n = true → c = ascii_of_N n.
Proof.
  unfold codeb. intros E%N.eqb_eq. subst n. symmetry. apply ascii_N_embedding.
Qed.

Lemma phonePattern_phoneNumber (phone : string) :
  phonePattern_MatchString phone = true ↔ phoneNumber (AString phone).
Proof.
  unfold phonePattern_MatchString, phoneNumber. split.
  - intros [[Hdigits Hmin%Nat.leb_le]%andb_true_iff Hmax%Nat.leb_le]%andb_true_iff.
    destruct phone as [|c r]; [simpl in Hmin; lia|].
    destruct (codeb c 43) eqn:Hplus.
    + apply codeb_eq in Hplus as ->. exists "+", r.
      split_and!; [reflexivity|by right|done|done|done].
    + exists "", (String c r).
      split_and!; [reflexivity|by left|done|done|done].
  - intros (sign & digits & [= ->] & [-> | ->] & Hdigits & Hmin & Hmax).
    + change ("" +:+ digits) with digits.
      destruct digits as [|c r]; [simpl in Hmin; lia|].
      assert (codeb c 43 = false) as ->.
      { destruct (codeb c 43) eqn:Hplus; [|done].
        apply codeb_eq in Hplus as ->. by vm_compute in Hdigits. }
      cbv iota. by rewrite !andb_true_iff, !Nat.leb_le.
    + change ("+" +:+ digits) with (String "+" digits).
      change (codeb "+" 43) with true. cbv iota.
      by rewrite !andb_true_iff, !Nat.leb_le.
Qed.

Lemma ascii_not_space (a : ascii) (r : list ascii) :
  (N_of_ascii a < 128)%N → asciiSpace a = false →
  startsSpace (a :: r) = false ∧ startsSpaceRev (a :: r) = false.
Proof.
  intros Hascii Ha. cbn [startsSpace startsSpaceRev]. rewrite Ha. cbn [orb].
  assert (∀ b, space2 a b = false ∧ space2 b a = false) as H2.
  { intros b. unfold space2. split.
    - destruct (N.eqb_spec (N_of_ascii a) 194); [lia|done].
    - destruct (N.eqb_spec (N_of_ascii a) 133), (N.eqb_spec (N_of_ascii a) 160);
        try lia; apply andb_false_r. }
  assert (∀ b c, space3 a b c = false ∧ space3 c b a = false) as H3.
  { intros b c. unfold space3. split.
    - destruct (N.eqb_spec (N_of_ascii a) 225), (N.eqb_spec (N_of_ascii a) 226),
        (N.eqb_spec (N_of_ascii a) 227); try lia; done.
    - destruct (N.eqb_spec (N_of_ascii a) 128), (N.leb_spec 128 (N_of_ascii a)),
        (N.eqb_spec (N_of_ascii a) 168), (N.eqb_spec (N_of_ascii a) 169),
        (N.eqb_spec (N_of_ascii a) 175), (N.eqb_spec (N_of_ascii a) 159); try lia;
        cbn [andb orb]; by rewrite !andb_false_r. }
  split.
  - destruct r as [|b [|c r]]; [done|..].
    + by rewrite (proj1 (H2 b)).
    + by rewrite (proj1 (H2 b)), (proj1 (H3 b c)).
  - destruct r as [|b [|c r]]; [done|..].
    + by rewrite (proj2 (H2 b)).
    + by rewrite (proj2 (H2 b)), (proj2 (H3 b c)).
Qed.

Lemma digit_not_space (a : ascii) :
  is_Some (digitval a) → (N_of_ascii a < 128)%N ∧ asciiSpace a = false.
Proof.
  unfold digitval, asciiSpace.
  destruct (N.leb_spec 48 (N_of_ascii a)), (N.leb_spec (N_of_ascii a) 57);
    cbn [andb]; intros [? [=]]; [].
  split; [lia|].
  destruct (N.leb_spec 9 (N_of_ascii a)), (N.leb_spec (N_of_ascii a) 13),
    (N.eqb_spec (N_of_ascii a) 32); try lia; done.
Qed.

Lemma phoneNumber_trimmed (phone : string) :
  phoneNumber (AString phone) → TrimSpace phone = phone.
Proof.
  intros (sign & digits & [= ->] & Hsign & Hdigits & Hmin & _).
  unfold allDigits in Hdigits.
  assert (Forall (λ c, is_Some (digitval c)) (bytes digits)) as Hall.
  { apply Forall_forall. intros c Hc%list_elem_of_In.
    apply (proj1 (forallb_forall _ _) Hdigits) in Hc.
    by apply bool_decide_eq_true in Hc. }
  assert (bytes digits ≠ []) as Hne.
  { rewrite bytes_nil. intros ->. simpl in Hmin. lia. }
  apply TrimSpace_fixed. rewrite bytes_app. split.
  - destruct Hsign as [-> | ->].
    + simpl. destruct (bytes digits) as [|a r]; [done|].
      apply Forall_cons in Hall as [[? ?]%digit_not_space _].
      by apply ascii_not_space.
    + by apply ascii_not_space.
  - rewrite rev_app_distr.
    assert (Forall (λ c, is_Some (digitval c)) (rev (bytes digits))) as Hrev.
    { apply Forall_forall. intros c Hc. rewrite elem_of_rev in Hc. revert c Hc.
      by apply Forall_forall. }
    destruct (rev (bytes digits)) as [|a r] eqn:Hr.
    + apply (f_equal (@rev ascii)) in Hr. by rewrite rev_involutive in Hr.
    + apply Forall_cons in Hrev as [[? ?]%digit_not_space _].
      by apply ascii_not_space.
Qed.

Lemma optionalStringDBValue_within (input : string) (limit : nat) :
  (runeCount (TrimSpace input) ≤ limit)%nat →
  optionalStringDBValue input = ANil ∨ textWithin limit (optionalStringDBValue input).
Proof.
  intros Hlimit. unfold optionalStringDBValue. case_bool_decide; [by left|right].
  exists (TrimSpace input). by rewrite TrimSpace_idemp.
Qed.

(** X20.  A consultation request that passes validation is stored with
    trimmed texts within the limits of the table: non-blank first name,
    last name and service type, a telephone number of an optional plus sign
    and 7 to 15 digits, and optional fields that are null or non-blank; and
    texts that are already of this form are stored unchanged. *)
Theorem consultation_arguments
    (firstName lastName phone serviceType carModel preferredCallTime comments : string) :
  (∀ args,
     consultationArguments firstName lastName phone serviceType carModel
       preferredCallTime comments = inl args →
     ∃ a1 a2 a3 a4 a5 a6 a7,
       args = [a1; a2; a3; a4; a5; a6; a7]
       ∧ textWithin 100 a1 ∧ textWithin 100 a2 ∧ phoneNumber a3 ∧ textWithin 80 a4
       ∧ (a5 = ANil ∨ textWithin 120 a5) ∧ (a6 = ANil ∨ textWithin 120 a6)
       ∧ (a7 = ANil ∨ textWithin 2000 a7))
  ∧ (textWithin 100 (AString firstName) → textWithin 100 (AString lastName) →
     phoneNumber (AString phone) →
     textWithin 80 (AString serviceType) →
     (runeCount (TrimSpace carModel) ≤ 120)%nat →
     (runeCount (TrimSpace preferredCallTime) ≤ 120)%nat →
     (runeCount (TrimSpace comments) ≤ 2000)%nat →
     consultationArguments firstName lastName phone serviceType carModel
       preferredCallTime comments
     = inl [AString firstName; AString lastName; AString phone; AString serviceType;
            optionalStringDBValue carModel; optionalStringDBValue preferredCallTime;
            optionalStringDBValue comments]).
Proof.
  split.
  - intros args. unfold consultationArguments.
    destruct (0 <? _)%nat eqn:Hsize; [done|]. intros [= <-].
    assert (validateConsultationRequest firstName lastName phone serviceType carModel
              preferredCallTime comments = ∅) as Hnone.
    { destruct (decide (validateConsultationRequest firstName lastName phone serviceType
                          carModel preferredCallTime comments = ∅)) as [?|Hne]; [done|].
      apply size_positive in Hne. congruence. }
    apply validateConsultationRequest_empty in Hnone
      as ((?&?) & (?&?) & (?&?) & (?&?) & ? & ? & ?).
    eexists _, _, _, _, _, _, _. split; [done|]. split_and!.
    + exists (TrimSpace firstName). by rewrite TrimSpace_idemp.
    + exists (TrimSpace lastName). by rewrite TrimSpace_idemp.
    + by apply phonePattern_phoneNumber.
    + exists (TrimSpace serviceType). by rewrite TrimSpace_idemp.
    + by apply optionalStringDBValue_within.
    + by apply optionalStringDBValue_within.
    + by apply optionalStringDBValue_within.
  - intros (? & [= <-] & Hf & ? & ?) (? & [= <-] & Hl & ? & ?) Hphone
           (? & [= <-] & Hs & ? & ?) ? ? ?.
    pose proof (phoneNumber_trimmed _ Hphone) as Hp.
    unfold consultationArguments.
    assert (validateConsultationRequest firstName lastName phone serviceType carModel
              preferredCallTime comments = ∅) as ->.
    { apply validateConsultationRequest_empty. rewrite Hf, Hl, Hp, Hs.
      split_and!; try done.
      - intros ->. destruct Hphone as (sign & digits & [= E] & _ & _ & Hlen & _).
        destruct sign, digits; simpl in *; try done; lia.
      - by apply phonePattern_phoneNumber. }
    rewrite Hf, Hl, Hp, Hs. done.
Qed.

Lemma consultation_arguments_witness :
  consultationArguments "Ann" "Lee" "+79001234567" "tuning" " " "" " call me "
  = inl [AString "Ann"; AString "Lee"; AString "+79001234567"; AString "tuning";
         ANil; ANil; AString "call me"].
Proof.
  destruct (consultation_arguments "Ann" "Lee" "+79001234567" "tuning" " " "" " call me ")
    as [_ Hstored].
  apply Hstored.
  - exists "Ann". split_and!; try done. vm_compute. lia.
  - exists "Lee". split_and!; try done. vm_compute. lia.
  - exists "+", "79001234567". split_and!; try done; [by right|vm_compute; lia..].
  - exists "tuning". split_and!; try done. vm_compute. lia.
  - vm_compute. lia.
  - vm_compute. lia.
  - vm_compute. lia.
Defined.

(** ** The address of a stored object *)

Lemma trimLeftByte_idemp (s : string) (c : ascii) :
  trimLeftByte (trimLeftByte s c) c = trimLeftByte s c.
Proof. apply trimLeftByte_fixed, trimLeftByte_stops. Qed.

Lemma trimRightByte_idemp (s : string) (c : ascii) :
  trimRightByte (trimRightByte s c) c = trimRightByte s c.
Proof.
  unfold trimRightByte. by rewrite String_rev_involutive, trimLeftByte_idemp.
Qed.

Lemma PathEscape_plain (s plain : string) :
  PathEscape plain = plain → s ≠ plain → PathEscape s ≠ plain.
Proof. intros Hplain Hne E. rewrite <- Hplain in E. by apply PathEscape_inj in E. Qed.

Lemma Contains_self (s : string) : Contains s s = true.
Proof. destruct s; simpl; [done|]. by rewrite Ascii.eqb_refl, HasPrefix_self. Qed.

(** X21.  The address of a storage delete request stays inside the object
    area of the configured base address: after [/storage/v1/object/] come
    the escaped bucket and the escaped segments of the cleaned path, at
    least two segments, none of them empty or [..], and the base address is
    used as configured, without a trailing slash. *)
Theorem storage_delete_target (supabaseURL serviceRoleKey storageBucket : string)
    (cfg : supabaseStorageConfig) (query : list (string * string))
    (bucket objectPath url : string) :
  loadSupabaseStorageConfig supabaseURL serviceRoleKey storageBucket = inl cfg →
  storageDeleteTarget cfg query = inl (bucket, objectPath, url) →
  ∃ rest,
    url = BaseURL cfg +:+ "/storage/v1/object/" +:+ rest
    ∧ lastByte (BaseURL cfg) ≠ Some slash
    ∧ SplitByte rest slash = PathEscape bucket :: (PathEscape <$> SplitByte objectPath slash)
    ∧ (2 ≤ length (SplitByte rest slash))%nat
    ∧ Forall (λ segment, segment ≠ "" ∧ segment ≠ "..") (SplitByte rest slash).
Proof.
  unfold loadSupabaseStorageConfig, storageDeleteTarget.
  case_bool_decide as Hbase; [done|]. case_bool_decide as Hrole; [done|].
  intros [= <-]. cbn [BaseURL DefaultBucket].
  destruct (cleanStorageBucket _) as [b|err] eqn:Hbucket; [|done].
  destruct (cleanStoragePath _) as [p|err] eqn:Hpath; [|done].
  intros [= -> -> <-].
  exists (PathEscape bucket +:+ "/" +:+ encodeStoragePath objectPath).
  unfold buildSupabaseObjectURL. rewrite trimRightByte_idemp.
  split; [done|]. split.
  { unfold lastByte, trimRightByte. rewrite bytes_rev, rev_involutive.
    apply trimLeftByte_stops. }
  assert (PathEscape bucket +:+ "/" +:+ encodeStoragePath objectPath
          = Join (PathEscape <$> bucket :: SplitByte objectPath slash) "/") as ->.
  { unfold encodeStoragePath.
    pose proof (splitByteGo_nonempty "" objectPath slash) as Hne.
    fold (SplitByte objectPath slash) in Hne.
    by destruct (SplitByte objectPath slash) as [|e rest]. }
  rewrite SplitByte_Join by (done || apply escaped_segments).
  split; [done|]. split.
  { pose proof (splitByteGo_nonempty "" objectPath slash) as Hne.
    fold (SplitByte objectPath slash) in Hne.
    destruct (SplitByte objectPath slash); [done|]. simpl. lia. }
  rewrite fmap_cons. constructor.
  - unfold cleanStorageBucket in Hbucket.
    case_bool_decide as Hempty; [done|].
    destruct (_ || _) eqn:Hbad; [done|]. simplify_eq.
    apply orb_false_iff in Hbad as [_ Hdots].
    split; apply PathEscape_plain; try done.
    intros E. rewrite E in Hdots. by vm_compute in Hdots.
  - apply cleanStoragePath_segments in Hpath as (result & Hne & -> & Hall).
    rewrite SplitByte_Join; [|done|].
    + apply Forall_fmap. eapply Forall_impl; [done|].
      intros e ((? & ? & ? & ?) & _). split; by apply PathEscape_plain.
    + eapply Forall_impl; [done|]. by intros e (?&?&?).
Qed.

Lemma storage_delete_target_witness :
  ∃ rest,
    "https://x.supabase.co/storage/v1/object/cars/bmw/a%20b.jpg"
    = "https://x.supabase.co" +:+ "/storage/v1/object/" +:+ rest
    ∧ SplitByte rest slash = ["cars"; "bmw"; "a%20b.jpg"].
Proof.
  destruct (storage_delete_target "https://x.supabase.co// " "key" ""
              {| BaseURL := "https://x.supabase.co"; ServiceRole := "key";
                 DefaultBucket := "cars" |}
              [("path", "\bmw\\a b.jpg")] "cars" "bmw/a b.jpg"
              "https://x.supabase.co/storage/v1/object/cars/bmw/a%20b.jpg")
    as (rest & Hurl & _ & Hsplit & _).
  - vm_compute. reflexivity.
  - vm_compute. reflexivity.
  - exists rest. split; [exact Hurl|]. rewrite Hsplit. vm_compute. reflexivity.
Defined.

(** ** Sample runs *)

Lemma encoded_path_segments_witness :
  SplitByte (encodeStoragePath "bmw m3/a;b.jpg") slash = ["bmw%20m3"; "a%3Bb.jpg"]
  ∧ ∀ other, encodeStoragePath other = "bmw%20m3/a%3Bb.jpg" → other = "bmw m3/a;b.jpg".
Proof.
  destruct (encoded_path_segments "bmw m3/a;b.jpg") as (Hsplit & _ & Hinj).
  split; [exact Hsplit|]. intros other Hother. apply Hinj. exact Hother.
Defined.

Lemma bucket_names_witness :
  bucketNames [ {[ "name" := AString " cars " ]}; {[ "id" := AString "x" ]};
                {[ "name" := AString "avatars" ]} ]
  = ["avatars"; "cars"]
  ∧ "cars" ∈ bucketNames [ {[ "name" := AString " cars " ]}; {[ "id" := AString "x" ]};
                           {[ "name" := AString "avatars" ]} ].
Proof.
  split; [vm_compute; reflexivity|].
  apply (bucket_names [ {[ "name" := AString " cars " ]}; {[ "id" := AString "x" ]};
                        {[ "name" := AString "avatars" ]} ]).
  exists {[ "name" := AString " cars " ]}, " cars ".
  split; [by apply elem_of_cons; left|]. split; [reflexivity|].
  split; [vm_compute; reflexivity|discriminate].
Defined.
